(** * The command-line layer of ethers.js: [packages/cli/src.ts/cli.ts]

    A shallow embedding of the argument parser, the account resolver, the
    wrapped signer, the option pipeline and the command line runner of the
    CLI, with the properties of the specification, and further properties
    of the code, stated over it.

    Conventions of the embedding:
    - a JavaScript exception is a value of [Exn]; a function that may throw
      returns a [Result];
    - a promise is represented by its outcome (a [Result]); the places where
      an [async] function suspends are made explicit where interleaving
      matters ([getSigner_begin] / [getSigner_resume]);
    - the module-level [WeakMap]s keyed by wrapper objects are finite maps
      keyed by the wrapper's identity (a number);
    - functions imported from other packages ([ethers.utils], the providers,
      the prompt module, [fs]) are fields of the record [Collaborators];
    - [events] is ghost state: a trace of the calls and errors that the
      properties speak about. *)

From Stdlib Require Import ZArith String Ascii List Bool Lia.
From stdpp Require Import base option list gmap strings pretty.

Local Open Scope string_scope.
Local Open Scope list_scope.
Local Open Scope nat_scope.

(** ** JavaScript values and exceptions *)

(** [class UsageError extends Error { }]: the two classes the CLI
    distinguishes with [instanceof]. *)
Inductive Exn : Type :=
| Error (message : string)
| UsageError (message : string).

Definition message (e : Exn) : string :=
  match e with Error m => m | UsageError m => m end.

Definition isUsageError (e : Exn) : bool :=
  match e with UsageError _ => true | Error _ => false end.

Inductive Result (A : Type) : Type :=
| Ok (a : A)
| Throw (e : Exn).
Arguments Ok {A} a.
Arguments Throw {A} e.

(** A value that the TypeScript source types as [string] but that is, at run
    time, a string, [undefined] (an array read past the end) or [null]. *)
Inductive JsValue : Type :=
| undefined
| null
| str (s : string).

(** Truthiness of such a value: [if (v)], [v || d]. *)
Definition truthy (v : JsValue) : bool :=
  match v with
  | str s => negb (String.eqb s EmptyString)
  | _ => false
  end.

(** String conversion, as done by [+] and by template literals. *)
Definition toString (v : JsValue) : string :=
  match v with
  | undefined => "undefined"
  | null => "null"
  | str s => s
  end.

(** [s.substring(n)] *)
Fixpoint substring_from (n : nat) (s : string) : string :=
  match n, s with
  | O, _ => s
  | S n', EmptyString => EmptyString
  | S n', String _ s' => substring_from n' s'
  end.

(** [a[i] = v] on a JavaScript array: in range it overwrites, past the end it
    extends the array (the skipped slots are holes, which read as [hole]). *)
Definition array_set {A : Type} (hole : A) (a : list A) (i : nat) (v : A) : list A :=
  if i <? length a then <[i:=v]> a
  else a ++ replicate (i - length a) hole ++ [v].

(** [names.indexOf(name)] *)
Fixpoint indexOf_from (names : list string) (name : string) (k : Z) : Z :=
  match names with
  | [] => (-1)%Z
  | n :: names' => if String.eqb n name then k else indexOf_from names' name (k + 1)%Z
  end.

Definition indexOf (names : list string) (name : string) : Z :=
  indexOf_from names name 0%Z.

(** ** Argument Parser *)

Module ArgParser.

Record t : Type := mk {
  _args : list string;
  _consumed : list bool
}.

(** [constructor(args)]: [_consumed = args.map((a) => false)]. *)
Definition new (args : list string) : t :=
  mk args (map (fun _ => false) args).

(** [this._consumed[i] = true]; a hole of [_consumed] reads as falsy. *)
Definition mark (consumed : list bool) (i : nat) : list bool :=
  array_set false consumed i true.

(** [this._consumed[i]] used as a condition. *)
Definition is_consumed (consumed : list bool) (i : nat) : bool :=
  match consumed !! i with Some b => b | None => false end.

Record Option_ : Type := mkOption {
  name : string;
  value : JsValue
}.

(** The loop of [consumeFlag]; [rest] is [_args] from index [i] on. *)
Fixpoint consumeFlag_loop (nm : string) (rest : list string) (i count : nat)
    (consumed : list bool) : nat * list bool :=
  match rest with
  | [] => (count, consumed)
  | arg :: rest' =>
      if String.eqb arg "--" then (count, consumed)
      else if String.eqb arg ("--" +:+ nm)
           then consumeFlag_loop nm rest' (S i) (S count) (mark consumed i)
           else consumeFlag_loop nm rest' (S i) count consumed
  end.

(** The message is written between double quotes in the source, so
    [${name}] is not a placeholder: it is part of the text. *)
Definition consumeFlag_message : string := "expected at most one --${name}".

Definition consumeFlag (nm : string) (p : t) : Result bool * t :=
  let '(count, consumed) := consumeFlag_loop nm (_args p) 0 0 (_consumed p) in
  let p' := mk (_args p) consumed in
  if 1 <? count then (Throw (UsageError consumeFlag_message), p')
  else (Ok (count =? 1), p').

Definition consumeMultiOptions_message : string := "missing argument for --${name}".

(** The loop of [consumeMultiOptions]; [len] is [this._args.length] and
    [rest] is [_args] from index [i] on. A matched option reads
    [this._args[++i]] and the loop's own [i++] then skips that token. *)
Fixpoint consumeMultiOptions_loop (names : list string) (len : nat)
    (rest : list string) (i : nat) (consumed : list bool)
    (result : list Option_) : Result (list Option_) * list bool :=
  match rest with
  | [] => (Ok result, consumed)
  | arg :: rest' =>
      if String.eqb arg "--" then (Ok result, consumed)
      else if String.eqb (substring 0 2 arg) "--" then
        let nm := substring_from 2 arg in
        if (indexOf names nm <? 0)%Z
        then consumeMultiOptions_loop names len rest' (S i) consumed result
        else if len =? i
        then (Throw (UsageError consumeMultiOptions_message), consumed)
        else
          let consumed1 := mark consumed i in
          match rest' with
          | [] =>
              (Ok (result ++ [mkOption nm undefined]), mark consumed1 (S i))
          | v :: rest'' =>
              consumeMultiOptions_loop names len rest'' (S (S i))
                (mark consumed1 (S i)) (result ++ [mkOption nm (str v)])
          end
      else consumeMultiOptions_loop names len rest' (S i) consumed result
  end.

Definition consumeMultiOptions (names : list string) (p : t)
    : Result (list Option_) * t :=
  let '(r, consumed) :=
    consumeMultiOptions_loop names (length (_args p)) (_args p) 0 (_consumed p) [] in
  (r, mk (_args p) consumed).

(** [consumeMultiOptions([ name ]).map((o) => o.value)] *)
Definition consumeOptions (nm : string) (p : t) : Result (list JsValue) * t :=
  match consumeMultiOptions [nm] p with
  | (Ok os, p') => (Ok (map value os), p')
  | (Throw e, p') => (Throw e, p')
  end.

(** Here the message is a template literal: the name is interpolated. *)
Definition consumeOption (nm : string) (p : t) : Result JsValue * t :=
  match consumeOptions nm p with
  | (Ok options, p') =>
      if 1 <? length options
      then (Throw (UsageError ("expected at most one --" +:+ nm)), p')
      else (Ok (match options with [] => null | o :: _ => o end), p')
  | (Throw e, p') => (Throw e, p')
  end.

(** The loop of [_finalizeArgs]. *)
Fixpoint _finalizeArgs_loop (rest : list string) (i : nat) (consumed : list bool)
    (args : list string) : Result (list string) :=
  match rest with
  | [] => Ok args
  | arg :: rest' =>
      if is_consumed consumed i then _finalizeArgs_loop rest' (S i) consumed args
      else if String.eqb arg "--" then Ok (args ++ rest')
      else if String.eqb (substring 0 2 arg) "--"
      then Throw (UsageError ("unexpected option " +:+ arg))
      else _finalizeArgs_loop rest' (S i) consumed (args ++ [arg])
  end.

Definition _finalizeArgs (p : t) : Result (list string) :=
  _finalizeArgs_loop (_args p) 0 (_consumed p) [].

Fixpoint _checkCommandIndex_loop (rest : list string) (i : nat)
    (consumed : list bool) : Z :=
  match rest with
  | [] => (-1)%Z
  | _ :: rest' =>
      if is_consumed consumed i then _checkCommandIndex_loop rest' (S i) consumed
      else Z.of_nat i
  end.

Definition _checkCommandIndex (p : t) : Z :=
  _checkCommandIndex_loop (_args p) 0 (_consumed p).

(** The parser keeps one consumption mark per token; the only write past
    the end of [_consumed] is the one of [consumeMultiOptions] at a trailing
    option, which makes [_consumed] longer, never shorter. *)
Definition wf (p : t) : Prop := length (_args p) <= length (_consumed p).

(** Specification devices: [marked] reads a consumption mark and [hits]
    lists the indices that [consumeFlag_loop] marks, which depend on the
    tokens only (lemma [consumeFlag_loop_hits]). *)
Definition marked (consumed : list bool) (i : nat) : Prop := consumed !! i = Some true.

Fixpoint hits (nm : string) (rest : list string) (i : nat) : list nat :=
  match rest with
  | [] => []
  | arg :: rest' =>
      if String.eqb arg "--" then []
      else if String.eqb arg ("--" +:+ nm) then i :: hits nm rest' (S i)
           else hits nm rest' (S i)
  end.

End ArgParser.

(** ** State and errors

    [ST S A] is a computation that reads and updates a state [S] and either
    returns an [A] or throws; the state changes made before a throw are kept,
    as in JavaScript. *)

Definition ST (S A : Type) : Type := S -> Result A * S.

Definition ret {S A : Type} (a : A) : ST S A := fun s => (Ok a, s).

Definition throw {S A : Type} (e : Exn) : ST S A := fun s => (Throw e, s).

Definition bind {S A B : Type} (m : ST S A) (k : A -> ST S B) : ST S B :=
  fun s =>
    match m s with
    | (Ok a, s') => k a s'
    | (Throw e, s') => (Throw e, s')
    end.

(** [try { m } catch (error) { h error }] *)
Definition try_catch {S A : Type} (m : ST S A) (h : Exn -> ST S A) : ST S A :=
  fun s =>
    match m s with
    | (Ok a, s') => (Ok a, s')
    | (Throw e, s') => h e s'
    end.

Declare Scope st_scope.
Delimit Scope st_scope with st.
Notation "x <- m ;; k" := (bind m (fun x => k))
  (at level 100, m at next level, right associativity) : st_scope.
Notation "m ;;; k" := (bind m (fun _ => k))
  (at level 100, right associativity) : st_scope.
Local Open Scope st_scope.

(** ** The collaborators' data *)

Record Network : Type := mkNetwork {
  chainId : Z;
  network_name : string
}.

(** [string | ethers.utils.Bytes], told apart by [typeof]. *)
Inductive Message : Type :=
| MessageString (s : string)
| MessageBytes (bytes : list Z).

Inductive BytesLike : Type :=
| HexString (s : string)
| ByteArray (bytes : list Z).

(** A transaction request whose pending fields have their final values; an
    absent field is [None]. *)
Record TransactionRequest : Type := mkTransactionRequest {
  tx_to : option string;
  tx_from : option string;
  tx_value : option Z;
  tx_nonce : option Z;
  tx_gasLimit : option Z;
  tx_gasPrice : option Z;
  tx_chainId : option Z;
  tx_data : option string
}.

Record TransactionResponse : Type := mkTransactionResponse {
  hash : string
}.

Record Signature : Type := mkSignature {
  sig_r : string;
  sig_s : string;
  sig__vs : string;
  sig_v : Z;
  sig_recoveryParam : Z
}.

(** The capabilities of a real signer ([ethers.Signer]); a promise is given
    by its outcome. *)
Record Signer : Type := mkSigner {
  signer_getAddress : Result string;
  signer_signMessage : Message -> Result string;
  signer_signTransaction : TransactionRequest -> Result string;
  signer_populateTransaction : TransactionRequest -> Result TransactionRequest;
  signer_sendTransaction : TransactionRequest -> Result TransactionResponse
}.

(** The capabilities of a provider used by the CLI. [provider_getSigner] is
    [JsonRpcProvider.getSigner], called with an index (given by its decimal
    text) or with an address. *)
Record Provider : Type := mkProvider {
  provider_getNetwork : Result Network;
  provider_resolveName : JsValue -> Result JsValue;
  provider_getSigner : string + string -> Result Signer
}.

(** ** Observable and ghost state of the terminal

    [choicePrompts] and [passwordPrompts] list the prompts shown so far, in
    order; [console] is what [console.log] printed. [events] is ghost state:
    it records the calls the properties below speak about. *)

Inductive SignerMethod : Type :=
| m_signMessage
| m_signTransaction
| m_populateTransaction
| m_sendTransaction.

Inductive Event : Type :=
| Materialize (wrapper : nat)
| SignerCall (wrapper : nat) (m : SignerMethod)
| Raised (e : Exn)
| NetworkLookupFailed (e : Exn).

Record Terminal : Type := mkTerminal {
  choicePrompts : list string;
  passwordPrompts : list string;
  console : list string;
  events : list Event
}.

Definition emit (ev : Event) : ST Terminal unit :=
  fun t => (Ok tt, mkTerminal (choicePrompts t) (passwordPrompts t) (console t)
                     (events t ++ [ev])).

(** [console.log(line)] *)
Definition console_log (line : string) : ST Terminal unit :=
  fun t => (Ok tt, mkTerminal (choicePrompts t) (passwordPrompts t)
                     (console t ++ [line]) (events t)).

(** [throw e] in the CLI's own code. *)
Definition raise {A : Type} (e : Exn) : ST Terminal A :=
  emit (Raised e) ;;; throw e.

(** A call to a collaborator that returns or throws. *)
Definition call {A : Type} (r : Result A) : ST Terminal A :=
  match r with
  | Ok a => ret a
  | Throw e => raise e
  end.

(** ** Functions imported from other packages *)

Record Collaborators : Type := mkCollaborators {
  (* ./prompt: the answer to the k-th prompt of each kind *)
  choice_answer : nat -> Result string;
  password_answer : nat -> Result string;
  (* fs *)
  readFileSync : JsValue -> Result string;
  (* ethers.utils *)
  isHexString : JsValue -> nat -> bool;
  isValidMnemonic : JsValue -> bool;
  getJsonWalletAddress : string -> Result JsValue;
  getAddress : string -> Result string;
  hexlify : BytesLike -> Result string;
  arrayify : list Z -> Result (list Z);
  toUtf8Bytes : string -> Result (list Z);
  toUtf8String : list Z -> Result string;
  JSON_stringify : string -> string;
  formatEther : Z -> string;
  formatUnits : Z -> string -> string;
  parseUnits : string -> string -> Result Z;
  parseEther : string -> Result Z;
  BigNumber_from : string -> Result Z;
  BigNumber_toNumber : Z -> Result Z;
  BigNumber_toString : Z -> string;
  splitSignature : string -> Result Signature;
  resolveProperties : TransactionRequest -> Result TransactionRequest;
  (* ethers.Wallet *)
  Wallet_new : JsValue -> option Provider -> Result Signer;
  Wallet_fromMnemonic : JsValue -> option Provider -> Result Signer;
  Wallet_fromEncryptedJson : string -> string -> option Provider -> Result Signer;
  VoidSigner_new : JsValue -> option Provider -> Signer;
  (* ethers.providers *)
  JsonRpcProvider : JsValue -> Result Provider;
  AlchemyProvider : string -> Result Provider;
  EtherscanProvider : string -> Result Provider;
  InfuraProvider : string -> Result Provider;
  NodesmithProvider : string -> Result Provider;
  FallbackProvider : list Provider -> Result Provider;
  getDefaultProvider : string -> Result Provider
}.

(** ** Wrapped signers, plugins and the module's private maps *)

Record WrappedSigner : Type := mkWrappedSigner {
  ws_id : nat;                       (* the object's identity *)
  addressPromise : Result JsValue;
  ws_provider : option Provider;
  ws_plugin : nat                    (* the plugin object it refers to *)
}.

(** The fields of a [Plugin]; a field not yet assigned is [None]. *)
Record Plugin : Type := mkPlugin {
  network : option Network;
  provider : option Provider;
  accounts : option (list WrappedSigner);
  gasLimit : option Z;
  gasPrice : option Z;
  nonce : option Z;
  data : option string;
  value : option Z;
  yes : option bool
}.

Definition Plugin_new : Plugin :=
  mkPlugin None None None None None None None None None.

(** What a deferred factory [() => Promise<Signer>] does when it is invoked:
    it settles with a signer or an error, possibly after asking for
    passwords. A factory reaches the terminal through the prompt module
    only. *)
Inductive Factory : Type :=
| Settled (r : Result Signer)
| AskPassword (message : string) (k : string -> Factory).

(** The factories of this file close over the plugin object they were
    created for; a factory is given that plugin's fields as they are when it
    is invoked. *)
Definition SignerFunc : Type := Plugin -> Factory.

Record World : Type := mkWorld {
  terminal : Terminal;
  signerFuncs : gmap nat SignerFunc;
  signers : gmap nat Signer;
  alwaysAllow : gmap nat (gmap string bool);
  plugins : gmap nat Plugin;
  nextObject : nat
}.

Definition set_terminal (t : Terminal) (w : World) : World :=
  mkWorld t (signerFuncs w) (signers w) (alwaysAllow w) (plugins w) (nextObject w).

Definition set_signers (m : gmap nat Signer) (w : World) : World :=
  mkWorld (terminal w) (signerFuncs w) m (alwaysAllow w) (plugins w) (nextObject w).

Definition set_alwaysAllow (m : gmap nat (gmap string bool)) (w : World) : World :=
  mkWorld (terminal w) (signerFuncs w) (signers w) m (plugins w) (nextObject w).

Definition set_plugins (m : gmap nat Plugin) (w : World) : World :=
  mkWorld (terminal w) (signerFuncs w) (signers w) (alwaysAllow w) m (nextObject w).

(** Run a terminal computation inside the world. *)
Definition onTerminal {A : Type} (m : ST Terminal A) : ST World A :=
  fun w => let '(r, t) := m (terminal w) in (r, set_terminal t w).

Definition get_plugin (pid : nat) (w : World) : Plugin :=
  default Plugin_new (plugins w !! pid).

Definition update_plugin (pid : nat) (f : Plugin -> Plugin) : ST World unit :=
  fun w => (Ok tt, set_plugins (<[pid := f (get_plugin pid w)]> (plugins w)) w).

(** [new WrappedSigner(addressPromise, signerFunc, plugin)]: registers the
    factory in [signerFuncs] and copies [plugin.provider]. *)
Definition WrappedSigner_new (address : Result JsValue) (signerFunc : SignerFunc)
    (pid : nat) : ST World WrappedSigner :=
  fun w =>
    let id := nextObject w in
    (Ok (mkWrappedSigner id address (provider (get_plugin pid w)) pid),
     mkWorld (terminal w) (<[id := signerFunc]> (signerFuncs w)) (signers w)
       (alwaysAllow w) (plugins w) (S id)).

(** ** Printing *)

(** [repeat(chr, length)]: doubles [result] until it is long enough. A
    non-empty [chr] needs fewer than [length] doublings (lemma
    [repeat_loop_long]); the source loops for ever on an empty [chr] with a
    positive [length], and every caller passes a single space. *)
Fixpoint repeat_loop (fuel : nat) (result : string) (len : nat) : string :=
  if String.length result <? len then
    match fuel with
    | O => result
    | S fuel' => repeat_loop fuel' (result +:+ result) len
    end
  else result.

Definition repeat (chr : string) (len : nat) : string :=
  substring 0 len (repeat_loop len chr len).

Inductive InfoValue : Type :=
| IText (s : string)
| IArray (items : list string).

Definition Info : Type := list (string * InfoValue).

(** A number placed in a summary is printed in decimal. *)
Definition INumber (n : Z) : InfoValue := IText (pretty n).

Fixpoint console_log_all (lines : list string) : ST Terminal unit :=
  match lines with
  | [] => ret tt
  | l :: lines' => console_log l ;;; console_log_all lines'
  end.

Definition dump_entry (maxLength : nat) (entry : string * InfoValue) : ST Terminal unit :=
  let '(key, v) := entry in
  match v with
  | IArray items =>
      console_log ("  " +:+ key +:+ ":") ;;;
      console_log_all (map (fun item => "    " +:+ item) items)
  | IText s =>
      console_log ("  " +:+ key +:+ ":" +:+ repeat " " (maxLength - String.length key)
                   +:+ "  " +:+ s)
  end.

Fixpoint dump_entries (maxLength : nat) (info : Info) : ST Terminal unit :=
  match info with
  | [] => ret tt
  | entry :: info' => dump_entry maxLength entry ;;; dump_entries maxLength info'
  end.

(** [dump(header, info)] *)
Definition dump (header : string) (info : Info) : ST Terminal unit :=
  console_log header ;;;
  let maxLength := foldl (fun m entry => Nat.max m (String.length (fst entry))) 0 info in
  dump_entries maxLength info.

(** ** Plain objects used as string-keyed maps

    [allowed] in [isAllowed] is created by [{ }], so a key that it does not
    own is looked up in [Object.prototype]. *)
Definition Object_prototype : list string :=
  [ "constructor"; "__defineGetter__"; "__defineSetter__"; "hasOwnProperty";
    "__lookupGetter__"; "__lookupSetter__"; "isPrototypeOf";
    "propertyIsEnumerable"; "toString"; "valueOf"; "__proto__"; "toLocaleString" ].

(** [if (o[key])] *)
Definition object_get (o : gmap string bool) (key : string) : bool :=
  match o !! key with
  | Some b => b
  | None => existsb (String.eqb key) Object_prototype
  end.

(** [o[key] = true]; assigning a primitive to [__proto__] does nothing. *)
Definition object_set_true (o : gmap string bool) (key : string) : gmap string bool :=
  if String.eqb key "__proto__" then o else <[key := true]> o.

(** The double quote character, for the notes printed by [isAllowed]. *)
Definition dquote : string := String (ascii_of_nat 34) EmptyString.

Section Signer.

Variable C : Collaborators.

(** *** The prompt module *)

(** [getChoice(message, options, default)] *)
Definition getChoice (message options default_ : string) : ST Terminal string :=
  fun t =>
    call (choice_answer C (length (choicePrompts t)))
      (mkTerminal (choicePrompts t ++ [message]) (passwordPrompts t)
         (console t) (events t)).

(** [getPassword(message)] *)
Definition getPassword (message : string) : ST Terminal string :=
  fun t =>
    call (password_answer C (length (passwordPrompts t)))
      (mkTerminal (choicePrompts t) (passwordPrompts t ++ [message])
         (console t) (events t)).

(** Invoking a factory and awaiting its promise. *)
Fixpoint run_factory (f : Factory) : ST Terminal Signer :=
  match f with
  | Settled r => call r
  | AskPassword message k =>
      fun t =>
        match getPassword message t with
        | (Ok password, t') => run_factory (k password) t'
        | (Throw e, t') => (Throw e, t')
        end
  end.

(** *** getSigner

    [getSigner] suspends once, at [await signerFunc()]. [getSigner_begin]
    is what runs up to that point, [getSigner_resume] what runs after the
    factory's promise has settled; other code may run in between. *)
Inductive Awaiting : Type :=
| Cached (r : Result Signer)         (* [signers.has(wrapper)]: no [await] *)
| Pending (r : Result Signer).       (* suspended on the factory's promise *)

(** [signers.get(wrapper)] where the source goes on to use the result as a
    signer. *)
Definition signers_get (id : nat) (w : World) : Result Signer :=
  match signers w !! id with
  | Some s => Ok s
  | None => Throw (Error "signer is undefined")
  end.

Definition getSigner_begin (wrapper : WrappedSigner) (w : World) : Awaiting * World :=
  let id := ws_id wrapper in
  match signers w !! id with
  | Some _ => (Cached (signers_get id w), w)
  | None =>
      match signerFuncs w !! id with
      | Some signerFunc =>
          let '(r, w') :=
            onTerminal (emit (Materialize id) ;;;
                        run_factory (signerFunc (get_plugin (ws_plugin wrapper) w))) w in
          (Pending r, w')
      | None =>
          let '(r, w') :=
            onTerminal (raise (Error "signerFunc is not a function")) w in
          (Pending r, w')
      end
  end.

Definition getSigner_resume (wrapper : WrappedSigner) (a : Awaiting) : ST World Signer :=
  fun w =>
    let id := ws_id wrapper in
    match a with
    | Cached r => (r, w)
    | Pending (Throw e) => (Throw e, w)
    | Pending (Ok signer) =>
        let w' := set_signers (<[id := signer]> (signers w)) w in
        (signers_get id w', w')
    end.

(** [getSigner] when nothing else runs while it is suspended. *)
Definition getSigner (wrapper : WrappedSigner) : ST World Signer :=
  fun w =>
    let '(a, w') := getSigner_begin wrapper w in
    getSigner_resume wrapper a w'.

(** *** isAllowed *)

Definition plugin_yes (wrapper : WrappedSigner) (w : World) : bool :=
  match yes (get_plugin (ws_plugin wrapper) w) with
  | Some b => b
  | None => false
  end.

Definition isAllowed (wrapper : WrappedSigner) (message : string) : ST World bool :=
  fun w =>
    if plugin_yes wrapper w then
      (onTerminal (console_log (message +:+ " (--yes => " +:+ dquote +:+ "y" +:+ dquote +:+ ")")) ;;;
       ret true) w
    else
      let allowed := default ∅ (alwaysAllow w !! ws_id wrapper) in
      if object_get allowed message then
        (onTerminal (console_log (message +:+ " (previous (a)ll => " +:+ dquote +:+ "y"
                                  +:+ dquote +:+ ")")) ;;;
         ret true) w
      else
        try_catch
          (allow <- onTerminal (getChoice message "yna" "n") ;;
           if String.eqb allow "a" then
             (fun w1 =>
                (Ok true,
                 set_alwaysAllow
                   (<[ws_id wrapper := object_set_true allowed message]> (alwaysAllow w1))
                   w1))
           else if String.eqb allow "n" then
             onTerminal (raise (Error "Cancelled."))
           else ret true)
          (fun _ => onTerminal (raise (Error "Cancelled.")))
          w.

(** *** The gated operations *)

Definition orZero (v : option Z) : Z := default 0%Z v.

Definition signature_info (first_key result : string) (signature : Signature) : Info :=
  [ (first_key, IText result);
    ("r", IText (sig_r signature));
    ("s", IText (sig_s signature));
    ("vs", IText (sig__vs signature));
    ("v", INumber (sig_v signature));
    ("recid", INumber (sig_recoveryParam signature)) ].

Definition printable (bytes : list Z) : bool :=
  forallb (fun c => negb ((c <? 32)%Z || (126 <? c)%Z)) bytes.

Definition message_info (msg : Message) : ST Terminal Info :=
  match msg with
  | MessageString s =>
      bytes <- call (toUtf8Bytes C s) ;;
      hex <- call (hexlify C (ByteArray bytes)) ;;
      ret [ ("Message", IText (JSON_stringify C s)); ("Message (hex)", IText hex) ]
  | MessageBytes m =>
      bytes <- call (arrayify C m) ;;
      text <- (if printable bytes
               then (t <- call (toUtf8String C bytes) ;; ret [ ("Message", IText t) ])
               else ret []) ;;
      hex <- call (hexlify C (ByteArray m)) ;;
      ret (text ++ [ ("Message (hex)", IText hex) ])
  end.

(** [signMessage], from the summary to [dump("Message:", info)]. *)
Definition signMessage_summary (msg : Message) : ST World unit :=
  info <- onTerminal (message_info msg) ;;
  onTerminal (dump "Message:" info).

(** [signMessage], after the consent. *)
Definition signMessage_finish (this : WrappedSigner) (signer : Signer) (msg : Message)
    : ST World string :=
  result <- onTerminal (emit (SignerCall (ws_id this) m_signMessage) ;;;
                        call (signer_signMessage signer msg)) ;;
  signature <- onTerminal (call (splitSignature C result)) ;;
  onTerminal (dump "Signature" (signature_info "Flat" result signature)) ;;;
  ret result.

Definition signMessage (this : WrappedSigner) (msg : Message) : ST World string :=
  signer <- getSigner this ;;
  signMessage_summary msg ;;;
  isAllowed this "Sign Message?" ;;;
  signMessage_finish this signer msg.

(** [this.provider.getNetwork()]; [this.provider] is [undefined] when the
    plugin had no provider at construction. *)
Definition wrapper_getNetwork (this : WrappedSigner) : ST Terminal Network :=
  match ws_provider this with
  | Some p => call (provider_getNetwork p)
  | None => raise (Error "Cannot read property 'getNetwork' of undefined")
  end.

Definition optional (key : string) (v : option InfoValue) : Info :=
  match v with
  | Some x => [ (key, x) ]
  | None => []
  end.

Definition transaction_info (tx : TransactionRequest) (net : Network) : ST Terminal Info :=
  hexdata <- call (hexlify C (HexString
                     (match tx_data tx with
                      | Some d => if String.eqb d EmptyString then "0x" else d
                      | None => "0x"
                      end))) ;;
  ret (optional "To" (IText <$> tx_to tx)
       ++ optional "From" (IText <$> tx_from tx)
       ++ [ ("Value", IText (formatEther C (orZero (tx_value tx)) +:+ " ether")) ]
       ++ optional "None" (INumber <$> tx_nonce tx)
       ++ [ ("Gas Limit", IText (BigNumber_toString C (orZero (tx_gasLimit tx))));
            ("Gas Price", IText (formatUnits C (orZero (tx_gasPrice tx)) "gwei" +:+ " gwei"));
            ("Chain ID", INumber (orZero (tx_chainId tx)));
            ("Data", IText hexdata);
            ("Network", IText (network_name net)) ]).

(** [signTransaction], from [getNetwork] to [dump("Transaction:", info)]. *)
Definition signTransaction_summary (this : WrappedSigner)
    (transactionRequest : TransactionRequest) : ST World unit :=
  net <- onTerminal (wrapper_getNetwork this) ;;
  tx <- onTerminal (call (resolveProperties C transactionRequest)) ;;
  info <- onTerminal (transaction_info tx net) ;;
  onTerminal (dump "Transaction:" info).

(** [signTransaction], after the consent. *)
Definition signTransaction_finish (this : WrappedSigner) (signer : Signer)
    (transactionRequest : TransactionRequest) : ST World string :=
  result <- onTerminal (emit (SignerCall (ws_id this) m_signTransaction) ;;;
                        call (signer_signTransaction signer transactionRequest)) ;;
  signature <- onTerminal (call (splitSignature C result)) ;;
  onTerminal (dump "Signature:" (signature_info "Signature" result signature)) ;;;
  ret result.

Definition signTransaction (this : WrappedSigner) (transactionRequest : TransactionRequest)
    : ST World string :=
  signer <- getSigner this ;;
  signTransaction_summary this transactionRequest ;;;
  isAllowed this "Sign Transaction?" ;;;
  signTransaction_finish this signer transactionRequest.

(** [sendTransaction], from [getNetwork] to [dump("Transaction:", info)];
    returns the populated and resolved transaction [tx]. *)
Definition sendTransaction_summary (this : WrappedSigner) (signer : Signer)
    (transactionRequest : TransactionRequest) : ST World TransactionRequest :=
  net <- onTerminal (wrapper_getNetwork this) ;;
  tx0 <- onTerminal (emit (SignerCall (ws_id this) m_populateTransaction) ;;;
                     call (signer_populateTransaction signer transactionRequest)) ;;
  tx <- onTerminal (call (resolveProperties C tx0)) ;;
  info <- onTerminal (transaction_info tx net) ;;
  onTerminal (dump "Transaction:" info) ;;;
  ret tx.

(** [sendTransaction], after the consent. *)
Definition sendTransaction_finish (this : WrappedSigner) (signer : Signer)
    (tx : TransactionRequest) : ST World TransactionResponse :=
  response <- onTerminal (emit (SignerCall (ws_id this) m_sendTransaction) ;;;
                          call (signer_sendTransaction signer tx)) ;;
  onTerminal (dump "Response:" [ ("Hash", IText (hash response)) ]) ;;;
  ret response.

Definition sendTransaction (this : WrappedSigner) (transactionRequest : TransactionRequest)
    : ST World TransactionResponse :=
  signer <- getSigner this ;;
  tx <- sendTransaction_summary this signer transactionRequest ;;
  isAllowed this "Send Transaction?" ;;;
  sendTransaction_finish this signer tx.

Definition unlock (this : WrappedSigner) : ST World unit :=
  getSigner this ;;; ret tt.

(** [getAddress()] returns the address promise: no consent, no signer. *)
Definition WrappedSigner_getAddress (this : WrappedSigner) : Result JsValue :=
  addressPromise this.

End Signer.

(** ** Computations that may not return

    [loadAccount] prompts again for as long as the answer is the sentinel
    ["-"]; its embedding takes the number of such rounds it may go through
    and is [None] when that is not enough. *)

Definition PST (S A : Type) : Type := S -> option (Result A * S).

Definition lift {S A : Type} (m : ST S A) : PST S A := fun s => Some (m s).

Definition pbind {S A B : Type} (m : PST S A) (k : A -> PST S B) : PST S B :=
  fun s =>
    match m s with
    | Some (Ok a, s') => k a s'
    | Some (Throw e, s') => Some (Throw e, s')
    | None => None
    end.






Definition set_nonce (v : Z) (p : Plugin) : Plugin :=
  mkPlugin (network p) (provider p) (accounts p) (gasLimit p) (gasPrice p) (Some v)
    (data p) (value p) (yes p).



Definition set_yes (v : bool) (p : Plugin) : Plugin :=
  mkPlugin (network p) (provider p) (accounts p) (gasLimit p) (gasPrice p) (nonce p)
    (data p) (value p) (Some v).

(** [signer.getAddress()] as an address promise. *)
Definition signer_address (signer : Signer) : Result JsValue :=
  match signer_getAddress signer with
  | Ok a => Ok (str a)
  | Throw e => Throw e
  end.

(** [plugin.provider] *)
Definition plugin_provider (pid : nat) : ST World (option Provider) :=
  fun w => (Ok (provider (get_plugin pid w)), w).

Section Account.

Variable C : Collaborators.

(** *** loadAccount *)

Definition is_sentinel (arg : JsValue) : bool :=
  match arg with
  | str s => String.eqb s "-"
  | _ => false
  end.

(** Raw private key. *)
Definition loadAccount_rawKey (arg : JsValue) (pid : nat) : ST World WrappedSigner :=
  prov <- plugin_provider pid ;;
  signer <- onTerminal (call (Wallet_new C arg prov)) ;;
  WrappedSigner_new (signer_address signer) (fun _ => Settled (Ok signer)) pid.

(** Mnemonic. *)
Definition loadAccount_mnemonic (arg : JsValue) (pid : nat) : ST World WrappedSigner :=
  prov <- plugin_provider pid ;;
  signer <- onTerminal (call (Wallet_fromMnemonic C arg prov)) ;;
  WrappedSigner_new (signer_address signer) (fun _ => Settled (Ok signer)) pid.

(** The factory of a JSON wallet: asks for the password, then decrypts and
    connects the wallet to [plugin.provider]. (The progress bar only
    draws on the terminal.) *)
Definition decrypt_factory (arg : JsValue) (content : string) : SignerFunc :=
  fun plugin =>
    AskPassword ("Password (" +:+ toString arg +:+ "): ")
      (fun password =>
         Settled (Wallet_fromEncryptedJson C content password (provider plugin))).

Definition unknown_account : Exn := UsageError "unknown account option - [REDACTED]".

(** The [try] block that checks for a JSON wallet, its [catch] clause, and
    the final [throw] reached when neither returned nor threw. *)
Definition loadAccount_jsonWallet (arg : JsValue) (pid : nat) : ST World WrappedSigner :=
  found <- try_catch
    (content <- onTerminal (call (readFileSync C arg)) ;;
     address <- onTerminal (call (getJsonWalletAddress C content)) ;;
     if truthy address
     then (wrapper <- WrappedSigner_new (Ok address) (decrypt_factory arg content) pid ;;
           ret (Some wrapper))
     else ret None)
    (fun error =>
       if String.eqb (message error) "cancelled"
       then onTerminal (raise (Error "Cancelled."))
       else if String.eqb (message error) "wrong password"
       then onTerminal (raise (Error "Incorrect password."))
       else ret None) ;;
  match found with
  | Some wrapper => ret wrapper
  | None => onTerminal (raise unknown_account)
  end.

(** What [loadAccount] does with an argument other than ["-"]. *)
Definition loadAccount_direct (arg : JsValue) (pid : nat) : ST World WrappedSigner :=
  if isHexString C arg 32 then loadAccount_rawKey arg pid
  else if isValidMnemonic C arg then loadAccount_mnemonic arg pid
  else loadAccount_jsonWallet arg pid.

Fixpoint loadAccount (rounds : nat) (arg : JsValue) (pid : nat) : PST World WrappedSigner :=
  if is_sentinel arg then
    match rounds with
    | O => fun _ => None
    | S rounds' =>
        pbind (lift (onTerminal (getPassword C "Private Key / Mnemonic:")))
          (fun content => loadAccount rounds' (str content) pid)
    end
  else lift (loadAccount_direct arg pid).

(** *** Plugin.prepareOptions *)

Definition PrepState : Type := ArgParser.t * World.

(** A method of the argument parser; its usage errors are thrown by the
    CLI's own code. *)
Definition inParser {A : Type} (f : ArgParser.t -> Result A * ArgParser.t)
    : ST PrepState A :=
  fun s =>
    let '(r, p') := f (fst s) in
    match r with
    | Ok a => (Ok a, (p', snd s))
    | Throw e => (Throw e, (p', snd (onTerminal (emit (Raised e)) (snd s))))
    end.

Definition inWorld {A : Type} (m : ST World A) : ST PrepState A :=
  fun s => let '(r, w') := m (snd s) in (r, (fst s, w')).





(** [/^[0-9]+$/] *)
Definition is_digit (c : ascii) : bool :=
  (48 <=? nat_of_ascii c) && (nat_of_ascii c <=? 57).

Definition all_digits (s : string) : bool :=
  negb (String.eqb s EmptyString) && forallb is_digit (list_ascii_of_string s).

(** [case "account-rpc":] *)
Definition prepareAccount_rpc (pid : nat) (rpc : list Provider) (v : JsValue)
    (accs : list WrappedSigner) : ST World (list WrappedSigner) :=
  match rpc with
  | [rpc0] =>
      try_catch
        (signer <- onTerminal
           (match v with
            | str s =>
                if all_digits s then call (provider_getSigner rpc0 (inl s))
                else (a <- call (getAddress C s) ;; call (provider_getSigner rpc0 (inr a)))
            | _ => raise (Error "Cannot read property 'match' of undefined")
            end) ;;
         wrapper <- WrappedSigner_new (signer_address signer)
                      (fun _ => Settled (Ok signer)) pid ;;
         ret (accs ++ [wrapper]))
        (fun _ => onTerminal (raise (UsageError ("invalid --account-rpc - " +:+ toString v))))
  | _ =>
      onTerminal (raise (UsageError "--account-rpc requires exactly one JSON-RPC provider"))
  end.

(** [case "account-void":] *)
Definition prepareAccount_void (pid : nat) (v : JsValue) (accs : list WrappedSigner)
    : ST World (list WrappedSigner) :=
  prov <- plugin_provider pid ;;
  match prov with
  | Some p =>
      let addressPromise := provider_resolveName p v in
      let signerPromise :=
        match addressPromise with
        | Ok addr => Ok (VoidSigner_new C addr prov)
        | Throw e => Throw e
        end in
      wrapper <- WrappedSigner_new addressPromise (fun _ => Settled signerPromise) pid ;;
      ret (accs ++ [wrapper])
  | None => onTerminal (raise (Error "Cannot read property 'resolveName' of undefined"))
  end.




(** [let v = argParser.consumeOption(name); if (v) { this.f = convert(v); }] *)
Definition transactionOption {A : Type} (pid : nat) (nm : string)
    (convert : string -> Result A) (set : A -> Plugin -> Plugin) : ST PrepState unit :=
  v <- inParser (ArgParser.consumeOption nm) ;;
  if truthy v
  then (x <- inWorld (onTerminal (call (convert (toString v)))) ;;
        inWorld (update_plugin pid (set x)))
  else ret tt.









End Account.

(** ** The gated operations, as one family *)

Inductive Gated : Type :=
| SignMessage (msg : Message)
| SignTransaction (transactionRequest : TransactionRequest)
| SendTransaction (transactionRequest : TransactionRequest).

(** The message each operation passes to [isAllowed]. *)
Definition consent_message (g : Gated) : string :=
  match g with
  | SignMessage _ => "Sign Message?"
  | SignTransaction _ => "Sign Transaction?"
  | SendTransaction _ => "Send Transaction?"
  end.

Inductive Output : Type :=
| Signed (s : string)
| Sent (r : TransactionResponse)
| Unlocked.

Inductive Operation : Type :=
| Gate (g : Gated)
| Unlock.

Definition perform (C : Collaborators) (this : WrappedSigner) (g : Gated) : ST World Output :=
  match g with
  | SignMessage msg => r <- signMessage C this msg ;; ret (Signed r)
  | SignTransaction tx => r <- signTransaction C this tx ;; ret (Signed r)
  | SendTransaction tx => r <- sendTransaction C this tx ;; ret (Sent r)
  end.

Definition operate (C : Collaborators) (this : WrappedSigner) (op : Operation)
    : ST World Output :=
  match op with
  | Gate g => perform C this g
  | Unlock => unlock C this ;;; ret Unlocked
  end.

(** Operations run one after the other, each to completion (whether it
    returns or throws) before the next starts. *)
Fixpoint operate_all (C : Collaborators) (this : WrappedSigner) (ops : list Operation)
    (w : World) : World :=
  match ops with
  | [] => w
  | op :: ops' => operate_all C this ops' (snd (operate C this op w))
  end.

(** The number of times the factory of wrapper [id] was invoked. *)
Fixpoint materializations (id : nat) (evs : list Event) : nat :=
  match evs with
  | [] => 0
  | Materialize i :: evs' => (if i =? id then 1 else 0) + materializations id evs'
  | _ :: evs' => materializations id evs'
  end.

(** An event that is a call of a method of the real signer that signs or
    sends. *)
Definition is_signing (ev : Event) : bool :=
  match ev with
  | SignerCall _ m_signMessage => true
  | SignerCall _ m_signTransaction => true
  | SignerCall _ m_sendTransaction => true
  | _ => false
  end.

Definition is_Materialize (ev : Event) : bool :=
  match ev with
  | Materialize _ => true
  | _ => false
  end.

Definition is_Raised (ev : Event) : bool :=
  match ev with
  | Raised _ => true
  | _ => false
  end.

(** ** Callers of [getSigner] that overlap

    A caller runs [getSigner_begin], is suspended, and later runs
    [getSigner_resume]. A schedule names, step by step, the caller that runs
    next. *)

Inductive Caller : Type :=
| NotStarted
| Suspended (a : Awaiting)
| Returned (r : Result Signer).

Definition caller_step (C : Collaborators) (wrapper : WrappedSigner) (c : Caller)
    (w : World) : Caller * World :=
  match c with
  | NotStarted =>
      let '(a, w') := getSigner_begin C wrapper w in (Suspended a, w')
  | Suspended a =>
      let '(r, w') := getSigner_resume wrapper a w in (Returned r, w')
  | Returned r => (Returned r, w)
  end.

Fixpoint run_schedule (C : Collaborators) (wrapper : WrappedSigner) (schedule : list nat)
    (callers : list Caller) (w : World) : list Caller * World :=
  match schedule with
  | [] => (callers, w)
  | i :: schedule' =>
      match callers !! i with
      | Some c =>
          let '(c', w') := caller_step C wrapper c w in
          run_schedule C wrapper schedule' (<[i := c']> callers) w'
      | None => run_schedule C wrapper schedule' callers w
      end
  end.

(** ** Unit conversion *)

(** The value of a decimal digit, and of a run of digits. *)
Definition digit_of (c : ascii) : option Z :=
  if is_digit c then Some (Z.of_nat (nat_of_ascii c) - 48)%Z else None.

Fixpoint digits_value (acc : Z) (cs : list ascii) : option Z :=
  match cs with
  | [] => Some acc
  | c :: cs' =>
      match digit_of c with
      | Some d => digits_value (10 * acc + d)%Z cs'
      | None => None
      end
  end.

(** The digits before the first ["."] and, if there is one, those after. *)
Fixpoint split_dot (cs : list ascii) : list ascii * option (list ascii) :=
  match cs with
  | [] => ([], None)
  | c :: cs' =>
      if Ascii.eqb c "." then ([], Some cs')
      else let '(whole, frac) := split_dot cs' in (c :: whole, frac)
  end.

(** Modelled from the spec: [ethers.utils.parseUnits] and [parseEther] belong
    to the package [units], which is not part of this file. The
    specification has the gas price "interpreted in the chain's conventional
    display unit and converted to base units" and the value "interpreted in
    the chain's major unit and converted to base units (18-decimal major
    unit)", with 5 gwei being 5 x 10^9 and 1.5 ether being 1.5 x 10^18 base
    units: a decimal numeral is multiplied by ten to the number of decimals
    of the unit. *)
Definition spec_parseUnits (v : string) (decimals : nat) : Result Z :=
  let '(whole, frac) := split_dot (list_ascii_of_string v) in
  let frac := default [] frac in
  if (length whole + length frac =? 0) || (decimals <? length frac)
  then Throw (Error "invalid decimal value")
  else
    match digits_value 0 whole, digits_value 0 frac with
    | Some a, Some b =>
        Ok (a * 10 ^ Z.of_nat decimals + b * 10 ^ Z.of_nat (decimals - length frac))%Z
    | _, _ => Throw (Error "invalid decimal value")
    end.

(** Modelled from the spec: the decimals of the units that [prepareOptions]
    names, 9 for gwei (the display unit of the gas price) and 18 for ether
    (the major unit); the table itself is in the package [units]. *)
Definition spec_decimals (unit : string) : nat :=
  if String.eqb unit "gwei" then 9
  else if String.eqb unit "ether" then 18
  else 0.

(** ** Sample collaborators and worlds

    Concrete data on which the properties below are instantiated. *)

Definition sample_signer (address : string) : Signer :=
  mkSigner (Ok address)
    (fun _ => Ok "0xsignature")
    (fun _ => Ok "0xsigned")
    (fun tx => Ok tx)
    (fun _ => Ok (mkTransactionResponse "0xhash")).

Definition sample_provider (net : Result Network) : Provider :=
  mkProvider net (fun v => Ok v) (fun _ => Ok (sample_signer "0xrpc")).

Definition is_hex_digit (c : ascii) : bool :=
  let n := nat_of_ascii c in
  ((48 <=? n) && (n <=? 57)) || ((65 <=? n) && (n <=? 70)) || ((97 <=? n) && (n <=? 102)).

Definition sample_isHexString (v : JsValue) (n : nat) : bool :=
  match v with
  | str (String "0" (String "x" s)) =>
      forallb is_hex_digit (list_ascii_of_string s) && (String.length s =? 2 * n)
  | _ => false
  end.

Definition sample_key : string :=
  "0x0123456789012345678901234567890123456789012345678901234567890123".

(** [choices] and [passwords] are the answers typed at the prompts; [words]
    tells which strings the word list accepts; [net] is what the network
    lookup of every provider answers. *)
Definition sample (choices passwords : nat -> Result string) (words : JsValue -> bool)
    (net : Result Network) : Collaborators :=
  {| choice_answer := choices;
     password_answer := passwords;
     readFileSync := fun v =>
       match v with
       | str "wallet.json" => Ok "keystore"
       | _ => Throw (Error "ENOENT: no such file or directory")
       end;
     isHexString := sample_isHexString;
     isValidMnemonic := words;
     getJsonWalletAddress := fun content =>
       if String.eqb content "keystore" then Ok (str "0xwallet") else Ok null;
     getAddress := fun s => Ok s;
     hexlify := fun _ => Ok "0x";
     arrayify := fun b => Ok b;
     toUtf8Bytes := fun _ => Ok [];
     toUtf8String := fun _ => Ok "text";
     JSON_stringify := fun s => s;
     formatEther := fun z => pretty z;
     formatUnits := fun z _ => pretty z;
     parseUnits := fun v unit => spec_parseUnits v (spec_decimals unit);
     parseEther := fun v => spec_parseUnits v 18;
     BigNumber_from := fun v => spec_parseUnits v 0;
     BigNumber_toNumber := fun z => Ok z;
     BigNumber_toString := fun z => pretty z;
     splitSignature := fun _ => Ok (mkSignature "0xr" "0xs" "0xvs" 27 0);
     resolveProperties := fun tx => Ok tx;
     Wallet_new := fun _ _ => Ok (sample_signer "0xkey");
     Wallet_fromMnemonic := fun _ _ => Ok (sample_signer "0xphrase");
     Wallet_fromEncryptedJson := fun _ password _ =>
       if String.eqb password "secret" then Ok (sample_signer "0xwallet")
       else Throw (Error "wrong password");
     VoidSigner_new := fun _ _ => sample_signer "0xvoid";
     JsonRpcProvider := fun _ => Ok (sample_provider net);
     AlchemyProvider := fun _ => Ok (sample_provider net);
     EtherscanProvider := fun _ => Ok (sample_provider net);
     InfuraProvider := fun _ => Ok (sample_provider net);
     NodesmithProvider := fun _ => Ok (sample_provider net);
     FallbackProvider := fun _ => Ok (sample_provider net);
     getDefaultProvider := fun _ => Ok (sample_provider net) |}.

Definition empty_terminal : Terminal := mkTerminal [] [] [] [].

(** A world with one plugin (number 0), freshly constructed, and no wrapped
    signer yet. *)
Definition sample_world : World :=
  mkWorld empty_terminal ∅ ∅ ∅ {[ 0 := Plugin_new ]} 0.

(** The wrapper that [loadAccount] makes for ["wallet.json"] in
    [sample_world], and the world it leaves. *)
Definition wallet_wrapper : WrappedSigner :=
  mkWrappedSigner 0 (Ok (str "0xwallet")) None 0.

Definition wallet_world (C : Collaborators) : World :=
  mkWorld empty_terminal {[ 0 := decrypt_factory C (str "wallet.json") "keystore" ]}
    ∅ ∅ {[ 0 := Plugin_new ]} 1.

Definition homestead : Network := mkNetwork 1 "homestead".

(** ** Specification devices for effects

    [tgrow] and [wgrow] describe a terminal, or a world, after some lines
    were printed and some events took place, everything else being as
    before. A computation is [tquiet ok] (on the terminal) or [quiet ok] (on
    the world) when that is all it does, with events accepted by [ok]. A
    computation is [inert] when it leaves the signers and the factories alone
    and invokes no factory. *)

Definition tgrow (t : Terminal) (co : list string) (ev : list Event) : Terminal :=
  mkTerminal (choicePrompts t) (passwordPrompts t) (console t ++ co) (events t ++ ev).

Definition wgrow (w : World) (co : list string) (ev : list Event) : World :=
  set_terminal (tgrow (terminal w) co ev) w.

Definition tquiet (ok : Event -> bool) {A : Type} (m : ST Terminal A) : Prop :=
  forall t, exists co ev, snd (m t) = tgrow t co ev /\ forallb ok ev = true.

Definition quiet (ok : Event -> bool) {A : Type} (m : ST World A) : Prop :=
  forall w, exists co ev, snd (m w) = wgrow w co ev /\ forallb ok ev = true.

Definition not_signing (ev : Event) : bool := negb (is_signing ev) && negb (is_Materialize ev).

Definition not_Materialize (ev : Event) : bool := negb (is_Materialize ev).

Definition inert {A : Type} (m : ST World A) : Prop :=
  forall w,
    signers (snd (m w)) = signers w
    /\ signerFuncs (snd (m w)) = signerFuncs w
    /\ exists ev, events (terminal (snd (m w))) = events (terminal w) ++ ev
                  /\ forallb not_Materialize ev = true.

(** The world after [new WrappedSigner(..., signerFunc, ...)]. *)
Definition registered (f : SignerFunc) (w : World) : World :=
  mkWorld (terminal w) (<[nextObject w := f]> (signerFuncs w)) (signers w)
    (alwaysAllow w) (plugins w) (S (nextObject w)).

(** A factory that settles with a signer whatever is typed at its prompts. *)
Definition infallible (C : Collaborators) (f : SignerFunc) : Prop :=
  forall plugin t, exists s, fst (run_factory C (f plugin) t) = Ok s.

(** The shape shared by the three gated operations: materialize the signer,
    print the summary, ask for consent, act. *)
Definition protocol (C : Collaborators) {X A : Type} (this : WrappedSigner) (msg : string)
    (pre : Signer -> ST World X) (act : Signer -> X -> ST World A) : ST World A :=
  signer <- getSigner C this ;;
  x <- pre signer ;;
  isAllowed C this msg ;;;
  act signer x.

(** The protocol from the summary on, once the signer [s] is there. *)
Definition gate (C : Collaborators) {X A : Type} (this : WrappedSigner) (msg : string)
    (pre : Signer -> ST World X) (act : Signer -> X -> ST World A) (s : Signer)
    : ST World A :=
  x <- pre s ;; isAllowed C this msg ;;; act s x.

(** The world after [getChoice(msg, ...)] has shown its prompt. *)
Definition prompted (w : World) (msg : string) : World :=
  set_terminal
    (mkTerminal (choicePrompts (terminal w) ++ [msg]) (passwordPrompts (terminal w))
       (console (terminal w)) (events (terminal w))) w.

(** [msg] was answered "always" on this wrapper. *)
Definition always_allowed (this : WrappedSigner) (msg : string) (w : World) : Prop :=
  exists o, alwaysAllow w !! ws_id this = Some o /\ o !! msg = Some true.

Definition note_yes (msg : string) : string :=
  msg +:+ " (--yes => " +:+ dquote +:+ "y" +:+ dquote +:+ ")".

Definition note_all (msg : string) : string :=
  msg +:+ " (previous (a)ll => " +:+ dquote +:+ "y" +:+ dquote +:+ ")".

(** A user who answers "always", one who answers "no", one who types a
    wrong password and one who aborts the password prompt. *)
Definition user_always : Collaborators :=
  sample (fun _ => Ok "a") (fun _ => Ok "secret") (fun _ => false) (Ok homestead).

Definition user_no : Collaborators :=
  sample (fun _ => Ok "n") (fun _ => Ok "secret") (fun _ => false) (Ok homestead).

Definition user_wrong_password : Collaborators :=
  sample (fun _ => Ok "y") (fun _ => Ok "guess") (fun _ => false) (Ok homestead).

(** Collaborators whose word list accepts every string, so that the sample
    key is also a valid phrase. *)
Definition every_string_a_phrase : Collaborators :=
  sample (fun _ => Ok "y") (fun _ => Ok "secret") (fun _ => true) (Ok homestead).

Definition user_cancels_password : Collaborators :=
  sample (fun _ => Ok "y") (fun _ => Throw (Error "cancelled")) (fun _ => false)
    (Ok homestead).

(** ** Specification devices for error propagation

    A state gives a view of the ghost events and of a plugin's provider. A
    computation is [steady] when a normal return means that no error was
    raised while it ran, and when it leaves a provider that was set in
    place. [tstrict] is the first half, for terminal computations; [psteady]
    is [steady] for computations that may not return. *)

Class View (S : Type) : Type := {
  view_events : S -> list Event;
  view_provider : nat -> S -> option Provider
}.

#[export] Instance World_View : View World := {|
  view_events := fun w => events (terminal w);
  view_provider := fun pid w => provider (get_plugin pid w)
|}.

#[export] Instance PrepState_View : View (ArgParser.t * World) := {|
  view_events := fun s => events (terminal (snd s));
  view_provider := fun pid s => provider (get_plugin pid (snd s))
|}.







(** ** Specification devices for the argument parser *)

(** The tokens that the option scans look at: those before the first
    ["--"]. *)
Fixpoint scanned (args : list string) : list string :=
  match args with
  | [] => []
  | arg :: rest => if String.eqb arg "--" then [] else arg :: scanned rest
  end.

(** How many of them are the flag [--nm]. *)
Definition occurrences (nm : string) (args : list string) : nat :=
  length (List.filter (fun arg => String.eqb arg ("--" +:+ nm)) (scanned args)).

(** [arg.substring(0, 2) === "--"] *)
Definition option_like (arg : string) : bool := String.eqb (substring 0 2 arg) "--".

(** A parser [p'] that has the tokens of [p] and at least its marks. *)
Definition keeps_marks (p p' : ArgParser.t) : Prop :=
  ArgParser._args p' = ArgParser._args p
  /\ length (ArgParser._consumed p) <= length (ArgParser._consumed p')
  /\ (forall j, ArgParser.is_consumed (ArgParser._consumed p) j = true ->
                ArgParser.is_consumed (ArgParser._consumed p') j = true).

(** The tokens of [rest] (the tokens from index [i] on) whose consumption
    mark is not set. *)
Fixpoint unconsumed_from (rest : list string) (i : nat) (consumed : list bool)
    : list string :=
  match rest with
  | [] => []
  | arg :: rest' =>
      if ArgParser.is_consumed consumed i then unconsumed_from rest' (S i) consumed
      else arg :: unconsumed_from rest' (S i) consumed
  end.

Definition unconsumed (p : ArgParser.t) : list string :=
  unconsumed_from (ArgParser._args p) 0 (ArgParser._consumed p).

(** No token after an unconsumed separator is consumed. *)
Definition guarded (p : ArgParser.t) : Prop :=
  forall k, ArgParser._args p !! k = Some "--" ->
    ArgParser.is_consumed (ArgParser._consumed p) k = false ->
    forall j, k < j -> ArgParser.is_consumed (ArgParser._consumed p) j = false.

(** What makes an option returned by [consumeMultiOptions] come from the
    tokens [args] and the names asked for. *)
Definition from_tokens (names args : list string) (o : ArgParser.Option_) : Prop :=
  ArgParser.name o ∈ names
  /\ "--" +:+ ArgParser.name o ∈ args
  /\ ArgParser.value o <> null
  /\ forall v, ArgParser.value o = str v -> v ∈ args.

(** ** Further specification devices and sample data *)

(** The part of the world that the consent decision reads: the choice
    prompts shown so far, the remembered answers and the plugins' fields. *)
Definition same_consent (w w' : World) : Prop :=
  choicePrompts (terminal w') = choicePrompts (terminal w)
  /\ alwaysAllow w' = alwaysAllow w
  /\ plugins w' = plugins w.

(** The sample wallet in a plugin that was given [--yes]. *)
Definition yes_world (C : Collaborators) : World :=
  mkWorld empty_terminal {[ 0 := decrypt_factory C (str "wallet.json") "keystore" ]}
    ∅ ∅ {[ 0 := set_yes true Plugin_new ]} 1.

(** [n] copies of the character [c]. *)
Fixpoint copies (n : nat) (c : ascii) : string :=
  match n with
  | O => EmptyString
  | S n' => String c (copies n' c)
  end.

(** The world after the password prompts [msgs] were shown. *)
Definition asked (w : World) (msgs : list string) : World :=
  set_terminal
    (mkTerminal (choicePrompts (terminal w)) (passwordPrompts (terminal w) ++ msgs)
       (console (terminal w)) (events (terminal w))) w.

(** What constructing a wrapped signer for plugin [pid] does to the world:
    nothing is asked or printed, no signer is materialized, and exactly one
    factory is registered, under a fresh identity, when a wrapper is
    returned; nothing is registered otherwise. *)
Definition allocates (pid : nat) (w : World) (r : Result WrappedSigner) (w' : World)
    : Prop :=
  (exists ev, terminal w' = tgrow (terminal w) [] ev /\ forallb is_Raised ev = true)
  /\ signers w' = signers w
  /\ alwaysAllow w' = alwaysAllow w
  /\ plugins w' = plugins w
  /\ match r with
     | Ok wrapper =>
         ws_id wrapper = nextObject w
         /\ ws_plugin wrapper = pid
         /\ ws_provider wrapper = provider (get_plugin pid w)
         /\ nextObject w' = S (nextObject w)
         /\ exists f, signerFuncs w' = <[nextObject w := f]> (signerFuncs w)
     | Throw _ => signerFuncs w' = signerFuncs w /\ nextObject w' = nextObject w
     end.



(** A user who answers the sentinel twice before typing the key. *)
Definition user_retypes : Collaborators :=
  sample (fun _ => Ok "y") (fun k => if k <? 2 then Ok "-" else Ok sample_key)
    (fun _ => false) (Ok homestead).

(** ** Plugin: the methods used by the commands *)

(** The message of [new Error(message)]: an [undefined] message leaves it
    empty. *)
Definition error_message (message : JsValue) : string :=
  match message with
  | undefined => EmptyString
  | v => toString v
  end.

(** [throwUsageError(message)] *)
Definition throwUsageError {A : Type} (message : JsValue) : ST World A :=
  onTerminal (raise (UsageError (error_message message))).

(** [throwError(message)] *)
Definition throwError {A : Type} (message : JsValue) : ST World A :=
  onTerminal (raise (Error (error_message message))).

(** [prepareArgs(args)] and [run()] of the base class do nothing. *)
Definition Plugin_prepareArgs (args : list string) : PST (ArgParser.t * World) unit :=
  lift (ret tt).

Definition Plugin_run : PST (ArgParser.t * World) unit := lift (ret tt).

(** [connect(provider)] of a wrapped signer. *)
Definition WrappedSigner_connect (this : WrappedSigner) (provider : option Provider)
    : ST World Signer :=
  onTerminal (raise (Error "unsupported for now...")).

Section GetAddress.

Variable C : Collaborators.

(** [ethers.constants.AddressZero] *)
Variable AddressZero : string.

(** [getAddress(addressOrName, message, allowZero)]: an error of
    [ethers.utils.getAddress] is caught and dropped, and the name is then
    resolved by the provider. *)
Definition Plugin_getAddress (pid : nat) (addressOrName : string) (message : JsValue)
    (allowZero : bool) : ST World string :=
  checked <- try_catch
    (a <- onTerminal (call (getAddress C addressOrName)) ;; ret (Some a))
    (fun _ => ret None) ;;
  match checked with
  | Some a => ret a
  | None =>
      prov <- plugin_provider pid ;;
      match prov with
      | Some p =>
          address <- onTerminal (call (provider_resolveName p (str addressOrName))) ;;
          match address with
          | str a =>
              if String.eqb a AddressZero && negb allowZero
              then throwError message
              else ret a
          | _ => throwError (str ("ENS name not configured - " +:+ addressOrName))
          end
      | None => onTerminal (raise (Error "Cannot read property 'resolveName' of undefined"))
      end
  end.

End GetAddress.

(** ** Command Line Runner *)

Record Help : Type := mkHelp {
  help_name : string;
  help_help : string
}.

(** What the three methods of a plugin instance do when [CLI.run] calls
    them. They may return, throw or never settle, and they have the parser
    they were given. *)
Record PluginMethods : Type := mkPluginMethods {
  on_prepareOptions : PST (ArgParser.t * World) unit;
  on_prepareArgs : list string -> PST (ArgParser.t * World) unit;
  on_run : PST (ArgParser.t * World) unit
}.

(** [interface PluginType]: a constructor and two optional static methods;
    [getHelp] may return [null]. *)
Record PluginType : Type := mkPluginType {
  construct : ST World PluginMethods;
  getHelp : option (option Help);
  getOptionHelp : option (list Help)
}.

(** [defaultCommand] is a non-empty string or [null]; [cli_plugins] lists
    the own properties of the object [this.plugins], in the order in which
    [for ... in] enumerates them. *)
Record CLI : Type := mkCLI {
  defaultCommand : JsValue;
  cli_plugins : list (string * PluginType)
}.

(** [constructor(defaultCommand)] *)
Definition CLI_new (defaultCommand : JsValue) : CLI :=
  mkCLI (if truthy defaultCommand then defaultCommand else null) [].

Fixpoint own_property (plugins : list (string * PluginType)) (key : string)
    : option PluginType :=
  match plugins with
  | [] => None
  | (k, plugin) :: plugins' =>
      if String.eqb k key then Some plugin else own_property plugins' key
  end.

(** [this.plugins[command]], as [new] sees it: [this.plugins] is created
    by [{ }], so a key that it does not own is looked up in
    [Object.prototype], where only ["constructor"] is a constructor. *)
Inductive Looked : Type :=
| PluginClass (plugin : PluginType)
| ObjectFunction
| NotConstructor.

Definition plugins_get (cli : CLI) (key : string) : Looked :=
  match own_property (cli_plugins cli) key with
  | Some plugin => PluginClass plugin
  | None => if String.eqb key "constructor" then ObjectFunction else NotConstructor
  end.

Inductive Constructed : Type :=
| PluginObject (methods : PluginMethods)
| PlainObject.

(** [new this.plugins[command]()] *)
Definition new_plugin (cli : CLI) (command : JsValue) : ST World Constructed :=
  match plugins_get cli (toString command) with
  | PluginClass plugin => methods <- construct plugin ;; ret (PluginObject methods)
  | ObjectFunction => ret PlainObject
  | NotConstructor =>
      onTerminal (raise (Error "this.plugins[command] is not a constructor"))
  end.

(** How [CLI.run] ends: its promise is fulfilled or rejected, or the
    process exits, after which nothing runs. *)
Inductive Completion : Type :=
| Resolved
| Rejected (e : Exn)
| Exited (status : Z).

Definition star : string := String (ascii_of_nat 42) EmptyString.

(** The lines that [showUsage] pushes for one plugin. *)
Definition help_lines (plugin : PluginType) : list string :=
  match getHelp plugin with
  | Some (Some help) =>
      let helpLine := "   " +:+ help_name help in
      (if 28 <? String.length helpLine
       then [ helpLine; repeat " " 30 +:+ help_help help ]
       else [ helpLine +:+ repeat " " (30 - String.length helpLine) +:+ help_help help ])
      ++ map (fun h => "      " +:+ help_name h
                       +:+ repeat " " (27 - String.length (help_name h)) +:+ help_help h)
           (match getOptionHelp plugin with
            | Some optionHelp => optionHelp
            | None => []
            end)
  | _ => []
  end.

Definition usage_commands (cli : CLI) : list string :=
  let lines := flat_map (fun entry => help_lines (snd entry)) (cli_plugins cli) in
  match lines with
  | [] => []
  | _ :: _ =>
      (if truthy (defaultCommand cli)
       then [ "   ethers [ COMMAND ] [ ARGS ] [ OPTIONS ]";
              EmptyString;
              "COMMANDS (default: " +:+ toString (defaultCommand cli) +:+ ")" ]
       else [ "   ethers COMMAND [ ARGS ] [ OPTIONS ]";
              EmptyString;
              "COMMANDS" ])
      ++ lines ++ [ EmptyString ]
  end.

Definition usage_options : list string :=
  [ "ACCOUNT OPTIONS";
    "  --account FILENAME          Load a JSON Wallet (crowdsale or keystore)";
    "  --account RAW_KEY           Use a private key (insecure " +:+ star +:+ ")";
    "  --account 'MNEMONIC'        Use a mnemonic (insecure " +:+ star +:+ ")";
    "  --account -                 Use secure entry for a raw key or mnemonic";
    "  --account-void ADDRESS      Udd an address as a void signer";
    "  --account-void ENS_NAME     Add the resolved address as a void signer";
    "  --account-rpc ADDRESS       Add the address from a JSON-RPC provider";
    "  --account-rpc INDEX         Add the index from a JSON-RPC provider";
    EmptyString;
    "PROVIDER OPTIONS (default: getDefaultProvider)";
    "  --alchemy                   Include Alchemy";
    "  --etherscan                 Include Etherscan";
    "  --infura                    Include INFURA";
    "  --nodesmith                 Include nodesmith";
    "  --rpc URL                   Include a custom JSON-RPC";
    "  --network NETWORK           Network to connect to (default: homestead)";
    EmptyString;
    "TRANSACTION OPTIONS (default: query the network)";
    "  --gasPrice GWEI             Default gas price for transactions(in wei)";
    "  --gasLimit GAS              Default gas limit for transactions";
    "  --nonce NONCE               Initial nonce for the first transaction";
    "  --value VALUE               Default value (in ether) for transactions";
    "  --yes                       Always accept Siging and Sending";
    EmptyString;
    "OTHER OPTIONS";
    "  --help                      Show this usage and quit";
    EmptyString;
    "(" +:+ star +:+ ") By including mnemonics or private keys on the command line they are";
    "    possibly readable by other users on your system and may get stored in";
    "    your bash history file.";
    EmptyString ].

(** Everything [showUsage(message, status)] prints. *)
Definition usage (cli : CLI) (message : JsValue) : list string :=
  [ "Usage:" ] ++ usage_commands cli ++ usage_options
  ++ (if truthy message then [ toString message; EmptyString ] else []).

(** [showUsage(message, status)]: prints and ends the process with
    [status || 0]. *)
Definition showUsage (cli : CLI) (message : JsValue) (status : option Z)
    : World -> Completion * World :=
  fun w =>
    (Exited (default 0%Z status),
     snd (onTerminal (console_log_all (usage cli message)) w)).

(** [names.forEach((name) => { f(name); })] *)
Fixpoint forEach {S A B : Type} (f : A -> ST S B) (l : list A) : ST S unit :=
  match l with
  | [] => ret tt
  | a :: l' => f a ;;; forEach f l'
  end.

Definition standard_flags : list string :=
  [ "debug"; "help"; "yes" ] ++ [ "alchemy"; "etherscan"; "infura"; "nodesmith" ].

Definition standard_options : list string :=
  [ "network"; "rpc"; "account"; "account-rpc"; "account-void"; "gas-price";
    "gas-limit"; "nonce"; "data" ].

(** [args[i]] *)
Definition array_get (args : list string) (i : nat) : JsValue :=
  match args !! i with
  | Some a => str a
  | None => undefined
  end.

(** The first block of [run]: a temporary parser consumes the standard
    flags and options, and the first token left is the command, which is
    spliced out of [args]. *)
Definition find_command (cli : CLI) (args : list string)
    : Result (JsValue * list string) :=
  match (forEach ArgParser.consumeFlag [ "debug"; "help"; "yes" ] ;;;
         forEach ArgParser.consumeFlag [ "alchemy"; "etherscan"; "infura"; "nodesmith" ] ;;;
         forEach ArgParser.consumeOption standard_options) (ArgParser.new args) with
  | (Throw e, _) => Throw e
  | (Ok _, argParser) =>
      let commandIndex := ArgParser._checkCommandIndex argParser in
      if (commandIndex =? -1)%Z then Ok (defaultCommand cli, args)
      else Ok (array_get args (Z.to_nat commandIndex), delete (Z.to_nat commandIndex) args)
  end.

(** The body of the second [try] block. *)
Definition plugin_steps (plugin : Constructed) : PST (ArgParser.t * World) unit :=
  match plugin with
  | PluginObject methods =>
      pbind (on_prepareOptions methods)
        (fun _ =>
           pbind (lift (inParser (fun argParser =>
                                    (ArgParser._finalizeArgs argParser, argParser))))
             (fun args =>
                pbind (on_prepareArgs methods args) (fun _ => on_run methods)))
  | PlainObject =>
      lift (inWorld (onTerminal (raise (Error "plugin.prepareOptions is not a function"))))
  end.

(** An error thrown by [run] outside its [try] blocks rejects its promise. *)
Definition reject (e : Exn) (w : World) : Completion * World :=
  (Rejected e, snd (onTerminal (emit (Raised e)) w)).

Section Runner.

(** What [console.log(error)] prints for an error object. *)
Variable inspect : Exn -> string.

(** The [catch] clause of the second [try] block. *)
Definition report (cli : CLI) (debug : bool) (error : Exn) : World -> Completion * World :=
  fun w =>
    let w1 :=
      if debug
      then snd (onTerminal (console_log_all [ "----- <DEBUG> ------"; inspect error;
                                              "----- </DEBUG> -----" ]) w)
      else w in
    if isUsageError error then showUsage cli (str (message error)) (Some 1%Z) w1
    else (Exited 2, snd (onTerminal (console_log ("Error: " +:+ message error)) w1)).

(** [run(args)] *)
Definition CLI_run (cli : CLI) (args : list string) : World -> option (Completion * World) :=
  fun w =>
    match find_command cli args with
    | Throw e => Some (reject e w)
    | Ok (command, args) =>
        match ArgParser.consumeFlag "help" (ArgParser.new args) with
        | (Throw e, _) => Some (reject e w)
        | (Ok true, _) => Some (showUsage cli undefined None w)
        | (Ok false, argParser) =>
            match ArgParser.consumeFlag "debug" argParser with
            | (Throw e, _) => Some (reject e w)
            | (Ok debug, argParser) =>
                match new_plugin cli command w with
                | (Throw _, w1) =>
                    Some (if truthy command
                          then showUsage cli
                                 (str ("unknown command - " +:+ toString command)) None w1
                          else showUsage cli (str "no command provided") (Some 1%Z) w1)
                | (Ok plugin, w1) =>
                    match plugin_steps plugin (argParser, w1) with
                    | None => None
                    | Some (Ok _, (_, w2)) => Some (Resolved, w2)
                    | Some (Throw error, (_, w2)) => Some (report cli debug error w2)
                    end
                end
            end
        end
    end.

End Runner.


(** A command that does nothing, and one whose [run] fails. *)
Definition quiet_command : PluginType :=
  mkPluginType (ret (mkPluginMethods (lift (ret tt)) Plugin_prepareArgs Plugin_run))
    (Some (Some (mkHelp "noop" "Do nothing"))) None.

Definition failing_command (e : Exn) : PluginType :=
  mkPluginType
    (ret (mkPluginMethods (lift (ret tt)) Plugin_prepareArgs
            (lift (inWorld (onTerminal (raise e))))))
    None None.

Definition sample_cli : CLI :=
  mkCLI null [ ("noop", quiet_command); ("fail", failing_command (Error "boom")) ].

(** The first token is [t], followed by [rest], and it is not consumed. *)
Definition head_kept (t : string) (rest : list string) (p : ArgParser.t) : Prop :=
  ArgParser._args p = t :: rest
  /\ ArgParser.is_consumed (ArgParser._consumed p) 0 = false.




(** * Properties *)

(** ** Argument Parser *)

Module ArgParserFacts.
Import ArgParser.

Lemma mark_in_range consumed i :
  i < length consumed -> mark consumed i = <[i := true]> consumed.
Proof.
  intros Hi. unfold mark, array_set.
  destruct (Nat.ltb_spec i (length consumed)); [reflexivity | lia].
Qed.

Lemma mark_marked consumed i : marked (mark consumed i) i.
Proof.
  unfold marked, mark, array_set.
  destruct (Nat.ltb_spec i (length consumed)) as [Hlt | Hge].
  - by apply list_lookup_insert_eq.
  - rewrite lookup_app_r by lia.
    rewrite lookup_app_r by (rewrite length_replicate; lia).
    rewrite length_replicate.
    by replace (i - length consumed - (i - length consumed)) with 0 by lia.
Qed.

Lemma mark_preserves consumed i j : marked consumed j -> marked (mark consumed i) j.
Proof.
  unfold marked, mark, array_set. intros Hj.
  destruct (Nat.ltb_spec i (length consumed)) as [Hlt | Hge].
  - destruct (decide (i = j)) as [-> | Hne].
    + by apply list_lookup_insert_eq.
    + by rewrite list_lookup_insert_ne.
  - rewrite lookup_app_l; [done |]. by eapply lookup_lt_Some.
Qed.

Lemma mark_id consumed i : marked consumed i -> mark consumed i = consumed.
Proof.
  intros Hi. rewrite mark_in_range by (by eapply lookup_lt_Some).
  by apply list_insert_id.
Qed.

Lemma mark_length consumed i : length consumed <= length (mark consumed i).
Proof.
  unfold mark, array_set.
  destruct (Nat.ltb_spec i (length consumed)).
  - by rewrite length_insert.
  - rewrite length_app. lia.
Qed.

Lemma consumeFlag_loop_hits nm rest : forall i count consumed,
  consumeFlag_loop nm rest i count consumed
  = (count + length (hits nm rest i), foldl mark consumed (hits nm rest i)).
Proof.
  induction rest as [| arg rest IH]; intros i count consumed; simpl.
  - f_equal. lia.
  - destruct (String.eqb arg "--"); [simpl; f_equal; lia |].
    destruct (String.eqb arg _); rewrite IH; simpl; f_equal; lia.
Qed.

Lemma hits_bound nm rest : forall i j,
  j ∈ hits nm rest i -> i <= j < i + length rest.
Proof.
  induction rest as [| arg rest IH]; intros i j; simpl.
  - intros H. by apply not_elem_of_nil in H.
  - destruct (String.eqb arg "--"); [intros H; by apply not_elem_of_nil in H |].
    destruct (String.eqb arg _).
    + rewrite elem_of_cons. intros [-> | H]; [lia | apply IH in H; lia].
    + intros H. apply IH in H. lia.
Qed.

Lemma foldl_mark_preserves l : forall consumed j,
  marked consumed j -> marked (foldl mark consumed l) j.
Proof.
  induction l as [| i l IH]; intros consumed j Hj; simpl; [done |].
  apply IH. by apply mark_preserves.
Qed.

Lemma foldl_mark_marked l : forall consumed j,
  j ∈ l -> marked (foldl mark consumed l) j.
Proof.
  induction l as [| i l IH]; intros consumed j Hj; simpl.
  - by apply not_elem_of_nil in Hj.
  - apply elem_of_cons in Hj as [-> | Hj].
    + apply foldl_mark_preserves, mark_marked.
    + by apply IH.
Qed.

Lemma foldl_mark_id l : forall consumed,
  (forall j, j ∈ l -> marked consumed j) -> foldl mark consumed l = consumed.
Proof.
  induction l as [| i l IH]; intros consumed Hall; simpl; [done |].
  rewrite mark_id by (apply Hall; left).
  apply IH. intros j Hj. apply Hall. by right.
Qed.

Lemma foldl_mark_length l : forall consumed,
  length consumed <= length (foldl mark consumed l).
Proof.
  induction l as [| i l IH]; intros consumed; simpl; [lia |].
  etrans; [apply (mark_length consumed i) | apply IH].
Qed.

Lemma foldl_mark_lookup l : forall consumed j,
  (forall i, i ∈ l -> i < length consumed) ->
  foldl mark consumed l !! j
  = if bool_decide (j ∈ l) then Some true else consumed !! j.
Proof.
  induction l as [| i l IH]; intros consumed j Hall; cbn [foldl].
  - case_bool_decide as H; [| done]. by apply not_elem_of_nil in H.
  - assert (Hi : i < length consumed) by (apply Hall; left).
    rewrite IH.
    2:{ intros k Hk. rewrite mark_in_range, length_insert by done.
        apply Hall. by right. }
    rewrite mark_in_range by done.
    repeat case_bool_decide; try done.
    + exfalso. apply H0. by right.
    + apply elem_of_cons in H0 as [-> | H0]; [| done].
      by apply list_lookup_insert_eq.
    + rewrite list_lookup_insert_ne; [done |].
      intros ->. apply H0. left.
Qed.

Lemma foldl_mark_comm l1 l2 consumed :
  (forall i, i ∈ l1 -> i < length consumed) ->
  (forall i, i ∈ l2 -> i < length consumed) ->
  foldl mark (foldl mark consumed l1) l2 = foldl mark (foldl mark consumed l2) l1.
Proof.
  intros H1 H2. apply list_eq. intros j.
  rewrite !foldl_mark_lookup; try done.
  - repeat case_bool_decide; done.
  - intros i Hi. eapply Nat.lt_le_trans; [by apply H1 | apply foldl_mark_length].
  - intros i Hi. eapply Nat.lt_le_trans; [by apply H2 | apply foldl_mark_length].
Qed.

(** [consumeFlag] in terms of [hits]. *)
Lemma consumeFlag_hits nm p :
  consumeFlag nm p
  = let n := length (hits nm (_args p) 0) in
    let p' := mk (_args p) (foldl mark (_consumed p) (hits nm (_args p) 0)) in
    if 1 <? n then (Throw (UsageError consumeFlag_message), p') else (Ok (n =? 1), p').
Proof. unfold consumeFlag. rewrite consumeFlag_loop_hits. reflexivity. Qed.

Lemma consumeFlag_args nm p : _args (snd (consumeFlag nm p)) = _args p.
Proof. rewrite consumeFlag_hits. simpl. by destruct (1 <? _). Qed.

Lemma consumeFlag_consumed nm p :
  _consumed (snd (consumeFlag nm p)) = foldl mark (_consumed p) (hits nm (_args p) 0).
Proof. rewrite consumeFlag_hits. simpl. by destruct (1 <? _). Qed.

Lemma consumeFlag_result nm p :
  fst (consumeFlag nm p)
  = let n := length (hits nm (_args p) 0) in
    if 1 <? n then Throw (UsageError consumeFlag_message) else Ok (n =? 1).
Proof. rewrite consumeFlag_hits. simpl. by destruct (1 <? _). Qed.

Lemma consumeFlag_wf nm p : wf p -> wf (snd (consumeFlag nm p)).
Proof.
  unfold wf. rewrite consumeFlag_args, consumeFlag_consumed. intros H.
  etrans; [exact H | apply foldl_mark_length].
Qed.

(** The invariant of the loop of [consumeMultiOptions]: [i] is a valid
    index whenever a token is left, so [len = i] is never true at a match. *)
Lemma consumeMultiOptions_loop_ok names len n : forall rest i consumed result,
  length rest <= n -> len = i + length rest ->
  exists os, fst (consumeMultiOptions_loop names len rest i consumed result) = Ok os.
Proof.
  induction n as [| n IH]; intros rest i consumed result Hn Hlen.
  - destruct rest; [simpl; eauto | simpl in Hn; lia].
  - destruct rest as [| arg rest']; [simpl; eauto |].
    simpl in Hn, Hlen. cbn [consumeMultiOptions_loop].
    destruct (String.eqb arg "--"); [simpl; eauto |].
    destruct (String.eqb (substring 0 2 arg) "--"); [| apply IH; lia].
    destruct (indexOf names _ <? 0)%Z; [apply IH; lia |].
    destruct (Nat.eqb_spec len i); [lia |].
    destruct rest' as [| v rest'']; [simpl; eauto |].
    simpl in Hn, Hlen. apply IH; lia.
Qed.

Lemma consumeMultiOptions_never_throws names p :
  exists os, fst (consumeMultiOptions names p) = Ok os.
Proof.
  unfold consumeMultiOptions.
  destruct (consumeMultiOptions_loop_ok names (length (_args p)) (length (_args p))
              (_args p) 0 (_consumed p) []) as [os Hos]; [lia | lia |].
  destruct (consumeMultiOptions_loop _ _ _ _ _ _) as [r c]. simpl in *. eauto.
Qed.


End ArgParserFacts.

(** C4. The specification asks for a usage error when a matched option is
    the last token. The guard of the source, [this._args.length === i], is
    never true inside the loop, so no call of [consumeMultiOptions] throws:
    on [["--a"]] with names [["a"]] it returns the option with the value
    [undefined] and writes a mark one past the end of [_consumed]. *)
Theorem consumeMultiOptions_trailing_option :
  ArgParser.consumeMultiOptions ["a"] (ArgParser.new ["--a"])
  = (Ok [ArgParser.mkOption "a" undefined], ArgParser.mk ["--a"] [true; true])
  /\ (forall names p, exists os, fst (ArgParser.consumeMultiOptions names p) = Ok os).
Proof.
  split; [reflexivity |].
  apply ArgParserFacts.consumeMultiOptions_never_throws.
Qed.

(** C5, as stated, fails: with exactly one occurrence of the flag, the second
    [consumeFlag] on the same name returns [true] again, not [false]. *)
Lemma consumeFlag_twice_counterexample :
  let p := ArgParser.new ["--x"] in
  fst (ArgParser.consumeFlag "x" p) = Ok true
  /\ fst (ArgParser.consumeFlag "x" (snd (ArgParser.consumeFlag "x" p))) = Ok true
  /\ fst (ArgParser.consumeFlag "x" (snd (ArgParser.consumeFlag "x" p))) <> Ok false.
Proof. cbv zeta. split; [reflexivity | split; [reflexivity | discriminate]]. Qed.

(** C5, amended. [consumeFlag] scans every token before the separator,
    consumed or not: its result depends on the tokens only; a second call
    on the same name returns what the first returned (so [true] again when
    the flag occurs exactly once) and leaves the parser as the first call
    left it; the result for one name is the same before and after consuming
    another name, and the marks left by two names do not depend on the order
    of the two calls. *)
Theorem consumeFlag_rescans (nm nm' : string) (p : ArgParser.t) :
  ArgParser.wf p ->
  (forall consumed',
     fst (ArgParser.consumeFlag nm (ArgParser.mk (ArgParser._args p) consumed'))
     = fst (ArgParser.consumeFlag nm p))
  /\ ArgParser.consumeFlag nm (snd (ArgParser.consumeFlag nm p))
     = (fst (ArgParser.consumeFlag nm p), snd (ArgParser.consumeFlag nm p))
  /\ (fst (ArgParser.consumeFlag nm p) = Ok true ->
      fst (ArgParser.consumeFlag nm (snd (ArgParser.consumeFlag nm p))) = Ok true)
  /\ fst (ArgParser.consumeFlag nm' (snd (ArgParser.consumeFlag nm p)))
     = fst (ArgParser.consumeFlag nm' p)
  /\ snd (ArgParser.consumeFlag nm' (snd (ArgParser.consumeFlag nm p)))
     = snd (ArgParser.consumeFlag nm (snd (ArgParser.consumeFlag nm' p))).
Proof.
  intros Hwf.
  assert (Hsame : ArgParser.consumeFlag nm (snd (ArgParser.consumeFlag nm p))
                  = (fst (ArgParser.consumeFlag nm p), snd (ArgParser.consumeFlag nm p))).
  { rewrite (ArgParserFacts.consumeFlag_hits nm (snd _)).
    rewrite ArgParserFacts.consumeFlag_args, ArgParserFacts.consumeFlag_consumed.
    rewrite ArgParserFacts.foldl_mark_id
      by (intros j Hj; by apply ArgParserFacts.foldl_mark_marked).
    rewrite (ArgParserFacts.consumeFlag_hits nm p). cbn zeta.
    by destruct (1 <? _). }
  split; [| split; [| split; [| split]]].
  - intros consumed'. by rewrite !ArgParserFacts.consumeFlag_result.
  - exact Hsame.
  - intros H. by rewrite Hsame.
  - rewrite !ArgParserFacts.consumeFlag_result.
    by rewrite ArgParserFacts.consumeFlag_args.
  - rewrite (ArgParserFacts.consumeFlag_hits nm' (snd _)).
    rewrite (ArgParserFacts.consumeFlag_hits nm (snd _)).
    rewrite !ArgParserFacts.consumeFlag_args, !ArgParserFacts.consumeFlag_consumed.
    cbn zeta.
    assert (Hcomm :
      foldl ArgParser.mark
        (foldl ArgParser.mark (ArgParser._consumed p)
           (ArgParser.hits nm (ArgParser._args p) 0))
        (ArgParser.hits nm' (ArgParser._args p) 0)
      = foldl ArgParser.mark
          (foldl ArgParser.mark (ArgParser._consumed p)
             (ArgParser.hits nm' (ArgParser._args p) 0))
          (ArgParser.hits nm (ArgParser._args p) 0)).
    { apply ArgParserFacts.foldl_mark_comm; intros i Hi;
        apply ArgParserFacts.hits_bound in Hi; unfold ArgParser.wf in Hwf; lia. }
    rewrite Hcomm. by repeat destruct (1 <? _).
Qed.

Lemma consumeFlag_rescans_witness :
  ArgParser.wf (ArgParser.new ["--x"; "cmd"; "--y"])
  /\ fst (ArgParser.consumeFlag "x"
            (snd (ArgParser.consumeFlag "x" (ArgParser.new ["--x"; "cmd"; "--y"]))))
     = Ok true.
Proof.
  split.
  - unfold ArgParser.wf. simpl. lia.
  - refine (proj1 (proj2 (proj2
      (consumeFlag_rescans "x" "y" (ArgParser.new ["--x"; "cmd"; "--y"]) _))) _).
    + unfold ArgParser.wf. simpl. lia.
    + reflexivity.
Defined.



(** ** Effects of the building blocks *)

Section Effects.

Variable C : Collaborators.

Lemma tgrow_tgrow t co ev co' ev' :
  tgrow (tgrow t co ev) co' ev' = tgrow t (co ++ co') (ev ++ ev').
Proof. unfold tgrow. simpl. by rewrite !app_assoc. Qed.

Lemma tgrow_nil t : tgrow t [] [] = t.
Proof. destruct t. unfold tgrow. simpl. by rewrite !app_nil_r. Qed.

Lemma wgrow_wgrow w co ev co' ev' :
  wgrow (wgrow w co ev) co' ev' = wgrow w (co ++ co') (ev ++ ev').
Proof. unfold wgrow, set_terminal. simpl. by rewrite tgrow_tgrow. Qed.

Lemma wgrow_nil w : wgrow w [] [] = w.
Proof. destruct w. unfold wgrow, set_terminal. simpl. by rewrite tgrow_nil. Qed.

Section Quiet.

Variable ok : Event -> bool.

Lemma tquiet_ret {A} (a : A) : tquiet ok (ret a).
Proof. intros t. exists [], []. simpl. by rewrite tgrow_nil. Qed.

Lemma tquiet_throw {A} (e : Exn) : tquiet ok (@throw Terminal A e).
Proof. intros t. exists [], []. simpl. by rewrite tgrow_nil. Qed.

Lemma tquiet_bind {A B} (m : ST Terminal A) (k : A -> ST Terminal B) :
  tquiet ok m -> (forall a, tquiet ok (k a)) -> tquiet ok (bind m k).
Proof.
  intros Hm Hk t. destruct (Hm t) as (co & ev & Ht & Hev).
  unfold bind. destruct (m t) as [[a | e] t1]; simpl in Ht; subst t1.
  - destruct (Hk a (tgrow t co ev)) as (co' & ev' & Ht' & Hev').
    exists (co ++ co'), (ev ++ ev'). rewrite Ht', tgrow_tgrow.
    split; [done |]. rewrite forallb_app. by rewrite Hev, Hev'.
  - by exists co, ev.
Qed.

Lemma tquiet_emit (e : Event) : ok e = true -> tquiet ok (emit e).
Proof.
  intros He t. exists [], [e]. unfold emit, tgrow. simpl.
  rewrite app_nil_r, He. done.
Qed.

Lemma tquiet_console_log (line : string) : tquiet ok (console_log line).
Proof. intros t. exists [line], []. unfold console_log, tgrow. simpl. by rewrite app_nil_r. Qed.

Hypothesis ok_Raised : forall e, ok (Raised e) = true.

Lemma tquiet_raise {A} (e : Exn) : tquiet ok (@raise A e).
Proof.
  unfold raise. apply tquiet_bind; [by apply tquiet_emit | intros _; apply tquiet_throw].
Qed.

Lemma tquiet_call {A} (r : Result A) : tquiet ok (call r).
Proof. destruct r; [apply tquiet_ret | apply tquiet_raise]. Qed.

Lemma tquiet_console_log_all lines : tquiet ok (console_log_all lines).
Proof.
  induction lines as [| l lines IH]; simpl; [apply tquiet_ret |].
  apply tquiet_bind; [apply tquiet_console_log | intros _; apply IH].
Qed.

Lemma tquiet_dump header info : tquiet ok (dump header info).
Proof.
  unfold dump. apply tquiet_bind; [apply tquiet_console_log | intros _].
  generalize (foldl (fun m entry => Nat.max m (String.length (fst entry))) 0 info).
  intros maxLength. induction info as [| [key v] info IH]; simpl; [apply tquiet_ret |].
  apply tquiet_bind; [| intros _; apply IH].
  destruct v; [apply tquiet_console_log |].
  apply tquiet_bind; [apply tquiet_console_log | intros _; apply tquiet_console_log_all].
Qed.

Lemma tquiet_message_info msg : tquiet ok (message_info C msg).
Proof.
  destruct msg as [s | m]; simpl.
  - repeat (apply tquiet_bind; [apply tquiet_call | intros ?]). apply tquiet_ret.
  - apply tquiet_bind; [apply tquiet_call | intros bytes].
    apply tquiet_bind.
    + destruct (printable bytes); [| apply tquiet_ret].
      apply tquiet_bind; [apply tquiet_call | intros ?; apply tquiet_ret].
    + intros ?. apply tquiet_bind; [apply tquiet_call | intros ?; apply tquiet_ret].
Qed.

Lemma tquiet_transaction_info tx net : tquiet ok (transaction_info C tx net).
Proof.
  unfold transaction_info.
  apply tquiet_bind; [apply tquiet_call | intros ?; apply tquiet_ret].
Qed.

Lemma tquiet_wrapper_getNetwork this : tquiet ok (wrapper_getNetwork this).
Proof.
  unfold wrapper_getNetwork. destruct (ws_provider this);
    [apply tquiet_call | apply tquiet_raise].
Qed.

Lemma quiet_ret {A} (a : A) : quiet ok (@ret World A a).
Proof. intros w. exists [], []. simpl. by rewrite wgrow_nil. Qed.

Lemma quiet_bind {A B} (m : ST World A) (k : A -> ST World B) :
  quiet ok m -> (forall a, quiet ok (k a)) -> quiet ok (bind m k).
Proof.
  intros Hm Hk w. destruct (Hm w) as (co & ev & Hw & Hev).
  unfold bind. destruct (m w) as [[a | e] w1]; simpl in Hw; subst w1.
  - destruct (Hk a (wgrow w co ev)) as (co' & ev' & Hw' & Hev').
    exists (co ++ co'), (ev ++ ev'). rewrite Hw', wgrow_wgrow.
    split; [done |]. rewrite forallb_app. by rewrite Hev, Hev'.
  - by exists co, ev.
Qed.

Lemma quiet_onTerminal {A} (m : ST Terminal A) : tquiet ok m -> quiet ok (onTerminal m).
Proof.
  intros Hm w. destruct (Hm (terminal w)) as (co & ev & Ht & Hev).
  exists co, ev. unfold onTerminal. destruct (m (terminal w)) as [r t].
  simpl in *. by subst t.
Qed.

End Quiet.

End Effects.

Lemma forallb_weaken {A} (p q : A -> bool) (l : list A) :
  (forall x, p x = true -> q x = true) -> forallb p l = true -> forallb q l = true.
Proof.
  intros Hpq. induction l as [| x l IH]; simpl; [done |].
  intros [Hx Hl]%andb_prop. by rewrite (Hpq x Hx), IH.
Qed.

Lemma materializations_app id ev ev' :
  materializations id (ev ++ ev') = materializations id ev + materializations id ev'.
Proof.
  induction ev as [| e ev IH]; simpl; [done |].
  destruct e; rewrite IH; lia.
Qed.

Lemma materializations_none id ev :
  forallb not_Materialize ev = true -> materializations id ev = 0.
Proof.
  induction ev as [| e ev IH]; simpl; [done |].
  intros [He Hev]%andb_prop. destruct e; try discriminate; by apply IH.
Qed.

Section SignerEffects.

Variable C : Collaborators.

Lemma not_signing_Raised e : not_signing (Raised e) = true.
Proof. reflexivity. Qed.

Lemma not_Materialize_Raised e : not_Materialize (Raised e) = true.
Proof. reflexivity. Qed.

Lemma quiet_signMessage_summary msg : quiet not_signing (signMessage_summary C msg).
Proof.
  unfold signMessage_summary. apply quiet_bind.
  - apply quiet_onTerminal, tquiet_message_info, not_signing_Raised.
  - intros info. apply quiet_onTerminal, tquiet_dump.
Qed.

Lemma quiet_signTransaction_summary this tx :
  quiet not_signing (signTransaction_summary C this tx).
Proof.
  unfold signTransaction_summary.
  apply quiet_bind;
    [apply quiet_onTerminal, tquiet_wrapper_getNetwork, not_signing_Raised | intros net].
  apply quiet_bind; [apply quiet_onTerminal, tquiet_call, not_signing_Raised | intros tx'].
  apply quiet_bind;
    [apply quiet_onTerminal, tquiet_transaction_info, not_signing_Raised | intros info].
  apply quiet_onTerminal, tquiet_dump.
Qed.

Lemma quiet_sendTransaction_summary this signer tx :
  quiet not_signing (sendTransaction_summary C this signer tx).
Proof.
  unfold sendTransaction_summary.
  apply quiet_bind;
    [apply quiet_onTerminal, tquiet_wrapper_getNetwork, not_signing_Raised | intros net].
  apply quiet_bind.
  { apply quiet_onTerminal, tquiet_bind; [by apply tquiet_emit | intros _].
    apply tquiet_call, not_signing_Raised. }
  intros tx0.
  apply quiet_bind; [apply quiet_onTerminal, tquiet_call, not_signing_Raised | intros tx'].
  apply quiet_bind;
    [apply quiet_onTerminal, tquiet_transaction_info, not_signing_Raised | intros info].
  apply quiet_bind; [apply quiet_onTerminal, tquiet_dump | intros _; apply quiet_ret].
Qed.

Lemma quiet_signMessage_finish this signer msg :
  quiet not_Materialize (signMessage_finish C this signer msg).
Proof.
  unfold signMessage_finish.
  apply quiet_bind.
  { apply quiet_onTerminal, tquiet_bind; [by apply tquiet_emit | intros _].
    apply tquiet_call, not_Materialize_Raised. }
  intros result.
  apply quiet_bind; [apply quiet_onTerminal, tquiet_call, not_Materialize_Raised | intros sg].
  apply quiet_bind; [apply quiet_onTerminal, tquiet_dump | intros _; apply quiet_ret].
Qed.

Lemma quiet_signTransaction_finish this signer tx :
  quiet not_Materialize (signTransaction_finish C this signer tx).
Proof.
  unfold signTransaction_finish.
  apply quiet_bind.
  { apply quiet_onTerminal, tquiet_bind; [by apply tquiet_emit | intros _].
    apply tquiet_call, not_Materialize_Raised. }
  intros result.
  apply quiet_bind; [apply quiet_onTerminal, tquiet_call, not_Materialize_Raised | intros sg].
  apply quiet_bind; [apply quiet_onTerminal, tquiet_dump | intros _; apply quiet_ret].
Qed.

Lemma quiet_sendTransaction_finish this signer tx :
  quiet not_Materialize (sendTransaction_finish this signer tx).
Proof.
  unfold sendTransaction_finish.
  apply quiet_bind.
  { apply quiet_onTerminal, tquiet_bind; [by apply tquiet_emit | intros _].
    apply tquiet_call, not_Materialize_Raised. }
  intros response.
  apply quiet_bind; [apply quiet_onTerminal, tquiet_dump | intros _; apply quiet_ret].
Qed.

(** A factory only asks for passwords and raises errors. *)
Lemma run_factory_effect f : forall t,
  exists pp ev,
    snd (run_factory C f t)
    = mkTerminal (choicePrompts t) (passwordPrompts t ++ pp) (console t) (events t ++ ev)
    /\ forallb is_Raised ev = true.
Proof.
  induction f as [r | message k IH]; intros t.
  - destruct t as [cp pp co ev]. destruct r as [s | e]; simpl.
    + exists [], []. by rewrite !app_nil_r.
    + exists [], [Raised e]. by rewrite !app_nil_r.
  - cbn [run_factory]. unfold getPassword.
    destruct (password_answer C (length (passwordPrompts t))) as [password | e]; simpl.
    + destruct (IH password
                  (mkTerminal (choicePrompts t) (passwordPrompts t ++ [message])
                     (console t) (events t))) as (pp & ev & Ht & Hev).
      exists (message :: pp), ev. rewrite Ht. simpl. split; [| done].
      by rewrite <- app_assoc.
    + exists [message], [Raised e]. done.
Qed.

(** *** getSigner *)

Lemma getSigner_cached this w s :
  signers w !! ws_id this = Some s -> getSigner C this w = (Ok s, w).
Proof.
  intros Hs. unfold getSigner, getSigner_begin, signers_get. rewrite Hs. reflexivity.
Qed.

Lemma getSigner_fresh this w :
  signers w !! ws_id this = None ->
  exists pp ev,
    snd (getSigner C this w)
    = mkWorld
        (mkTerminal (choicePrompts (terminal w)) (passwordPrompts (terminal w) ++ pp)
           (console (terminal w)) (events (terminal w) ++ ev))
        (signerFuncs w)
        (match fst (getSigner C this w) with
         | Ok s => <[ws_id this := s]> (signers w)
         | Throw _ => signers w
         end)
        (alwaysAllow w) (plugins w) (nextObject w)
    /\ ((exists f ev',
           signerFuncs w !! ws_id this = Some f
           /\ ev = Materialize (ws_id this) :: ev'
           /\ forallb is_Raised ev' = true
           /\ fst (getSigner C this w)
              = fst (run_factory C (f (get_plugin (ws_plugin this) w))
                       (tgrow (terminal w) [] [Materialize (ws_id this)])))
        \/ (signerFuncs w !! ws_id this = None
            /\ forallb is_Raised ev = true
            /\ exists e, fst (getSigner C this w) = Throw e)).
Proof.
  intros Hs. unfold getSigner, getSigner_begin. rewrite Hs.
  destruct (signerFuncs w !! ws_id this) as [f |] eqn:Hf.
  - unfold onTerminal, bind. cbn [emit].
    set (t1 := mkTerminal _ _ _ _).
    destruct (run_factory_effect (f (get_plugin (ws_plugin this) w)) t1)
      as (pp & ev & Ht & Hev).
    assert (Ht1 : t1 = tgrow (terminal w) [] [Materialize (ws_id this)]).
    { unfold t1, tgrow. by rewrite app_nil_r. }
    destruct (run_factory C _ t1) as [[s | e] t2] eqn:Hrun; simpl in Ht; subst t2.
    + exists pp, (Materialize (ws_id this) :: ev). split.
      * unfold getSigner_resume, signers_get, set_signers, set_terminal. simpl.
        rewrite lookup_insert_eq. simpl. rewrite <- app_assoc. reflexivity.
      * left. exists f, ev. repeat split; try done.
        unfold getSigner_resume, signers_get, set_signers, set_terminal. simpl.
        rewrite lookup_insert_eq. simpl. by rewrite <- Ht1, Hrun.
    + exists pp, (Materialize (ws_id this) :: ev). split.
      * unfold getSigner_resume, set_terminal. simpl. rewrite <- app_assoc. reflexivity.
      * left. exists f, ev. repeat split; try done.
        unfold getSigner_resume. simpl. by rewrite <- Ht1, Hrun.
  - exists [], [Raised (Error "signerFunc is not a function")]. split.
    + unfold onTerminal, raise, bind, emit, throw, getSigner_resume, set_terminal. simpl.
      by rewrite app_nil_r.
    + right. repeat split; try done. eexists. reflexivity.
Qed.

(** *** isAllowed *)

Lemma isAllowed_yes this msg w :
  plugin_yes this w = true ->
  isAllowed C this msg w = (Ok true, wgrow w [note_yes msg] []).
Proof.
  intros Hy. unfold isAllowed. rewrite Hy.
  unfold bind, onTerminal, console_log, ret, wgrow, tgrow, note_yes. simpl.
  by rewrite app_nil_r.
Qed.

Lemma isAllowed_remembered this msg w :
  plugin_yes this w = false ->
  object_get (default ∅ (alwaysAllow w !! ws_id this)) msg = true ->
  isAllowed C this msg w = (Ok true, wgrow w [note_all msg] []).
Proof.
  intros Hy Ha. unfold isAllowed. rewrite Hy, Ha.
  unfold bind, onTerminal, console_log, ret, wgrow, tgrow, note_all. simpl.
  by rewrite app_nil_r.
Qed.

Lemma isAllowed_prompt this msg w :
  plugin_yes this w = false ->
  object_get (default ∅ (alwaysAllow w !! ws_id this)) msg = false ->
  isAllowed C this msg w
  = match choice_answer C (length (choicePrompts (terminal w))) with
    | Ok allow =>
        if String.eqb allow "a" then
          (Ok true,
           set_alwaysAllow
             (<[ws_id this := object_set_true (default ∅ (alwaysAllow w !! ws_id this)) msg]>
                (alwaysAllow w))
             (prompted w msg))
        else if String.eqb allow "n" then
          (Throw (Error "Cancelled."),
           wgrow (prompted w msg) []
             [Raised (Error "Cancelled."); Raised (Error "Cancelled.")])
        else (Ok true, prompted w msg)
    | Throw e =>
        (Throw (Error "Cancelled."),
         wgrow (prompted w msg) [] [Raised e; Raised (Error "Cancelled.")])
    end.
Proof.
  intros Hy Ha. unfold isAllowed. rewrite Hy, Ha.
  unfold try_catch, bind, onTerminal, getChoice.
  destruct w as [[cp pp co ev] sf sg aa pl no]. simpl.
  destruct (choice_answer C (length cp)) as [allow | e]; simpl.
  - destruct (String.eqb allow "a"); [reflexivity |].
    destruct (String.eqb allow "n"); simpl.
    + unfold wgrow, prompted, set_terminal, tgrow. simpl.
      by rewrite app_nil_r, <- app_assoc.
    + reflexivity.
  - unfold wgrow, prompted, set_terminal, tgrow. simpl.
    by rewrite app_nil_r, <- app_assoc.
Qed.

(** What [isAllowed] may change: it prints, prompts at most once with
    [msg], raises, and updates the consent memory. *)
Lemma isAllowed_effect this msg w :
  exists cp co ev aa,
    snd (isAllowed C this msg w)
    = mkWorld
        (mkTerminal (choicePrompts (terminal w) ++ cp) (passwordPrompts (terminal w))
           (console (terminal w) ++ co) (events (terminal w) ++ ev))
        (signerFuncs w) (signers w) aa (plugins w) (nextObject w)
    /\ forallb is_Raised ev = true
    /\ (cp = [] \/ cp = [msg]).
Proof.
  destruct (plugin_yes this w) eqn:Hy.
  - rewrite isAllowed_yes by done. exists [], [note_yes msg], [], (alwaysAllow w).
    unfold wgrow, tgrow, set_terminal. simpl. rewrite !app_nil_r. auto.
  - destruct (object_get (default ∅ (alwaysAllow w !! ws_id this)) msg) eqn:Ha.
    + rewrite isAllowed_remembered by done. exists [], [note_all msg], [], (alwaysAllow w).
      unfold wgrow, tgrow, set_terminal. simpl. rewrite !app_nil_r. auto.
    + rewrite isAllowed_prompt by done.
      destruct (choice_answer C _) as [allow | e].
      * destruct (String.eqb allow "a").
        { eexists [msg], [], [], _.
          unfold set_alwaysAllow, prompted, set_terminal. simpl.
          rewrite !app_nil_r. auto. }
        destruct (String.eqb allow "n").
        { exists [msg], [], [Raised (Error "Cancelled."); Raised (Error "Cancelled.")],
            (alwaysAllow w).
          unfold wgrow, tgrow, prompted, set_terminal. simpl.
          rewrite !app_nil_r. auto. }
        exists [msg], [], [], (alwaysAllow w).
        unfold prompted, set_terminal. simpl. rewrite !app_nil_r. auto.
      * exists [msg], [], [Raised e; Raised (Error "Cancelled.")], (alwaysAllow w).
        unfold wgrow, tgrow, prompted, set_terminal. simpl.
        rewrite !app_nil_r. auto.
Qed.

(** *** Inert computations *)

Lemma inert_ret {A} (a : A) : inert (@ret World A a).
Proof. intros w. simpl. repeat split. exists []. by rewrite app_nil_r. Qed.

Lemma inert_bind {A B} (m : ST World A) (k : A -> ST World B) :
  inert m -> (forall a, inert (k a)) -> inert (bind m k).
Proof.
  intros Hm Hk w. destruct (Hm w) as (Hs & Hf & ev & He & Hev).
  unfold bind. destruct (m w) as [[a | e] w1]; simpl in *.
  - destruct (Hk a w1) as (Hs' & Hf' & ev' & He' & Hev').
    rewrite Hs', Hf', He', Hs, Hf, He. repeat split.
    exists (ev ++ ev'). rewrite app_assoc, forallb_app, Hev, Hev'. done.
  - repeat split; try done. by exists ev.
Qed.

Lemma quiet_inert ok {A} (m : ST World A) :
  (forall e, ok e = true -> not_Materialize e = true) -> quiet ok m -> inert m.
Proof.
  intros Hok Hm w. destruct (Hm w) as (co & ev & Hw & Hev). rewrite Hw.
  unfold wgrow, set_terminal, tgrow. simpl. repeat split.
  exists ev. split; [done |]. by eapply forallb_weaken.
Qed.

Lemma inert_isAllowed this msg : inert (isAllowed C this msg).
Proof.
  intros w. destruct (isAllowed_effect this msg w) as (cp & co & ev & aa & Hw & Hev & _).
  rewrite Hw. simpl. repeat split. exists ev. split; [done |].
  eapply forallb_weaken; [| exact Hev]. by intros [].
Qed.

End SignerEffects.

(** ** Consent *)

Lemma consent_message_own g o :
  object_get o (consent_message g) = true <-> o !! consent_message g = Some true.
Proof.
  unfold object_get. destruct (o !! consent_message g) as [b |] eqn:Ho.
  - split; [by intros -> | by intros [= ->]].
  - split; [| done]. by destruct g.
Qed.

Lemma consent_message_set g o :
  object_set_true o (consent_message g) = <[consent_message g := true]> o.
Proof. by destruct g. Qed.

Lemma always_allowed_object_get this g w :
  object_get (default ∅ (alwaysAllow w !! ws_id this)) (consent_message g) = true
  <-> always_allowed this (consent_message g) w.
Proof.
  rewrite consent_message_own. unfold always_allowed.
  destruct (alwaysAllow w !! ws_id this) as [o |]; simpl.
  - split; [intros H; by exists o | by intros (o' & [= <-] & H)].
  - rewrite lookup_empty. split; [done | by intros (o' & [=] & _)].
Qed.

(** C7. A consent request of a gated operation: with the plugin's [yes] set,
    consent is granted with the note [(--yes => "y")] and nothing is asked;
    otherwise, if this message was answered "always" on this wrapper before,
    consent is granted with the note [(previous (a)ll => "y")] and nothing
    is asked; otherwise the prompt is shown, and if the answer is [a] consent
    is granted, the message is recorded in the wrapper's entry of
    [alwaysAllow], and the same request made again is granted without a
    prompt. *)
Theorem isAllowed_consent (C : Collaborators) (this : WrappedSigner) (g : Gated) (w : World) :
  let msg := consent_message g in
  let r := fst (isAllowed C this msg w) in
  let w' := snd (isAllowed C this msg w) in
  (plugin_yes this w = true ->
     r = Ok true
     /\ choicePrompts (terminal w') = choicePrompts (terminal w)
     /\ console (terminal w') = console (terminal w) ++ [note_yes msg])
  /\ (plugin_yes this w = false -> always_allowed this msg w ->
        r = Ok true
        /\ choicePrompts (terminal w') = choicePrompts (terminal w)
        /\ console (terminal w') = console (terminal w) ++ [note_all msg])
  /\ (plugin_yes this w = false -> ~ always_allowed this msg w ->
        choicePrompts (terminal w') = choicePrompts (terminal w) ++ [msg]
        /\ (choice_answer C (length (choicePrompts (terminal w))) = Ok "a" ->
              r = Ok true
              /\ always_allowed this msg w'
              /\ fst (isAllowed C this msg w') = Ok true
              /\ choicePrompts (terminal (snd (isAllowed C this msg w')))
                 = choicePrompts (terminal w')
              /\ console (terminal (snd (isAllowed C this msg w')))
                 = console (terminal w') ++ [note_all msg])).
Proof.
  cbv zeta. split; [| split].
  - intros Hy. by rewrite isAllowed_yes.
  - intros Hy Ha. apply always_allowed_object_get in Ha.
    by rewrite isAllowed_remembered.
  - intros Hy Hna.
    assert (Ha : object_get (default ∅ (alwaysAllow w !! ws_id this)) (consent_message g)
                 = false).
    { destruct (object_get _ _) eqn:E; [| done].
      exfalso. by apply Hna, always_allowed_object_get. }
    rewrite isAllowed_prompt by done. split.
    + destruct (choice_answer C _) as [allow | e]; [| done].
      destruct (String.eqb allow "a"); [done |]. by destruct (String.eqb allow "n").
    + intros ->. change (String.eqb "a" "a") with true. cbv iota.
      set (w1 := set_alwaysAllow _ _). cbn [fst snd].
      assert (Hy1 : plugin_yes this w1 = false) by exact Hy.
      assert (Ha1 : always_allowed this (consent_message g) w1).
      { eexists. split; [apply lookup_insert_eq |].
        rewrite consent_message_set. apply lookup_insert_eq. }
      split; [done |]. split; [done |].
      apply always_allowed_object_get in Ha1.
      by rewrite isAllowed_remembered.
Qed.

Lemma isAllowed_consent_witness :
  let w := wallet_world user_always in
  plugin_yes wallet_wrapper w = false
  /\ ~ always_allowed wallet_wrapper "Sign Message?" w
  /\ choice_answer user_always (length (choicePrompts (terminal w))) = Ok "a"
  /\ fst (isAllowed user_always wallet_wrapper "Sign Message?"
            (snd (isAllowed user_always wallet_wrapper "Sign Message?" w))) = Ok true.
Proof.
  cbv zeta.
  assert (Hy : plugin_yes wallet_wrapper (wallet_world user_always) = false)
    by reflexivity.
  assert (Hna : ~ always_allowed wallet_wrapper "Sign Message?" (wallet_world user_always)).
  { intros (o & Ho & _). simpl in Ho. by rewrite lookup_empty in Ho. }
  split; [exact Hy |]. split; [exact Hna |]. split; [reflexivity |].
  exact (proj1 (proj2 (proj2 (proj2 (proj2 (proj2
           (isAllowed_consent user_always wallet_wrapper
              (SignMessage (MessageString "hi")) (wallet_world user_always)))
           Hy Hna) eq_refl)))).
Defined.

(** ** The gated operations follow the protocol *)

Lemma bind_ret_protocol (C : Collaborators) {X A B : Type} (this : WrappedSigner)
    (msg : string) (pre : Signer -> ST World X) (act : Signer -> X -> ST World A)
    (f : A -> B) (w : World) :
  bind (protocol C this msg pre act) (fun a => ret (f a)) w
  = protocol C this msg pre (fun s x => bind (act s x) (fun a => ret (f a))) w.
Proof.
  unfold protocol, bind.
  destruct (getSigner C this w) as [[s | e] w1]; [| reflexivity].
  destruct (pre s w1) as [[x | e] w2]; [| reflexivity].
  destruct (isAllowed C this msg w2) as [[b | e] w3]; reflexivity.
Qed.

Lemma perform_protocol (C : Collaborators) (this : WrappedSigner) (g : Gated) :
  exists (X : Type) (pre : Signer -> ST World X) (act : Signer -> X -> ST World Output),
    (forall s, quiet not_signing (pre s))
    /\ (forall s x, quiet not_Materialize (act s x))
    /\ forall w, perform C this g w = protocol C this (consent_message g) pre act w.
Proof.
  destruct g as [msg | tx | tx].
  - exists unit, (fun _ => signMessage_summary C msg),
      (fun s _ => bind (signMessage_finish C this s msg) (fun r => ret (Signed r))).
    split; [intros; apply quiet_signMessage_summary |]. split.
    + intros s x. apply quiet_bind; [apply quiet_signMessage_finish | intros; apply quiet_ret].
    + intros w. apply (bind_ret_protocol C this "Sign Message?").
  - exists unit, (fun _ => signTransaction_summary C this tx),
      (fun s _ => bind (signTransaction_finish C this s tx) (fun r => ret (Signed r))).
    split; [intros; apply quiet_signTransaction_summary |]. split.
    + intros s x.
      apply quiet_bind; [apply quiet_signTransaction_finish | intros; apply quiet_ret].
    + intros w. apply (bind_ret_protocol C this "Sign Transaction?").
  - exists TransactionRequest, (fun s => sendTransaction_summary C this s tx),
      (fun s x => bind (sendTransaction_finish this s x) (fun r => ret (Sent r))).
    split; [intros; apply quiet_sendTransaction_summary |]. split.
    + intros s x.
      apply quiet_bind; [apply quiet_sendTransaction_finish | intros; apply quiet_ret].
    + intros w. apply (bind_ret_protocol C this "Send Transaction?").
Qed.

Lemma app_singleton_neq {A} (l : list A) (x : A) : l <> l ++ [x].
Proof.
  intros H. apply (f_equal length) in H. rewrite length_app in H. simpl in H. lia.
Qed.

Section Protocol.

Variable C : Collaborators.
Context {X A : Type}.
Variable this : WrappedSigner.
Variable msg : string.
Variable pre : Signer -> ST World X.
Variable act : Signer -> X -> ST World A.
Hypothesis pre_quiet : forall s, quiet not_signing (pre s).
Hypothesis act_quiet : forall s x, quiet not_Materialize (act s x).

Lemma gate_declined s w :
  choicePrompts (terminal (snd (gate C this msg pre act s w))) = choicePrompts (terminal w) ++ [msg] ->
  choice_answer C (length (choicePrompts (terminal w))) = Ok "n" ->
  fst (gate C this msg pre act s w) = Throw (Error "Cancelled.")
  /\ signers (snd (gate C this msg pre act s w)) = signers w
  /\ exists ev, events (terminal (snd (gate C this msg pre act s w))) = events (terminal w) ++ ev
                /\ forallb not_signing ev = true.
Proof.
  unfold gate, bind.
  destruct (pre_quiet s w) as (co & ev & Hw & Hev).
  destruct (pre s w) as [[x | e] w1]; simpl in Hw; subst w1; cbn [fst snd].
  2:{ intros H. by apply app_singleton_neq in H. }
  set (w1 := wgrow w co ev).
  destruct (plugin_yes this w1) eqn:Hy.
  { rewrite isAllowed_yes by done.
    destruct (act_quiet s x (wgrow w1 [note_yes msg] [])) as (co' & ev' & Hw' & _).
    destruct (act s x _) as [r w2]. simpl in Hw'. subst w2. simpl.
    intros H. by apply app_singleton_neq in H. }
  destruct (object_get (default ∅ (alwaysAllow w1 !! ws_id this)) msg) eqn:Ha.
  { rewrite isAllowed_remembered by done.
    destruct (act_quiet s x (wgrow w1 [note_all msg] [])) as (co' & ev' & Hw' & _).
    destruct (act s x _) as [r w2]. simpl in Hw'. subst w2. simpl.
    intros H. by apply app_singleton_neq in H. }
  rewrite isAllowed_prompt by done.
  change (choicePrompts (terminal w1)) with (choicePrompts (terminal w)).
  intros _ ->. change (String.eqb "n" "a") with false.
  change (String.eqb "n" "n") with true. cbv iota. cbn [fst snd].
  split; [done |]. split; [done |].
  exists (ev ++ [Raised (Error "Cancelled."); Raised (Error "Cancelled.")]).
  split.
  - unfold w1, wgrow, tgrow, prompted, set_terminal. simpl. by rewrite <- app_assoc.
  - rewrite forallb_app, Hev. done.
Qed.

(** Declining: the operation is cancelled and nothing was signed or sent,
    but the signer was materialized before the question was asked. *)
Lemma protocol_declined w :
  let r := fst (protocol C this msg pre act w) in
  let w' := snd (protocol C this msg pre act w) in
  choicePrompts (terminal w') = choicePrompts (terminal w) ++ [msg] ->
  choice_answer C (length (choicePrompts (terminal w))) = Ok "n" ->
  r = Throw (Error "Cancelled.")
  /\ is_Some (signers w' !! ws_id this)
  /\ exists ev, events (terminal w') = events (terminal w) ++ ev
                /\ forallb (fun e => negb (is_signing e)) ev = true
                /\ (signers w !! ws_id this = None ->
                    materializations (ws_id this) ev = 1).
Proof.
  cbv zeta.
  assert (Hsame : forall w0, protocol C this msg pre act w0
                  = bind (getSigner C this) (gate C this msg pre act) w0) by reflexivity.
  rewrite Hsame. unfold bind.
  destruct (signers w !! ws_id this) as [s |] eqn:Hs.
  - rewrite (getSigner_cached C this w s Hs). intros Hcp Hn.
    destruct (gate_declined s w Hcp Hn) as (Hr & Hsg & ev & Hev & Hok).
    split; [done |]. split; [rewrite Hsg, Hs; by eexists |].
    exists ev. split; [done |]. split; [| done].
    eapply forallb_weaken; [| exact Hok]. intros e He.
    by apply andb_prop in He as [-> _].
  - destruct (getSigner_fresh C this w Hs) as (pp & ev & Hw & Hcase).
    destruct (getSigner C this w) as [[s | e] w1]; simpl in Hw, Hcase; subst w1;
      cbn [fst snd].
    2:{ simpl. intros H. by apply app_singleton_neq in H. }
    set (w1 := mkWorld _ _ _ _ _ _). intros Hcp Hn.
    destruct (gate_declined s w1 Hcp Hn) as (Hr & Hsg & ev1 & Hev1 & Hok1).
    split; [done |]. split.
    { rewrite Hsg. unfold w1. simpl. rewrite lookup_insert_eq. by eexists. }
    destruct Hcase as [(f & ev' & Hf & -> & Hraised & _) | (_ & _ & e & [=])].
    exists ((Materialize (ws_id this) :: ev') ++ ev1). split.
    { rewrite Hev1. unfold w1. simpl. by rewrite <- !app_assoc. }
    split.
    + rewrite forallb_app. apply andb_true_intro. split.
      * simpl. eapply forallb_weaken; [| exact Hraised]. by intros [].
      * eapply forallb_weaken; [| exact Hok1]. intros e He.
        by apply andb_prop in He as [-> _].
    + intros _. rewrite materializations_app. simpl. rewrite Nat.eqb_refl.
      rewrite (materializations_none _ ev').
      2:{ eapply forallb_weaken; [| exact Hraised]. by intros []. }
      rewrite (materializations_none _ ev1); [done |].
      eapply forallb_weaken; [| exact Hok1]. intros e He.
      apply andb_prop in He as [_ He]. exact He.
Qed.

End Protocol.

(** C1, as stated, fails: the user answers "no" to [Sign Message?], yet the
    factory of the wallet was invoked and the password prompt was shown
    before the question was asked. *)
Lemma declined_consent_counterexample :
  let w := wallet_world user_no in
  let r := fst (signMessage user_no wallet_wrapper (MessageString "hi") w) in
  let w' := snd (signMessage user_no wallet_wrapper (MessageString "hi") w) in
  choice_answer user_no 0 = Ok "n"
  /\ r = Throw (Error "Cancelled.")
  /\ choicePrompts (terminal w') = ["Sign Message?"]
  /\ passwordPrompts (terminal w') = ["Password (wallet.json): "]
  /\ materializations 0 (events (terminal w')) = 1
  /\ signers w !! 0 = None
  /\ signers w' !! 0 = Some (sample_signer "0xwallet").
Proof. cbv zeta. repeat split; vm_compute; reflexivity. Qed.

(** C1, amended. In each gated operation (sign-message, sign-transaction,
    send-transaction), when the consent prompt is shown and the answer is
    "no", the operation fails with [Cancelled.] and no signing or sending
    method of the real signer is called during it. The real signer is
    however materialized by then: [getSigner] runs first, so an identity not
    yet materialized has had its factory invoked (once) before the question
    is asked. *)
Theorem declined_consent_cancels (C : Collaborators) (this : WrappedSigner) (g : Gated)
    (w : World) :
  let r := fst (perform C this g w) in
  let w' := snd (perform C this g w) in
  choicePrompts (terminal w') = choicePrompts (terminal w) ++ [consent_message g] ->
  choice_answer C (length (choicePrompts (terminal w))) = Ok "n" ->
  r = Throw (Error "Cancelled.")
  /\ is_Some (signers w' !! ws_id this)
  /\ exists ev, events (terminal w') = events (terminal w) ++ ev
                /\ forallb (fun e => negb (is_signing e)) ev = true
                /\ (signers w !! ws_id this = None ->
                    materializations (ws_id this) ev = 1).
Proof.
  destruct (perform_protocol C this g) as (X & pre & act & Hpre & Hact & Heq).
  cbv zeta. rewrite Heq. by apply protocol_declined.
Qed.

Lemma declined_consent_cancels_witness :
  let w := wallet_world user_no in
  let g := SignMessage (MessageBytes [104; 105]%Z) in
  choicePrompts (terminal (snd (perform user_no wallet_wrapper g w)))
  = choicePrompts (terminal w) ++ [consent_message g]
  /\ choice_answer user_no (length (choicePrompts (terminal w))) = Ok "n"
  /\ fst (perform user_no wallet_wrapper g w) = Throw (Error "Cancelled.").
Proof.
  cbv zeta. split; [vm_compute; reflexivity |]. split; [reflexivity |].
  refine (proj1 (declined_consent_cancels user_no wallet_wrapper
                   (SignMessage (MessageBytes [104; 105]%Z))
                   (wallet_world user_no) _ _)).
  - vm_compute. reflexivity.
  - reflexivity.
Defined.

(** ** Memoization of the signer *)

Section Memo.

Variable C : Collaborators.
Variable this : WrappedSigner.

Lemma gate_inert {X A} msg (pre : Signer -> ST World X) (act : Signer -> X -> ST World A) s :
  (forall s, quiet not_signing (pre s)) ->
  (forall s x, quiet not_Materialize (act s x)) ->
  inert (gate C this msg pre act s).
Proof.
  intros Hpre Hact. unfold gate. apply inert_bind.
  - eapply quiet_inert; [| apply Hpre]. intros e He.
    apply andb_prop in He as [_ He]. exact He.
  - intros x. apply inert_bind; [apply inert_isAllowed | intros _].
    eapply quiet_inert; [| apply Hact]. done.
Qed.

(** Every operation is [getSigner] followed by something inert. *)
Lemma operate_getSigner op :
  exists k : Signer -> ST World Output,
    (forall s, inert (k s)) /\ forall w, operate C this op w = bind (getSigner C this) k w.
Proof.
  destruct op as [g |].
  - destruct (perform_protocol C this g) as (X & pre & act & Hpre & Hact & Heq).
    exists (gate C this (consent_message g) pre act). split.
    + intros s. by apply gate_inert.
    + intros w. simpl. rewrite Heq. reflexivity.
  - exists (fun _ => ret Unlocked). split; [intros; apply inert_ret |].
    intros w. simpl. unfold unlock, bind.
    by destruct (getSigner C this w) as [[s | e] w1].
Qed.

Lemma operate_memo op w :
  let w' := snd (operate C this op w) in
  let count v := materializations (ws_id this) (events (terminal v)) in
  signerFuncs w' = signerFuncs w
  /\ (is_Some (signers w !! ws_id this) ->
      is_Some (signers w' !! ws_id this) /\ count w' = count w)
  /\ (signers w !! ws_id this = None ->
      count w' <= count w + 1
      /\ (is_Some (signers w' !! ws_id this) \/ count w' = count w
          \/ exists f, signerFuncs w !! ws_id this = Some f /\ ~ infallible C f)).
Proof.
  cbv zeta. destruct (operate_getSigner op) as (k & Hk & Heq). rewrite Heq.
  unfold bind. destruct (signers w !! ws_id this) as [s |] eqn:Hs.
  - rewrite (getSigner_cached C this w s Hs).
    destruct (Hk s w) as (Hsg & Hsf & ev & Hev & Hok).
    split; [done |]. split; [| done]. intros _. rewrite Hsg, Hs. split; [by eexists |].
    rewrite Hev, materializations_app, (materializations_none _ ev) by done. lia.
  - destruct (getSigner_fresh C this w Hs) as (pp & ev & Hw & Hcase).
    assert (Hev : materializations (ws_id this) ev <= 1).
    { destruct Hcase as [(f & ev' & _ & -> & Hr & _) | (_ & Hr & _)].
      - simpl. rewrite Nat.eqb_refl, (materializations_none _ ev'); [lia |].
        eapply forallb_weaken; [| exact Hr]. by intros [].
      - rewrite (materializations_none _ ev); [lia |].
        eapply forallb_weaken; [| exact Hr]. by intros []. }
    destruct (getSigner C this w) as [[s | e] w1] eqn:Hget; simpl in Hw, Hcase; subst w1.
    + set (w1 := mkWorld _ _ _ _ _ _).
      destruct (Hk s w1) as (Hsg & Hsf & ev1 & Hev1 & Hok).
      split; [by rewrite Hsf |]. split; [by intros [? [=]] |]. intros _. split.
      * rewrite Hev1. unfold w1. simpl.
        rewrite !materializations_app, (materializations_none _ ev1) by done. lia.
      * left. rewrite Hsg. unfold w1. simpl. rewrite lookup_insert_eq. by eexists.
    + cbn [fst snd]. simpl. split; [done |]. split; [by intros [? [=]] |]. intros _.
      split; [rewrite materializations_app; lia |].
      destruct Hcase as [(f & ev' & Hf & -> & Hr & Hrun) | (Hf & Hr & _)].
      * right. right. exists f. split; [done |]. intros Hinf.
        destruct (Hinf (get_plugin (ws_plugin this) w)
                    (tgrow (terminal w) [] [Materialize (ws_id this)])) as [s Hs'].
        congruence.
      * right. left. rewrite materializations_app, (materializations_none _ ev); [lia |].
        eapply forallb_weaken; [| exact Hr]. by intros [].
Qed.

Lemma operate_all_materialized ops : forall w,
  is_Some (signers w !! ws_id this) ->
  is_Some (signers (operate_all C this ops w) !! ws_id this)
  /\ materializations (ws_id this) (events (terminal (operate_all C this ops w)))
     = materializations (ws_id this) (events (terminal w)).
Proof.
  induction ops as [| op ops IH]; intros w Hs; simpl; [done |].
  destruct (operate_memo op w) as (_ & Hsome & _).
  destruct (Hsome Hs) as (Hs' & Hc).
  destruct (IH _ Hs') as (Hs'' & Hc'). split; [done |]. by rewrite Hc', Hc.
Qed.

Lemma operate_all_once ops : forall w f,
  signerFuncs w !! ws_id this = Some f -> infallible C f ->
  materializations (ws_id this) (events (terminal (operate_all C this ops w)))
  <= materializations (ws_id this) (events (terminal w)) + 1.
Proof.
  induction ops as [| op ops IH]; intros w f Hf Hinf; simpl; [lia |].
  destruct (operate_memo op w) as (Hsf & Hsome & Hnone).
  destruct (signers w !! ws_id this) as [s |] eqn:Hs.
  - destruct (Hsome ltac:(by eexists)) as (Hs' & Hc).
    destruct (operate_all_materialized ops _ Hs') as (_ & Hc'). rewrite Hc', Hc. lia.
  - destruct (Hnone eq_refl) as (Hle & [Hs' | [Hc | (f' & Hf' & Hnot)]]).
    + destruct (operate_all_materialized ops _ Hs') as (_ & Hc'). rewrite Hc'. lia.
    + specialize (IH (snd (operate C this op w)) f). rewrite Hsf in IH.
      specialize (IH Hf Hinf). lia.
    + rewrite Hf in Hf'. injection Hf' as <-. by destruct Hnot.
Qed.

End Memo.

(** C2, as stated, fails. Two callers of [getSigner] on the same wrapper, the
    second starting while the first is suspended on the factory's promise,
    invoke the factory twice and ask for the password twice; and after a
    failed materialization (a wrong password) the next operation invokes the
    factory again. *)
Lemma factory_twice_counterexample :
  (let w' := snd (run_schedule user_always wallet_wrapper [0; 1; 0; 1]
                    [NotStarted; NotStarted] (wallet_world user_always)) in
   materializations 0 (events (terminal w')) = 2
   /\ passwordPrompts (terminal w')
      = ["Password (wallet.json): "; "Password (wallet.json): "])
  /\ (let w' := operate_all user_wrong_password wallet_wrapper [Unlock; Unlock]
                  (wallet_world user_wrong_password) in
      materializations 0 (events (terminal w')) = 2).
Proof. cbv zeta. repeat split; vm_compute; reflexivity. Qed.

(** C2, amended. When the operations on a wrapped identity run one after
    the other (each completes before the next starts): once the real signer
    is materialized, no later operation invokes the factory; and a factory
    that does not fail is invoked at most once across any number of
    operations ([signMessage], [signTransaction], [sendTransaction],
    [unlock]). Only the signer that was obtained is remembered, not the
    promise in flight. *)
Theorem factory_once_sequential (C : Collaborators) (this : WrappedSigner)
    (ops : list Operation) (w : World) :
  let count v := materializations (ws_id this) (events (terminal v)) in
  (is_Some (signers w !! ws_id this) ->
   count (operate_all C this ops w) = count w)
  /\ (forall f, signerFuncs w !! ws_id this = Some f -> infallible C f ->
      count (operate_all C this ops w) <= count w + 1).
Proof.
  cbv zeta. split.
  - intros Hs. by apply operate_all_materialized.
  - intros f Hf Hinf. by eapply operate_all_once.
Qed.

Lemma factory_once_sequential_witness :
  let w := wallet_world user_always in
  let ops := [Unlock; Gate (SignMessage (MessageString "hi")); Unlock] in
  signerFuncs w !! 0 = Some (decrypt_factory user_always (str "wallet.json") "keystore")
  /\ infallible user_always (decrypt_factory user_always (str "wallet.json") "keystore")
  /\ materializations 0 (events (terminal (operate_all user_always wallet_wrapper ops w)))
     <= materializations 0 (events (terminal w)) + 1.
Proof.
  cbv zeta.
  assert (Hinf : infallible user_always
                   (decrypt_factory user_always (str "wallet.json") "keystore")).
  { intros plugin t. eexists. reflexivity. }
  split; [reflexivity |]. split; [exact Hinf |].
  exact (proj2 (factory_once_sequential user_always wallet_wrapper
                  [Unlock; Gate (SignMessage (MessageString "hi")); Unlock]
                  (wallet_world user_always))
           (decrypt_factory user_always (str "wallet.json") "keystore") eq_refl Hinf).
Defined.

(** ** Account resolution *)

Section AccountFacts.

Variable C : Collaborators.

Lemma loadAccount_not_sentinel rounds arg pid :
  is_sentinel arg = false ->
  loadAccount C rounds arg pid = lift (loadAccount_direct C arg pid).
Proof. intros H. destruct rounds; simpl; by rewrite H. Qed.

Lemma loadAccount_sentinel rounds arg pid w :
  is_sentinel arg = true ->
  loadAccount C (S rounds) arg pid w
  = match onTerminal (getPassword C "Private Key / Mnemonic:") w with
    | (Ok content, w') => loadAccount C rounds (str content) pid w'
    | (Throw e, w') => Some (Throw e, w')
    end.
Proof.
  intros H. simpl. rewrite H. unfold pbind, lift.
  by destruct (onTerminal _ w) as [[content | e] w'].
Qed.

Lemma rawKey_outcome arg pid w :
  loadAccount_rawKey C arg pid w
  = match Wallet_new C arg (provider (get_plugin pid w)) with
    | Ok signer =>
        (Ok (mkWrappedSigner (nextObject w) (signer_address signer)
               (provider (get_plugin pid w)) pid),
         registered (fun _ => Settled (Ok signer)) w)
    | Throw e => (Throw e, wgrow w [] [Raised e])
    end.
Proof.
  destruct w as [[cp pp co ev] sf sg aa pl no].
  unfold loadAccount_rawKey, bind, plugin_provider, onTerminal, call. simpl.
  destruct (Wallet_new C arg _) as [signer | e]; simpl; [reflexivity |].
  unfold wgrow, tgrow, set_terminal. simpl. by rewrite app_nil_r.
Qed.

Lemma mnemonic_outcome arg pid w :
  loadAccount_mnemonic C arg pid w
  = match Wallet_fromMnemonic C arg (provider (get_plugin pid w)) with
    | Ok signer =>
        (Ok (mkWrappedSigner (nextObject w) (signer_address signer)
               (provider (get_plugin pid w)) pid),
         registered (fun _ => Settled (Ok signer)) w)
    | Throw e => (Throw e, wgrow w [] [Raised e])
    end.
Proof.
  destruct w as [[cp pp co ev] sf sg aa pl no].
  unfold loadAccount_mnemonic, bind, plugin_provider, onTerminal, call. simpl.
  destruct (Wallet_fromMnemonic C arg _) as [signer | e]; simpl; [reflexivity |].
  unfold wgrow, tgrow, set_terminal. simpl. by rewrite app_nil_r.
Qed.

Lemma jsonWallet_found arg pid w content address :
  readFileSync C arg = Ok content ->
  getJsonWalletAddress C content = Ok address ->
  truthy address = true ->
  loadAccount_jsonWallet C arg pid w
  = (Ok (mkWrappedSigner (nextObject w) (Ok address) (provider (get_plugin pid w)) pid),
     registered (decrypt_factory C arg content) w).
Proof.
  intros Hread Haddr Ht. destruct w as [[cp pp co ev] sf sg aa pl no].
  unfold loadAccount_jsonWallet, bind, try_catch, onTerminal. rewrite Hread. simpl.
  rewrite Haddr. simpl. rewrite Ht. reflexivity.
Qed.

Lemma jsonWallet_not_a_wallet arg pid w content address :
  readFileSync C arg = Ok content ->
  getJsonWalletAddress C content = Ok address ->
  truthy address = false ->
  loadAccount_jsonWallet C arg pid w = (Throw unknown_account, wgrow w [] [Raised unknown_account]).
Proof.
  intros Hread Haddr Ht. destruct w as [[cp pp co ev] sf sg aa pl no].
  unfold loadAccount_jsonWallet, bind, try_catch, onTerminal. rewrite Hread. simpl.
  rewrite Haddr. simpl. rewrite Ht. simpl.
  unfold wgrow, tgrow, set_terminal. simpl. by rewrite app_nil_r.
Qed.

Lemma jsonWallet_unreadable arg pid w e :
  readFileSync C arg = Throw e ->
  String.eqb (message e) "cancelled" = false ->
  String.eqb (message e) "wrong password" = false ->
  loadAccount_jsonWallet C arg pid w
  = (Throw unknown_account, wgrow w [] [Raised e; Raised unknown_account]).
Proof.
  intros Hread H1 H2. destruct w as [[cp pp co ev] sf sg aa pl no].
  unfold loadAccount_jsonWallet, bind, try_catch, onTerminal. rewrite Hread. simpl.
  rewrite H1, H2. simpl.
  unfold wgrow, tgrow, set_terminal. simpl. by rewrite app_nil_r, <- app_assoc.
Qed.

End AccountFacts.

(** C6. [loadAccount] tries, in this order: the sentinel ["-"] (prompt, then
    classify the text typed), a 32-byte hex string (a wallet made from the
    key, whatever the word list says about the string), a valid mnemonic, a
    file holding a JSON wallet with a recoverable address, and otherwise
    fails with the usage error [unknown account option]. The first test
    that succeeds decides. *)
Theorem loadAccount_precedence (C : Collaborators) (rounds : nat) (arg : JsValue)
    (pid : nat) (w : World) :
  (is_sentinel arg = true ->
     loadAccount C (S rounds) arg pid w
     = match onTerminal (getPassword C "Private Key / Mnemonic:") w with
       | (Ok content, w') => loadAccount C rounds (str content) pid w'
       | (Throw e, w') => Some (Throw e, w')
       end)
  /\ (is_sentinel arg = false -> isHexString C arg 32 = true ->
        loadAccount C rounds arg pid w
        = Some (match Wallet_new C arg (provider (get_plugin pid w)) with
                | Ok signer =>
                    (Ok (mkWrappedSigner (nextObject w) (signer_address signer)
                           (provider (get_plugin pid w)) pid),
                     registered (fun _ => Settled (Ok signer)) w)
                | Throw e => (Throw e, wgrow w [] [Raised e])
                end))
  /\ (is_sentinel arg = false -> isHexString C arg 32 = false ->
      isValidMnemonic C arg = true ->
        loadAccount C rounds arg pid w
        = Some (match Wallet_fromMnemonic C arg (provider (get_plugin pid w)) with
                | Ok signer =>
                    (Ok (mkWrappedSigner (nextObject w) (signer_address signer)
                           (provider (get_plugin pid w)) pid),
                     registered (fun _ => Settled (Ok signer)) w)
                | Throw e => (Throw e, wgrow w [] [Raised e])
                end))
  /\ (is_sentinel arg = false -> isHexString C arg 32 = false ->
      isValidMnemonic C arg = false ->
        (forall content address,
           readFileSync C arg = Ok content ->
           getJsonWalletAddress C content = Ok address ->
           truthy address = true ->
           loadAccount C rounds arg pid w
           = Some (Ok (mkWrappedSigner (nextObject w) (Ok address)
                         (provider (get_plugin pid w)) pid),
                   registered (decrypt_factory C arg content) w))
        /\ (forall content address,
              readFileSync C arg = Ok content ->
              getJsonWalletAddress C content = Ok address ->
              truthy address = false ->
              loadAccount C rounds arg pid w
              = Some (Throw unknown_account, wgrow w [] [Raised unknown_account]))
        /\ (forall e,
              readFileSync C arg = Throw e ->
              String.eqb (message e) "cancelled" = false ->
              String.eqb (message e) "wrong password" = false ->
              loadAccount C rounds arg pid w
              = Some (Throw unknown_account,
                      wgrow w [] [Raised e; Raised unknown_account]))).
Proof.
  split; [by apply loadAccount_sentinel |].
  split; [| split].
  - intros Hs Hh. rewrite loadAccount_not_sentinel by done.
    unfold lift, loadAccount_direct. rewrite Hh. by rewrite rawKey_outcome.
  - intros Hs Hh Hm. rewrite loadAccount_not_sentinel by done.
    unfold lift, loadAccount_direct. rewrite Hh, Hm. by rewrite mnemonic_outcome.
  - intros Hs Hh Hm. rewrite loadAccount_not_sentinel by done.
    unfold lift, loadAccount_direct. rewrite Hh, Hm.
    split; [| split].
    + intros content address H1 H2 H3. by erewrite jsonWallet_found.
    + intros content address H1 H2 H3. by erewrite jsonWallet_not_a_wallet.
    + intros e H1 H2 H3. by erewrite jsonWallet_unreadable.
Qed.

Lemma loadAccount_precedence_witness :
  is_sentinel (str sample_key) = false
  /\ isHexString every_string_a_phrase (str sample_key) 32 = true
  /\ isValidMnemonic every_string_a_phrase (str sample_key) = true
  /\ loadAccount every_string_a_phrase 0 (str sample_key) 0 sample_world
     = Some (Ok (mkWrappedSigner 0 (Ok (str "0xkey")) None 0),
             registered (fun _ => Settled (Ok (sample_signer "0xkey"))) sample_world).
Proof.
  split; [reflexivity |]. split; [reflexivity |]. split; [reflexivity |].
  exact (proj1 (proj2 (loadAccount_precedence every_string_a_phrase 0 (str sample_key)
                         0 sample_world)) eq_refl eq_refl).
Defined.

(** An operation whose [getSigner] throws, throws the same error. *)
Lemma operate_getSigner_throws (C : Collaborators) (this : WrappedSigner) (op : Operation)
    (w : World) (e : Exn) :
  fst (getSigner C this w) = Throw e -> fst (operate C this op w) = Throw e.
Proof.
  destruct (operate_getSigner C this op) as (k & _ & Heq). rewrite Heq. unfold bind.
  destruct (getSigner C this w) as [[s | e'] w1]; simpl; [discriminate |].
  by intros [= ->].
Qed.

(** C3. The specification asks that, for an account recognised as a JSON
    wallet, a decryption failure surface as [Incorrect password.] and an
    aborted password prompt as [Cancelled.]. The [catch] clause of
    [loadAccount] that would do this encloses only the reading of the file
    and the construction of the wrapper: the password prompt and the
    decryption run later, inside the deferred factory, and every operation
    on the wrapper rethrows their error as it is. (The error is not the
    usage error [unknown account option] either: [loadAccount] has returned
    by then.) *)
Theorem decrypt_errors_surface_unmapped (C : Collaborators) (rounds : nat) (arg : JsValue)
    (pid : nat) (w : World) (content : string) (address : JsValue) :
  is_sentinel arg = false ->
  isHexString C arg 32 = false ->
  isValidMnemonic C arg = false ->
  readFileSync C arg = Ok content ->
  getJsonWalletAddress C content = Ok address ->
  truthy address = true ->
  signers w !! nextObject w = None ->
  exists wrapper w1,
    loadAccount C rounds arg pid w = Some (Ok wrapper, w1)
    /\ addressPromise wrapper = Ok address
    /\ (forall op e,
          password_answer C (length (passwordPrompts (terminal w))) = Throw e ->
          fst (operate C wrapper op w1) = Throw e)
    /\ (forall op password e,
          password_answer C (length (passwordPrompts (terminal w))) = Ok password ->
          Wallet_fromEncryptedJson C content password (provider (get_plugin pid w)) = Throw e ->
          fst (operate C wrapper op w1) = Throw e).
Proof.
  intros Hs Hh Hm Hread Haddr Ht Hfresh.
  assert (Hfound :
    loadAccount C rounds arg pid w
    = Some (Ok (mkWrappedSigner (nextObject w) (Ok address)
                  (provider (get_plugin pid w)) pid),
            registered (decrypt_factory C arg content) w)).
  { rewrite loadAccount_not_sentinel by done.
    unfold lift, loadAccount_direct. rewrite Hh, Hm.
    by erewrite jsonWallet_found. }
  eexists _, _. split; [exact Hfound |]. split; [reflexivity |].
  assert (Hget : forall r,
            fst (run_factory C
                   (decrypt_factory C arg content (get_plugin pid w))
                   (tgrow (terminal w) [] [Materialize (nextObject w)])) = r ->
            fst (getSigner C
                   (mkWrappedSigner (nextObject w) (Ok address)
                      (provider (get_plugin pid w)) pid)
                   (registered (decrypt_factory C arg content) w)) = r).
  { intros r Hr.
    destruct (getSigner_fresh C
                (mkWrappedSigner (nextObject w) (Ok address) (provider (get_plugin pid w)) pid)
                (registered (decrypt_factory C arg content) w) Hfresh)
      as (pp & ev & _ & [(f & ev' & Hf & _ & _ & Hrun) | (Hf & _)]).
    - simpl in Hf. rewrite lookup_insert_eq in Hf. injection Hf as <-.
      rewrite Hrun. exact Hr.
    - simpl in Hf. rewrite lookup_insert_eq in Hf. discriminate. }
  split.
  - intros op e Hpw. apply operate_getSigner_throws, Hget.
    simpl. unfold getPassword. simpl. by rewrite Hpw.
  - intros op password e Hpw Hdec. apply operate_getSigner_throws, Hget.
    simpl. unfold getPassword. simpl. rewrite Hpw. simpl. by rewrite Hdec.
Qed.

Lemma decrypt_errors_surface_unmapped_witness :
  (exists wrapper w1,
     loadAccount user_wrong_password 0 (str "wallet.json") 0 sample_world
     = Some (Ok wrapper, w1)
     /\ fst (operate user_wrong_password wrapper Unlock w1)
        = Throw (Error "wrong password"))
  /\ fst (operate user_cancels_password wallet_wrapper Unlock
            (wallet_world user_cancels_password))
     = Throw (Error "cancelled").
Proof.
  split; [| reflexivity].
  destruct (decrypt_errors_surface_unmapped user_wrong_password 0 (str "wallet.json") 0
              sample_world "keystore" (str "0xwallet")
              eq_refl eq_refl eq_refl eq_refl eq_refl eq_refl eq_refl)
    as (wrapper & w1 & Hload & _ & _ & Hwrong).
  exists wrapper, w1. split; [exact Hload |].
  exact (Hwrong Unlock "guess" (Error "wrong password") eq_refl eq_refl).
Defined.

(** ** Error propagation in the option pipeline *)

Section Steady.

Variable C : Collaborators.
Variable pid : nat.







Section Generic.

Context {S : Type} `{View S}.








End Generic.








(** *** loadAccount *)






(** *** The sections of prepareOptions *)











End Steady.

Section Network.

Variable C : Collaborators.
Variable pid : nat.





End Network.



(** ** Transaction defaults *)

Section PipelineEquations.

Variable C : Collaborators.
Variable pid : nat.





Lemma transactionOption_absent {A} nm (convert : string -> Result A) set p p' w v :
  ArgParser.consumeOption nm p = (Ok v, p') ->
  truthy v = false ->
  transactionOption pid nm convert set (p, w) = (Ok tt, (p', w)).
Proof.
  intros H Ht. unfold transactionOption, bind, inParser. cbn [fst snd].
  by rewrite H, Ht.
Qed.

End PipelineEquations.

Example spec_parseUnits_gwei : spec_parseUnits "5" 9 = Ok 5000000000%Z.
Proof. reflexivity. Qed.

Example spec_parseUnits_ether : spec_parseUnits "1.5" 18 = Ok 1500000000000000000%Z.
Proof. reflexivity. Qed.



(** ** Printing *)

Lemma length_append_string (s1 s2 : string) :
  String.length (s1 +:+ s2) = String.length s1 + String.length s2.
Proof. induction s1 as [| c s1 IH]; simpl; [done | by rewrite IH]. Qed.

(** With a non-empty [chr] the doubling loop of [repeat] ends within the
    doublings it is given, with a result that is long enough. *)
Lemma repeat_loop_long (fuel : nat) : forall (result : string) (len : nat),
  0 < String.length result ->
  len <= String.length result * 2 ^ fuel ->
  len <= String.length (repeat_loop fuel result len).
Proof.
  induction fuel as [| fuel IH]; intros result len Hpos Hlen; simpl.
  - destruct (Nat.ltb_spec (String.length result) len); simpl in Hlen; lia.
  - destruct (Nat.ltb_spec (String.length result) len) as [Hlt | Hge]; [| lia].
    apply IH; rewrite length_append_string; [lia |].
    simpl in Hlen. lia.
Qed.

Lemma length_substring_prefix (n : nat) : forall s : string,
  n <= String.length s -> String.length (substring 0 n s) = n.
Proof.
  induction n as [| n IH]; intros s Hn.
  - by destruct s.
  - destruct s as [| c s]; simpl in *; [lia |]. rewrite IH; lia.
Qed.

Lemma repeat_length (chr : string) (len : nat) :
  0 < String.length chr -> String.length (repeat chr len) = len.
Proof.
  intros Hpos. unfold repeat. apply length_substring_prefix.
  apply repeat_loop_long; [done |].
  assert (len < 2 ^ len) by (apply Nat.pow_gt_lin_r; lia). nia.
Qed.

(** ** The examples of the specification *)

Example consumeFlag_duplicate :
  ArgParser.consumeFlag "x" (ArgParser.new ["--x"; "--x"])
  = (Throw (UsageError "expected at most one --${name}"),
     ArgParser.mk ["--x"; "--x"] [true; true]).
Proof. reflexivity. Qed.

Example consumeFlag_single :
  ArgParser.consumeFlag "x" (ArgParser.new ["--x"])
  = (Ok true, ArgParser.mk ["--x"] [true])
  /\ ArgParser._checkCommandIndex (ArgParser.mk ["--x"] [true]) = (-1)%Z.
Proof. split; reflexivity. Qed.

Example consumeFlag_empty :
  ArgParser.consumeFlag "x" (ArgParser.new []) = (Ok false, ArgParser.new []).
Proof. reflexivity. Qed.

Example consumeMultiOptions_in_order :
  ArgParser.consumeMultiOptions ["a"; "b"] (ArgParser.new ["--a"; "1"; "--b"; "2"; "pos"])
  = (Ok [ArgParser.mkOption "a" (str "1"); ArgParser.mkOption "b" (str "2")],
     ArgParser.mk ["--a"; "1"; "--b"; "2"; "pos"] [true; true; true; true; false])
  /\ ArgParser._finalizeArgs
       (ArgParser.mk ["--a"; "1"; "--b"; "2"; "pos"] [true; true; true; true; false])
     = Ok ["pos"].
Proof. split; reflexivity. Qed.

Example finalizeArgs_escape :
  ArgParser._finalizeArgs (ArgParser.new ["x"; "--"; "--y"; "z"]) = Ok ["x"; "--y"; "z"].
Proof. reflexivity. Qed.

Example finalizeArgs_unexpected :
  ArgParser._finalizeArgs (ArgParser.new ["x"; "--y"])
  = Throw (UsageError "unexpected option --y").
Proof. reflexivity. Qed.

Example consumeOption_duplicate :
  fst (ArgParser.consumeOption "nonce" (ArgParser.new ["--nonce"; "1"; "--nonce"; "2"]))
  = Throw (UsageError "expected at most one --nonce").
Proof. reflexivity. Qed.

(** A watch-only account whose name does not resolve: the pipeline goes on,
    and the rejection stays in the wrapper's address promise and in its
    factory, to be rethrown to whoever awaits them. *)
Lemma void_account_keeps_rejection (C : Collaborators) (pid : nat) (v : JsValue)
    (accs : list WrappedSigner) (w : World) (p : Provider) (e : Exn) :
  provider (get_plugin pid w) = Some p ->
  provider_resolveName p v = Throw e ->
  prepareAccount_void C pid v accs w
  = (Ok (accs ++ [mkWrappedSigner (nextObject w) (Throw e) (Some p) pid]),
     registered (fun _ => Settled (Throw e)) w).
Proof.
  intros Hp He. unfold prepareAccount_void, bind, plugin_provider, WrappedSigner_new, ret.
  cbn [fst snd]. rewrite Hp, He. cbn [fst snd]. rewrite Hp. reflexivity.
Qed.

(** * Further properties of the code *)

(** ** More on the argument parser *)

Lemma option_like_split (arg : string) :
  option_like arg = true -> arg = "--" +:+ substring_from 2 arg.
Proof.
  unfold option_like. intros H. apply String.eqb_eq in H.
  destruct arg as [| a [| b s]]; try discriminate.
  cbn [substring] in H. injection H as -> -> _. reflexivity.
Qed.

Lemma option_like_prefix (nm : string) : option_like ("--" +:+ nm) = true.
Proof. unfold option_like. simpl. by destruct nm. Qed.

Lemma indexOf_from_range (names : list string) (nm : string) : forall k,
  (0 <= k)%Z ->
  (indexOf_from names nm k = -1 /\ nm ∉ names)%Z
  \/ ((k <= indexOf_from names nm k)%Z /\ nm ∈ names).
Proof.
  induction names as [| n names IH]; intros k Hk; simpl.
  - left. split; [done |]. apply not_elem_of_nil.
  - destruct (String.eqb_spec n nm) as [-> | Hne].
    + right. split; [lia | left].
    + destruct (IH (k + 1)%Z ltac:(lia)) as [[H1 H2] | [H1 H2]].
      * left. split; [done |]. intros [H | H]%elem_of_cons; [by subst | done].
      * right. split; [lia | by right].
Qed.

Lemma indexOf_negative (names : list string) (nm : string) :
  (indexOf names nm <? 0)%Z = true <-> nm ∉ names.
Proof.
  unfold indexOf. destruct (indexOf_from_range names nm 0 ltac:(lia)) as [[H1 H2] | [H1 H2]].
  - rewrite H1. split; [done | intros _; reflexivity].
  - split; [intros H; apply Z.ltb_lt in H; lia | done].
Qed.

Lemma is_consumed_marked consumed i :
  ArgParser.is_consumed consumed i = true <-> ArgParser.marked consumed i.
Proof.
  unfold ArgParser.is_consumed, ArgParser.marked.
  destruct (consumed !! i) as [[|] |]; split; congruence.
Qed.

Lemma hits_occurrences nm rest : forall i,
  length (ArgParser.hits nm rest i)
  = length (List.filter (fun arg => String.eqb arg ("--" +:+ nm)) (scanned rest)).
Proof.
  induction rest as [| arg rest IH]; intros i; simpl; [done |].
  destruct (String.eqb arg "--"); [done |]. simpl.
  destruct (String.eqb arg _); simpl; by rewrite IH.
Qed.

(** X1. [consumeFlag] answers by the number of tokens equal to [--name]
    among those before the first [--]: none gives [false] and leaves the
    parser as it is, one gives [true], two or more give the usage error; the
    tokens themselves are never changed. *)
Theorem consumeFlag_counts (nm : string) (p : ArgParser.t) :
  let n := occurrences nm (ArgParser._args p) in
  ArgParser._args (snd (ArgParser.consumeFlag nm p)) = ArgParser._args p
  /\ (n = 0 -> ArgParser.consumeFlag nm p = (Ok false, p))
  /\ (n = 1 -> fst (ArgParser.consumeFlag nm p) = Ok true)
  /\ (2 <= n ->
      fst (ArgParser.consumeFlag nm p) = Throw (UsageError "expected at most one --${name}")).
Proof.
  cbv zeta. unfold occurrences. rewrite <- (hits_occurrences nm _ 0).
  split; [apply ArgParserFacts.consumeFlag_args |].
  rewrite ArgParserFacts.consumeFlag_hits. cbv zeta.
  split; [| split].
  - intros H0. rewrite H0. simpl.
    destruct (ArgParser.hits nm (ArgParser._args p) 0); [| discriminate].
    by destruct p.
  - intros H1. by rewrite H1.
  - intros H2. destruct (Nat.ltb_spec 1 (length (ArgParser.hits nm (ArgParser._args p) 0)));
      [done | lia].
Qed.

(** An induction principle that follows the loop of [consumeMultiOptions]. *)
Lemma consumeMultiOptions_loop_ind (names : list string) (len : nat)
    (P : list string -> nat -> list bool -> list ArgParser.Option_ ->
         Result (list ArgParser.Option_) * list bool -> Prop) :
  (forall i c r, P [] i c r (Ok r, c)) ->
  (forall rest i c r, P ("--" :: rest) i c r (Ok r, c)) ->
  (forall arg rest i c r,
     arg <> "--" ->
     option_like arg = false \/ substring_from 2 arg ∉ names ->
     P rest (S i) c r (ArgParser.consumeMultiOptions_loop names len rest (S i) c r) ->
     P (arg :: rest) i c r (ArgParser.consumeMultiOptions_loop names len rest (S i) c r)) ->
  (forall arg rest i c r,
     arg <> "--" -> option_like arg = true -> substring_from 2 arg ∈ names -> len = i ->
     P (arg :: rest) i c r (Throw (UsageError ArgParser.consumeMultiOptions_message), c)) ->
  (forall arg i c r,
     arg <> "--" -> option_like arg = true -> substring_from 2 arg ∈ names -> len <> i ->
     P [arg] i c r
       (Ok (r ++ [ArgParser.mkOption (substring_from 2 arg) undefined]),
        ArgParser.mark (ArgParser.mark c i) (S i))) ->
  (forall arg v rest i c r,
     arg <> "--" -> option_like arg = true -> substring_from 2 arg ∈ names -> len <> i ->
     P rest (S (S i)) (ArgParser.mark (ArgParser.mark c i) (S i))
       (r ++ [ArgParser.mkOption (substring_from 2 arg) (str v)])
       (ArgParser.consumeMultiOptions_loop names len rest (S (S i))
          (ArgParser.mark (ArgParser.mark c i) (S i))
          (r ++ [ArgParser.mkOption (substring_from 2 arg) (str v)])) ->
     P (arg :: v :: rest) i c r
       (ArgParser.consumeMultiOptions_loop names len rest (S (S i))
          (ArgParser.mark (ArgParser.mark c i) (S i))
          (r ++ [ArgParser.mkOption (substring_from 2 arg) (str v)]))) ->
  forall rest i c r, P rest i c r (ArgParser.consumeMultiOptions_loop names len rest i c r).
Proof.
  intros Hnil Hsep Hskip Hthrow Hlast Hmatch rest0.
  generalize (Nat.le_refl (length rest0)). generalize (length rest0) at 2.
  intros n. revert rest0.
  induction n as [| n IH]; intros rest Hle i c r.
  - destruct rest; [apply Hnil | simpl in Hle; lia].
  - destruct rest as [| arg rest]; [apply Hnil |].
    simpl in Hle. cbn [ArgParser.consumeMultiOptions_loop].
    destruct (String.eqb_spec arg "--") as [-> | Hne]; [apply Hsep |].
    fold (option_like arg). destruct (option_like arg) eqn:Hopt.
    2:{ apply Hskip; [done | by left | apply IH; lia]. }
    destruct (indexOf names (substring_from 2 arg) <? 0)%Z eqn:Hidx.
    { apply Hskip; [done | right; by apply indexOf_negative | apply IH; lia]. }
    assert (Hin : substring_from 2 arg ∈ names).
    { destruct (decide (substring_from 2 arg ∈ names)) as [H | H]; [done |].
      apply indexOf_negative in H. congruence. }
    destruct (Nat.eqb_spec len i) as [Heq | Hneq]; [by apply Hthrow |].
    destruct rest as [| v rest]; [by apply Hlast |].
    apply Hmatch; try done. apply IH. simpl in Hle. lia.
Qed.

Lemma marked_lt consumed i : ArgParser.marked consumed i -> i < length consumed.
Proof. unfold ArgParser.marked. apply lookup_lt_Some. Qed.

Lemma consumeMultiOptions_loop_marks names len rest : forall i c r,
  let c' := snd (ArgParser.consumeMultiOptions_loop names len rest i c r) in
  length c <= length c' /\ forall j, ArgParser.marked c j -> ArgParser.marked c' j.
Proof.
  revert rest.
  apply (consumeMultiOptions_loop_ind names len
           (fun rest i c r out =>
              length c <= length (snd out)
              /\ forall j, ArgParser.marked c j -> ArgParser.marked (snd out) j)).
  - intros. simpl. split; [lia | done].
  - intros. simpl. split; [lia | done].
  - intros arg rest i c r _ _ IH. exact IH.
  - intros. simpl. split; [lia | done].
  - intros arg i c r _ _ _ _. simpl. split.
    + etrans; [apply (ArgParserFacts.mark_length c i) | apply ArgParserFacts.mark_length].
    + intros j Hj. by do 2 apply ArgParserFacts.mark_preserves.
  - intros arg v rest i c r _ _ _ _ [Hlen Hm]. split.
    + etrans; [| exact Hlen].
      etrans; [apply (ArgParserFacts.mark_length c i) | apply ArgParserFacts.mark_length].
    + intros j Hj. apply Hm. by do 2 apply ArgParserFacts.mark_preserves.
Qed.

Lemma consumeMultiOptions_args names p :
  ArgParser._args (snd (ArgParser.consumeMultiOptions names p)) = ArgParser._args p.
Proof.
  unfold ArgParser.consumeMultiOptions.
  by destruct (ArgParser.consumeMultiOptions_loop _ _ _ _ _ _).
Qed.

Lemma consumeMultiOptions_consumed names p :
  ArgParser._consumed (snd (ArgParser.consumeMultiOptions names p))
  = snd (ArgParser.consumeMultiOptions_loop names (length (ArgParser._args p))
           (ArgParser._args p) 0 (ArgParser._consumed p) []).
Proof.
  unfold ArgParser.consumeMultiOptions.
  by destruct (ArgParser.consumeMultiOptions_loop _ _ _ _ _ _).
Qed.

Lemma consumeOptions_state nm p :
  snd (ArgParser.consumeOptions nm p) = snd (ArgParser.consumeMultiOptions [nm] p).
Proof.
  unfold ArgParser.consumeOptions.
  by destruct (ArgParser.consumeMultiOptions [nm] p) as [[os | e] p'].
Qed.

Lemma consumeOption_state nm p :
  snd (ArgParser.consumeOption nm p) = snd (ArgParser.consumeMultiOptions [nm] p).
Proof.
  unfold ArgParser.consumeOption. rewrite <- consumeOptions_state.
  destruct (ArgParser.consumeOptions nm p) as [[os | e] p']; [| done].
  by destruct (1 <? length os).
Qed.

(** X2. Every consuming method of the parser ([consumeFlag],
    [consumeMultiOptions], [consumeOptions], [consumeOption]) keeps the
    tokens, never shortens [_consumed] and never clears a mark. *)
Theorem consumption_is_monotone (p : ArgParser.t) (nm : string) (names : list string) :
  keeps_marks p (snd (ArgParser.consumeFlag nm p))
  /\ keeps_marks p (snd (ArgParser.consumeMultiOptions names p))
  /\ keeps_marks p (snd (ArgParser.consumeOptions nm p))
  /\ keeps_marks p (snd (ArgParser.consumeOption nm p)).
Proof.
  assert (Hmulti : forall names0,
            keeps_marks p (snd (ArgParser.consumeMultiOptions names0 p))).
  { intros names0. split; [apply consumeMultiOptions_args |].
    rewrite consumeMultiOptions_consumed.
    destruct (consumeMultiOptions_loop_marks names0 (length (ArgParser._args p))
                (ArgParser._args p) 0 (ArgParser._consumed p) []) as [Hlen Hm].
    split; [exact Hlen |]. intros j Hj. apply is_consumed_marked, Hm.
    by apply is_consumed_marked. }
  split; [| split; [| split]].
  - split; [apply ArgParserFacts.consumeFlag_args |].
    rewrite ArgParserFacts.consumeFlag_consumed.
    split; [apply ArgParserFacts.foldl_mark_length |].
    intros j Hj. apply is_consumed_marked, ArgParserFacts.foldl_mark_preserves.
    by apply is_consumed_marked.
  - apply Hmulti.
  - rewrite consumeOptions_state. apply Hmulti.
  - rewrite consumeOption_state. apply Hmulti.
Qed.

(** Scanning for an option that does not occur changes nothing. *)
Lemma consumeMultiOptions_loop_absent nm len rest : forall i c r,
  "--" +:+ nm ∉ scanned rest ->
  ArgParser.consumeMultiOptions_loop [nm] len rest i c r = (Ok r, c).
Proof.
  revert rest.
  apply (consumeMultiOptions_loop_ind [nm] len
           (fun rest i c r out => "--" +:+ nm ∉ scanned rest -> out = (Ok r, c))).
  - done.
  - done.
  - intros arg rest i c r Hne _ IH Habs. apply IH. intros Hin. apply Habs.
    simpl. destruct (String.eqb_spec arg "--"); [done |]. by right.
  - intros arg rest i c r Hne Hopt Hin _ Habs. exfalso. apply Habs.
    simpl. destruct (String.eqb_spec arg "--"); [done |].
    apply list_elem_of_singleton in Hin. rewrite <- Hin, <- option_like_split by done. left.
  - intros arg i c r Hne Hopt Hin _ Habs. exfalso. apply Habs.
    simpl. destruct (String.eqb_spec arg "--"); [done |].
    apply list_elem_of_singleton in Hin. rewrite <- Hin, <- option_like_split by done. left.
  - intros arg v rest i c r Hne Hopt Hin _ _ Habs. exfalso. apply Habs.
    simpl. destruct (String.eqb_spec arg "--"); [done |].
    apply list_elem_of_singleton in Hin. rewrite <- Hin, <- option_like_split by done. left.
Qed.

(** Tokens that are neither the separator nor the option are passed over. *)
Lemma consumeMultiOptions_loop_skip nm len pre : forall rest i c r,
  "--" ∉ pre -> "--" +:+ nm ∉ pre ->
  ArgParser.consumeMultiOptions_loop [nm] len (pre ++ rest) i c r
  = ArgParser.consumeMultiOptions_loop [nm] len rest (i + length pre) c r.
Proof.
  induction pre as [| arg pre IH]; intros rest i c r Hsep Habs.
  - simpl. by rewrite Nat.add_0_r.
  - cbn [app ArgParser.consumeMultiOptions_loop].
    apply not_elem_of_cons in Hsep as [Hsep1 Hsep2].
    apply not_elem_of_cons in Habs as [Habs1 Habs2].
    destruct (String.eqb_spec arg "--") as [-> | _]; [done |].
    fold (option_like arg).
    assert (Hskip : ArgParser.consumeMultiOptions_loop [nm] len (pre ++ rest) (S i) c r
                    = ArgParser.consumeMultiOptions_loop [nm] len rest
                        (i + length (arg :: pre)) c r).
    { rewrite IH by done. f_equal. simpl. lia. }
    destruct (option_like arg) eqn:Hopt; [| exact Hskip].
    destruct (indexOf [nm] (substring_from 2 arg) <? 0)%Z eqn:Hidx; [exact Hskip |].
    exfalso. apply Habs1.
    assert (Hin : substring_from 2 arg ∈ [nm]).
    { destruct (decide (substring_from 2 arg ∈ [nm])) as [H | H]; [done |].
      apply indexOf_negative in H. congruence. }
    apply list_elem_of_singleton in Hin. rewrite <- Hin. symmetry. by apply option_like_split.
Qed.

(** X3. [consumeOption] on tokens in which the option is absent returns
    [null] and changes nothing; with one occurrence [--name v] after tokens
    that are neither the separator nor the option, it returns [v] as it
    stands (also when [v] looks like an option or is the separator) and
    marks exactly the option and its value. *)
Theorem consumeOption_finds (nm v : string) (pre post : list string) (consumed : list bool) :
  nm <> EmptyString ->
  "--" ∉ pre -> "--" +:+ nm ∉ pre -> "--" +:+ nm ∉ scanned post ->
  (ArgParser.consumeOption nm (ArgParser.mk (pre ++ post) consumed)
   = (Ok null, ArgParser.mk (pre ++ post) consumed))
  /\ (ArgParser.consumeOption nm (ArgParser.mk (pre ++ ("--" +:+ nm) :: v :: post) consumed)
      = (Ok (str v),
         ArgParser.mk (pre ++ ("--" +:+ nm) :: v :: post)
           (ArgParser.mark (ArgParser.mark consumed (length pre)) (S (length pre))))).
Proof.
  intros Hnm Hsep Hpre Hpost. split.
  - unfold ArgParser.consumeOption, ArgParser.consumeOptions, ArgParser.consumeMultiOptions.
    cbn [ArgParser._args ArgParser._consumed].
    rewrite consumeMultiOptions_loop_skip, consumeMultiOptions_loop_absent by done.
    reflexivity.
  - unfold ArgParser.consumeOption, ArgParser.consumeOptions, ArgParser.consumeMultiOptions.
    cbn [ArgParser._args ArgParser._consumed].
    rewrite consumeMultiOptions_loop_skip by done.
    cbn [ArgParser.consumeMultiOptions_loop].
    assert (Hnsep : String.eqb ("--" +:+ nm) "--" = false).
    { apply String.eqb_neq. simpl. intros [= H]. by apply Hnm. }
    rewrite Hnsep. fold (option_like ("--" +:+ nm)). rewrite option_like_prefix.
    change (substring_from 2 ("--" +:+ nm)) with nm.
    unfold indexOf. cbn [indexOf_from]. rewrite String.eqb_refl.
    change (0 <? 0)%Z with false. cbv iota.
    destruct (Nat.eqb_spec (length (pre ++ ("--" +:+ nm) :: v :: post)) (0 + length pre))
      as [Heq | _].
    { rewrite length_app in Heq. simpl in Heq. lia. }
    rewrite consumeMultiOptions_loop_absent by done. reflexivity.
Qed.

Lemma consumeOption_finds_witness :
  "nonce" <> EmptyString
  /\ ArgParser.consumeOption "nonce"
       (ArgParser.mk (["send"] ++ ("--" +:+ "nonce") :: "--yes" :: ["x"])
          [false; false; false; false])
     = (Ok (str "--yes"),
        ArgParser.mk (["send"] ++ ("--" +:+ "nonce") :: "--yes" :: ["x"])
          (ArgParser.mark (ArgParser.mark [false; false; false; false] (length ["send"]))
             (S (length ["send"])))).
Proof.
  assert (Hnm : "nonce" <> EmptyString) by discriminate.
  split; [exact Hnm |].
  assert (Hno : forall x : string, x <> "send" -> x <> "x" -> (x ∉ ["send"]) /\ (x ∉ ["x"])).
  { intros x H1 H2. split; intros Hin%list_elem_of_singleton; done. }
  destruct (Hno "--" ltac:(discriminate) ltac:(discriminate)) as [Hsep _].
  destruct (Hno ("--" +:+ "nonce") ltac:(discriminate) ltac:(discriminate)) as [Hpre Hpost].
  destruct (consumeOption_finds "nonce" "--yes" ["send"] ["x"] [false; false; false; false]
              Hnm Hsep Hpre Hpost) as [_ Hpresent].
  exact Hpresent.
Defined.

(** *** Equations of the option loop *)

Lemma consumeMultiOptions_loop_eq_skip names len arg rest i c r :
  arg <> "--" ->
  option_like arg = false \/ substring_from 2 arg ∉ names ->
  ArgParser.consumeMultiOptions_loop names len (arg :: rest) i c r
  = ArgParser.consumeMultiOptions_loop names len rest (S i) c r.
Proof.
  intros Hne Hskip. cbn [ArgParser.consumeMultiOptions_loop].
  destruct (String.eqb_spec arg "--"); [done |].
  fold (option_like arg). destruct (option_like arg) eqn:Hopt; [| done].
  destruct Hskip as [? | Hnot]; [done |].
  apply indexOf_negative in Hnot. by rewrite Hnot.
Qed.

Lemma consumeMultiOptions_loop_eq_match names len arg rest i c r :
  arg <> "--" -> option_like arg = true -> substring_from 2 arg ∈ names ->
  ArgParser.consumeMultiOptions_loop names len (arg :: rest) i c r
  = if len =? i then (Throw (UsageError ArgParser.consumeMultiOptions_message), c)
    else match rest with
         | [] => (Ok (r ++ [ArgParser.mkOption (substring_from 2 arg) undefined]),
                  ArgParser.mark (ArgParser.mark c i) (S i))
         | v :: rest' =>
             ArgParser.consumeMultiOptions_loop names len rest' (S (S i))
               (ArgParser.mark (ArgParser.mark c i) (S i))
               (r ++ [ArgParser.mkOption (substring_from 2 arg) (str v)])
         end.
Proof.
  intros Hne Hopt Hin. cbn [ArgParser.consumeMultiOptions_loop].
  destruct (String.eqb_spec arg "--"); [done |].
  fold (option_like arg). rewrite Hopt.
  destruct (indexOf names (substring_from 2 arg) <? 0)%Z eqn:Hidx; [| done].
  apply indexOf_negative in Hidx. done.
Qed.

Lemma consumeMultiOptions_loop_rescans names len rest : forall i c r c',
  fst (ArgParser.consumeMultiOptions_loop names len rest i c r)
  = fst (ArgParser.consumeMultiOptions_loop names len rest i c' r).
Proof.
  revert rest.
  apply (consumeMultiOptions_loop_ind names len
           (fun rest i c r out =>
              forall c', fst out = fst (ArgParser.consumeMultiOptions_loop names len rest i c' r))).
  - done.
  - done.
  - intros arg rest i c r Hne Hskip IH c'.
    rewrite consumeMultiOptions_loop_eq_skip by done. apply IH.
  - intros arg rest i c r Hne Hopt Hin -> c'.
    rewrite consumeMultiOptions_loop_eq_match by done. by rewrite Nat.eqb_refl.
  - intros arg i c r Hne Hopt Hin Hlen c'.
    rewrite consumeMultiOptions_loop_eq_match by done.
    by destruct (Nat.eqb_spec len i).
  - intros arg v rest i c r Hne Hopt Hin Hlen IH c'.
    rewrite consumeMultiOptions_loop_eq_match by done.
    destruct (Nat.eqb_spec len i); [done |]. apply IH.
Qed.

Lemma consumeMultiOptions_result names p :
  fst (ArgParser.consumeMultiOptions names p)
  = fst (ArgParser.consumeMultiOptions_loop names (length (ArgParser._args p))
           (ArgParser._args p) 0 (ArgParser._consumed p) []).
Proof.
  unfold ArgParser.consumeMultiOptions.
  by destruct (ArgParser.consumeMultiOptions_loop _ _ _ _ _ _).
Qed.

Lemma consumeMultiOptions_marks_indep names p p' :
  ArgParser._args p' = ArgParser._args p ->
  fst (ArgParser.consumeMultiOptions names p') = fst (ArgParser.consumeMultiOptions names p).
Proof.
  intros Hargs. rewrite !consumeMultiOptions_result, Hargs.
  apply consumeMultiOptions_loop_rescans.
Qed.

Lemma consumeOptions_result nm p :
  fst (ArgParser.consumeOptions nm p)
  = match fst (ArgParser.consumeMultiOptions [nm] p) with
    | Ok os => Ok (map ArgParser.value os)
    | Throw e => Throw e
    end.
Proof.
  unfold ArgParser.consumeOptions.
  by destruct (ArgParser.consumeMultiOptions [nm] p) as [[os | e] p'].
Qed.

Lemma consumeOption_result nm p :
  fst (ArgParser.consumeOption nm p)
  = match fst (ArgParser.consumeOptions nm p) with
    | Ok options =>
        if 1 <? length options
        then Throw (UsageError ("expected at most one --" +:+ nm))
        else Ok (match options with [] => null | o :: _ => o end)
    | Throw e => Throw e
    end.
Proof.
  unfold ArgParser.consumeOption.
  destruct (ArgParser.consumeOptions nm p) as [[os | e] p']; [| done].
  cbn [fst]. by destruct (1 <? length os).
Qed.

Lemma consumeOption_marks_indep nm p p' :
  ArgParser._args p' = ArgParser._args p ->
  fst (ArgParser.consumeOption nm p') = fst (ArgParser.consumeOption nm p).
Proof.
  intros Hargs. rewrite !consumeOption_result, !consumeOptions_result.
  by rewrite (consumeMultiOptions_marks_indep [nm] p p').
Qed.

Lemma consumeFlag_marks_indep nm p p' :
  ArgParser._args p' = ArgParser._args p ->
  fst (ArgParser.consumeFlag nm p') = fst (ArgParser.consumeFlag nm p).
Proof. intros Hargs. by rewrite !ArgParserFacts.consumeFlag_result, Hargs. Qed.

(** X4. The answers of the option queries depend on the tokens only, not on
    the marks: a query asked again returns the same options again, and flag
    queries and option queries do not see each other's marks, so a token
    consumed as the value of an option still counts as a flag. *)
Theorem consumeMultiOptions_rescans (names : list string) (nm : string) (p : ArgParser.t) :
  (forall consumed',
     fst (ArgParser.consumeMultiOptions names (ArgParser.mk (ArgParser._args p) consumed'))
     = fst (ArgParser.consumeMultiOptions names p))
  /\ fst (ArgParser.consumeMultiOptions names (snd (ArgParser.consumeMultiOptions names p)))
     = fst (ArgParser.consumeMultiOptions names p)
  /\ fst (ArgParser.consumeOption nm (snd (ArgParser.consumeOption nm p)))
     = fst (ArgParser.consumeOption nm p)
  /\ fst (ArgParser.consumeMultiOptions names (snd (ArgParser.consumeFlag nm p)))
     = fst (ArgParser.consumeMultiOptions names p)
  /\ fst (ArgParser.consumeFlag nm (snd (ArgParser.consumeMultiOptions names p)))
     = fst (ArgParser.consumeFlag nm p).
Proof.
  split; [| split; [| split; [| split]]].
  - intros consumed'. by apply consumeMultiOptions_marks_indep.
  - apply consumeMultiOptions_marks_indep, consumeMultiOptions_args.
  - apply consumeOption_marks_indep. rewrite consumeOption_state.
    apply consumeMultiOptions_args.
  - apply consumeMultiOptions_marks_indep, ArgParserFacts.consumeFlag_args.
  - apply consumeFlag_marks_indep, consumeMultiOptions_args.
Qed.

Lemma from_tokens_weaken names args args' o :
  (forall x, x ∈ args -> x ∈ args') -> from_tokens names args o -> from_tokens names args' o.
Proof.
  intros Hsub (Hn & Ht & Hnull & Hv). repeat split; auto.
Qed.

Lemma consumeMultiOptions_loop_sound names len rest : forall i c r os,
  fst (ArgParser.consumeMultiOptions_loop names len rest i c r) = Ok os ->
  exists new,
    os = r ++ new
    /\ Forall (from_tokens names rest) new
    /\ forall k o, new !! k = Some o -> ArgParser.value o = undefined -> S k = length new.
Proof.
  revert rest.
  apply (consumeMultiOptions_loop_ind names len
           (fun rest i c r out =>
              forall os, fst out = Ok os ->
              exists new,
                os = r ++ new
                /\ Forall (from_tokens names rest) new
                /\ forall k o, new !! k = Some o -> ArgParser.value o = undefined ->
                               S k = length new)).
  - intros i c r os [= <-]. exists []. by rewrite app_nil_r.
  - intros rest i c r os [= <-]. exists []. by rewrite app_nil_r.
  - intros arg rest i c r _ _ IH os Hos.
    destruct (IH os Hos) as (new & -> & Hall & Hlast).
    exists new. split; [done |]. split; [| done].
    eapply Forall_impl; [exact Hall |]. intros o. apply from_tokens_weaken.
    intros x Hx. by right.
  - done.
  - intros arg i c r Hne Hopt Hin _ os [= <-].
    exists [ArgParser.mkOption (substring_from 2 arg) undefined].
    split; [done |]. split.
    + apply Forall_singleton. repeat split; cbn [ArgParser.name ArgParser.value]; [done | | done | done].
      rewrite <- option_like_split by done. left.
    + intros [| k] o; [done |]. by intros [=].
  - intros arg v rest i c r Hne Hopt Hin _ IH os Hos.
    destruct (IH os Hos) as (new & -> & Hall & Hlast).
    exists (ArgParser.mkOption (substring_from 2 arg) (str v) :: new).
    split; [by rewrite <- app_assoc |]. split.
    + apply Forall_cons. split.
      * repeat split; cbn [ArgParser.name ArgParser.value]; [done | | done |].
        -- rewrite <- option_like_split by done. left.
        -- intros v' [= <-]. right. left.
      * eapply Forall_impl; [exact Hall |]. intros o. apply from_tokens_weaken.
        intros x Hx. right. by right.
    + intros [| k] o Hk Hu.
      * injection Hk as <-. done.
      * simpl. f_equal. by apply (Hlast k o).
Qed.

(** X5. [consumeMultiOptions] always returns; every option it returns has
    one of the names asked for, stands among the tokens as [--name], and
    has for value a token of the list, or [undefined] (never [null]), the
    latter only for the last option returned. *)
Theorem consumeMultiOptions_sound (names : list string) (p : ArgParser.t) :
  exists os,
    fst (ArgParser.consumeMultiOptions names p) = Ok os
    /\ Forall (from_tokens names (ArgParser._args p)) os
    /\ forall k o, os !! k = Some o -> ArgParser.value o = undefined -> S k = length os.
Proof.
  destruct (ArgParserFacts.consumeMultiOptions_never_throws names p) as [os Hos].
  exists os. split; [done |].
  rewrite consumeMultiOptions_result in Hos.
  destruct (consumeMultiOptions_loop_sound _ _ _ _ _ _ _ Hos) as (new & -> & Hall & Hlast).
  done.
Qed.

(** *** Reading the marks *)

Lemma is_consumed_new args j :
  ArgParser.is_consumed (ArgParser._consumed (ArgParser.new args)) j = false.
Proof.
  unfold ArgParser.is_consumed, ArgParser.new. cbn [ArgParser._consumed].
  rewrite list_lookup_fmap. by destruct (args !! j).
Qed.

Lemma is_consumed_mark c i j :
  ArgParser.is_consumed (ArgParser.mark c i) j = (j =? i) || ArgParser.is_consumed c j.
Proof.
  unfold ArgParser.is_consumed, ArgParser.mark, array_set.
  destruct (Nat.ltb_spec i (length c)) as [Hlt | Hge].
  - destruct (Nat.eqb_spec j i) as [-> | Hne].
    + by rewrite list_lookup_insert_eq.
    + by rewrite list_lookup_insert_ne.
  - destruct (Nat.eqb_spec j i) as [-> | Hne].
    + rewrite lookup_app_r by lia. rewrite lookup_app_r by (rewrite length_replicate; lia).
      rewrite length_replicate. by replace (i - length c - (i - length c)) with 0 by lia.
    + destruct (Nat.lt_ge_cases j (length c)) as [Hj | Hj].
      * by rewrite lookup_app_l.
      * rewrite lookup_app_r by lia. rewrite (lookup_ge_None_2 c j) by lia.
        destruct (Nat.lt_ge_cases j i) as [Hji | Hji].
        -- rewrite lookup_app_l by (rewrite length_replicate; lia).
           rewrite lookup_replicate_2 by lia. done.
        -- rewrite lookup_ge_None_2; [done |].
           rewrite length_app, length_replicate. simpl. lia.
Qed.

Lemma is_consumed_foldl_mark l : forall c j,
  ArgParser.is_consumed (foldl ArgParser.mark c l) j
  = bool_decide (j ∈ l) || ArgParser.is_consumed c j.
Proof.
  induction l as [| i l IH]; intros c j; cbn [foldl].
  - by rewrite bool_decide_eq_false_2 by apply not_elem_of_nil.
  - rewrite IH, is_consumed_mark.
    destruct (Nat.eqb_spec j i) as [-> | Hne].
    + rewrite (bool_decide_eq_true_2 (i ∈ i :: l)) by left.
      by rewrite orb_true_r.
    + rewrite orb_false_l. f_equal. apply bool_decide_ext.
      rewrite elem_of_cons. split; [by right | by intros [? | ?]].
Qed.

(** *** _finalizeArgs *)

Lemma finalizeArgs_loop_plain a : forall rest i c acc,
  (forall j, ArgParser.is_consumed c j = false) ->
  forallb (fun x => negb (option_like x)) a = true ->
  ArgParser._finalizeArgs_loop (a ++ rest) i c acc
  = ArgParser._finalizeArgs_loop rest (i + length a) c (acc ++ a).
Proof.
  induction a as [| x a IH]; intros rest i c acc Hc Ha.
  - by rewrite app_nil_r, Nat.add_0_r.
  - cbn [forallb] in Ha. apply andb_true_iff in Ha as [Hx Ha].
    apply negb_true_iff in Hx.
    cbn [app ArgParser._finalizeArgs_loop]. rewrite Hc.
    destruct (String.eqb_spec x "--") as [-> | _]; [done |].
    fold (option_like x). rewrite Hx, IH by done.
    f_equal; [simpl; lia | by rewrite <- app_assoc].
Qed.

(** X6. [_finalizeArgs] on a parser in which nothing was consumed: tokens
    that do not start with [--] are returned as they are; after a separator
    [--] everything is returned, options included, and the separator is
    dropped; a token starting with [--] before any separator is refused
    with the usage error that names it. *)
Theorem finalizeArgs_fresh (a b : list string) (arg : string) :
  forallb (fun x => negb (option_like x)) a = true ->
  ArgParser._finalizeArgs (ArgParser.new a) = Ok a
  /\ ArgParser._finalizeArgs (ArgParser.new (a ++ "--" :: b)) = Ok (a ++ b)
  /\ (option_like arg = true -> arg <> "--" ->
      ArgParser._finalizeArgs (ArgParser.new (a ++ arg :: b))
      = Throw (UsageError ("unexpected option " +:+ arg))).
Proof.
  intros Ha. unfold ArgParser._finalizeArgs. split; [| split].
  - rewrite <- (app_nil_r a) at 1.
    change (ArgParser._args (ArgParser.new (a ++ []))) with (a ++ @nil string).
    rewrite finalizeArgs_loop_plain; [done | | done].
    intros j. apply is_consumed_new.
  - change (ArgParser._args (ArgParser.new (a ++ "--" :: b))) with (a ++ "--" :: b).
    rewrite finalizeArgs_loop_plain; [| apply is_consumed_new | done].
    cbn [ArgParser._finalizeArgs_loop]. by rewrite is_consumed_new.
  - intros Hopt Hne.
    change (ArgParser._args (ArgParser.new (a ++ arg :: b))) with (a ++ arg :: b).
    rewrite finalizeArgs_loop_plain; [| apply is_consumed_new | done].
    cbn [ArgParser._finalizeArgs_loop]. rewrite is_consumed_new.
    destruct (String.eqb_spec arg "--"); [done |].
    fold (option_like arg). by rewrite Hopt.
Qed.

Lemma finalizeArgs_fresh_witness :
  forallb (fun x => negb (option_like x)) ["send"; "0xabc"] = true
  /\ ArgParser._finalizeArgs (ArgParser.new (["send"; "0xabc"] ++ "--" :: ["--raw"]))
     = Ok (["send"; "0xabc"] ++ ["--raw"]).
Proof.
  split; [reflexivity |].
  apply (finalizeArgs_fresh ["send"; "0xabc"] ["--raw"] "--x"). reflexivity.
Defined.

(** *** The separator guard *)

Lemma hits_before_separator nm rest : forall i j,
  j ∈ ArgParser.hits nm rest i ->
  forall k, i <= k -> k <= j -> rest !! (k - i) <> Some "--".
Proof.
  induction rest as [| arg rest IH]; intros i j Hj k Hik Hkj; [done |].
  cbn [ArgParser.hits] in Hj.
  destruct (String.eqb_spec arg "--") as [-> | Hne]; [by apply elem_of_nil in Hj |].
  destruct (decide (k = i)) as [-> | Hki].
  { rewrite Nat.sub_diag. simpl. congruence. }
  replace (k - i) with (S (k - S i)) by lia. simpl.
  destruct (String.eqb arg ("--" +:+ nm)).
  - apply elem_of_cons in Hj as [-> | Hj]; [lia |].
    apply (IH (S i) j Hj); lia.
  - apply (IH (S i) j Hj); lia.
Qed.

Lemma consumeMultiOptions_loop_guard names len rest : forall i c r,
  let c' := snd (ArgParser.consumeMultiOptions_loop names len rest i c r) in
  forall k, i <= k -> rest !! (k - i) = Some "--" ->
    ArgParser.is_consumed c' k = false ->
    forall j, k < j -> ArgParser.is_consumed c' j = ArgParser.is_consumed c j.
Proof.
  revert rest.
  apply (consumeMultiOptions_loop_ind names len
           (fun rest i c r out =>
              forall k, i <= k -> rest !! (k - i) = Some "--" ->
                ArgParser.is_consumed (snd out) k = false ->
                forall j, k < j ->
                  ArgParser.is_consumed (snd out) j = ArgParser.is_consumed c j)).
  - done.
  - done.
  - intros arg rest i c r Hne _ IH k Hik Hk Hun j Hkj.
    destruct (decide (k = i)) as [-> | Hki].
    { rewrite Nat.sub_diag in Hk. simpl in Hk. congruence. }
    apply (IH k); [lia | | done | done].
    replace (k - i) with (S (k - S i)) in Hk by lia. done.
  - done.
  - intros arg i c r Hne _ _ _ k Hik Hk Hun j Hkj.
    destruct (decide (k = i)) as [-> | Hki].
    { rewrite Nat.sub_diag in Hk. simpl in Hk. congruence. }
    replace (k - i) with (S (k - S i)) in Hk by lia. done.
  - intros arg v rest i c r Hne _ _ _ IH k Hik Hk Hun j Hkj.
    destruct (decide (k = i)) as [-> | Hki].
    { rewrite Nat.sub_diag in Hk. simpl in Hk. congruence. }
    destruct (decide (k = S i)) as [-> | Hki'].
    { exfalso.
      destruct (consumeMultiOptions_loop_marks names len rest (S (S i))
                  (ArgParser.mark (ArgParser.mark c i) (S i))
                  (r ++ [ArgParser.mkOption (substring_from 2 arg) (str v)]))
        as [_ Hm].
      assert (Ht : ArgParser.is_consumed
                     (ArgParser.mark (ArgParser.mark c i) (S i)) (S i) = true).
      { rewrite is_consumed_mark, Nat.eqb_refl. done. }
      apply is_consumed_marked, Hm, is_consumed_marked in Ht. congruence. }
    rewrite (IH k); [| lia | | done | done].
    + rewrite !is_consumed_mark.
      destruct (Nat.eqb_spec j (S i)); [lia |].
      destruct (Nat.eqb_spec j i); [lia | done].
    + replace (k - i) with (S (S (k - S (S i)))) in Hk by lia. done.
Qed.

Lemma guarded_new args : guarded (ArgParser.new args).
Proof. intros k _ _ j _. apply is_consumed_new. Qed.

Lemma guarded_consumeFlag nm p : guarded p -> guarded (snd (ArgParser.consumeFlag nm p)).
Proof.
  intros Hg k. rewrite ArgParserFacts.consumeFlag_args, ArgParserFacts.consumeFlag_consumed.
  intros Hk Hun j Hkj.
  rewrite is_consumed_foldl_mark in Hun |- *.
  apply orb_false_iff in Hun as [_ Hun].
  rewrite (Hg k Hk Hun j Hkj), orb_false_r.
  apply bool_decide_eq_false_2. intros Hj.
  apply (hits_before_separator nm _ 0 j Hj k); [lia | lia |].
  by rewrite Nat.sub_0_r.
Qed.

Lemma guarded_consumeMultiOptions names p :
  guarded p -> guarded (snd (ArgParser.consumeMultiOptions names p)).
Proof.
  intros Hg k. rewrite consumeMultiOptions_args, consumeMultiOptions_consumed.
  intros Hk Hun j Hkj.
  rewrite (consumeMultiOptions_loop_guard names _ _ 0 _ [] k); [| lia | | done | done].
  2:{ by rewrite Nat.sub_0_r. }
  apply (Hg k Hk); [| done].
  destruct (ArgParser.is_consumed (ArgParser._consumed p) k) eqn:Hc; [| done].
  destruct (consumeMultiOptions_loop_marks names (length (ArgParser._args p))
              (ArgParser._args p) 0 (ArgParser._consumed p) []) as [_ Hm].
  apply is_consumed_marked, Hm, is_consumed_marked in Hc. congruence.
Qed.

(** X7. In every parser obtained from a new one by the consuming methods,
    no token after an unconsumed separator [--] is consumed. *)
Theorem separator_guard_invariant (args names : list string) (nm : string)
    (p : ArgParser.t) :
  guarded (ArgParser.new args)
  /\ (guarded p -> guarded (snd (ArgParser.consumeFlag nm p)))
  /\ (guarded p -> guarded (snd (ArgParser.consumeMultiOptions names p)))
  /\ (guarded p -> guarded (snd (ArgParser.consumeOptions nm p)))
  /\ (guarded p -> guarded (snd (ArgParser.consumeOption nm p))).
Proof.
  split; [apply guarded_new |]. split; [apply guarded_consumeFlag |].
  split; [apply guarded_consumeMultiOptions |]. split.
  - rewrite consumeOptions_state. apply guarded_consumeMultiOptions.
  - rewrite consumeOption_state. apply guarded_consumeMultiOptions.
Qed.

Lemma separator_guard_invariant_witness :
  guarded (ArgParser.new ["--data"; "--"; "--yes"])
  /\ guarded (snd (ArgParser.consumeOption "data" (ArgParser.new ["--data"; "--"; "--yes"]))).
Proof.
  split; [apply guarded_new |].
  apply (separator_guard_invariant ["--data"; "--"; "--yes"] [] "data"
           (ArgParser.new ["--data"; "--"; "--yes"])).
  apply guarded_new.
Defined.

Lemma unconsumed_from_all rest : forall i c,
  (forall j, i <= j -> ArgParser.is_consumed c j = false) ->
  unconsumed_from rest i c = rest.
Proof.
  induction rest as [| arg rest IH]; intros i c Hc; [done |].
  cbn [unconsumed_from]. rewrite Hc by lia. f_equal. apply IH. intros j Hj. apply Hc. lia.
Qed.

Lemma finalizeArgs_loop_unconsumed rest : forall i c i0 c0 acc,
  (forall j, ArgParser.is_consumed c0 j = false) ->
  (forall k, i <= k -> rest !! (k - i) = Some "--" ->
     ArgParser.is_consumed c k = false ->
     forall j, k < j -> ArgParser.is_consumed c j = false) ->
  ArgParser._finalizeArgs_loop rest i c acc
  = ArgParser._finalizeArgs_loop (unconsumed_from rest i c) i0 c0 acc.
Proof.
  induction rest as [| arg rest IH]; intros i c i0 c0 acc Hc0 Hg; [done |].
  assert (Hg' : forall k, S i <= k -> rest !! (k - S i) = Some "--" ->
                  ArgParser.is_consumed c k = false ->
                  forall j, k < j -> ArgParser.is_consumed c j = false).
  { intros k Hik Hk. apply Hg; [lia |].
    replace (k - i) with (S (k - S i)) by lia. done. }
  cbn [ArgParser._finalizeArgs_loop unconsumed_from].
  destruct (ArgParser.is_consumed c i) eqn:Hci.
  - by apply IH.
  - cbn [ArgParser._finalizeArgs_loop]. rewrite Hc0.
    destruct (String.eqb_spec arg "--") as [-> | Hne].
    + rewrite unconsumed_from_all; [done |].
      intros j Hj. apply (Hg i); [lia | | done | lia].
      by rewrite Nat.sub_diag.
    + destruct (String.eqb (substring 0 2 arg) "--"); [done |]. by apply IH.
Qed.

(** X8. Under that invariant the positional arguments are a function of the
    unconsumed tokens alone: [_finalizeArgs] gives what it would give on a
    new parser holding only the unconsumed tokens, in order (so the inner
    loop of the source, which does not look at the marks after the
    separator, never returns a consumed token). *)
Theorem finalizeArgs_unconsumed (p : ArgParser.t) :
  guarded p ->
  ArgParser._finalizeArgs p = ArgParser._finalizeArgs (ArgParser.new (unconsumed p)).
Proof.
  intros Hg. unfold ArgParser._finalizeArgs, unconsumed.
  apply finalizeArgs_loop_unconsumed.
  - intros j. apply (is_consumed_new (unconsumed_from _ _ _)).
  - intros k _ Hk. apply Hg. by rewrite Nat.sub_0_r in Hk.
Qed.

Lemma finalizeArgs_unconsumed_witness :
  guarded (ArgParser.mk ["--nonce"; "5"; "send"; "--"; "--x"] [true; true; false; false; false])
  /\ ArgParser._finalizeArgs
       (ArgParser.mk ["--nonce"; "5"; "send"; "--"; "--x"] [true; true; false; false; false])
     = ArgParser._finalizeArgs (ArgParser.new ["send"; "--"; "--x"]).
Proof.
  assert (Hg : guarded (ArgParser.mk ["--nonce"; "5"; "send"; "--"; "--x"]
                          [true; true; false; false; false])).
  { apply (guarded_consumeMultiOptions ["nonce"]
             (ArgParser.new ["--nonce"; "5"; "send"; "--"; "--x"])), guarded_new. }
  split; [exact Hg |].
  exact (finalizeArgs_unconsumed _ Hg).
Defined.

(** *** _checkCommandIndex *)

Lemma checkCommandIndex_loop_first rest : forall i c,
  (ArgParser._checkCommandIndex_loop rest i c = (-1)%Z
   /\ forall j, i <= j < i + length rest -> ArgParser.is_consumed c j = true)
  \/ exists k,
       ArgParser._checkCommandIndex_loop rest i c = Z.of_nat k
       /\ i <= k < i + length rest
       /\ ArgParser.is_consumed c k = false
       /\ forall j, i <= j < k -> ArgParser.is_consumed c j = true.
Proof.
  induction rest as [| arg rest IH]; intros i c.
  - left. split; [done |]. simpl. lia.
  - cbn [ArgParser._checkCommandIndex_loop].
    destruct (ArgParser.is_consumed c i) eqn:Hci.
    + destruct (IH (S i) c) as [[Heq Hall] | (k & Heq & Hk & Hun & Hall)].
      * left. split; [done |]. intros j Hj.
        destruct (decide (j = i)) as [-> | ?]; [done |]. apply Hall. simpl in Hj. lia.
      * right. exists k. split; [done |]. split; [simpl; lia |]. split; [done |].
        intros j Hj. destruct (decide (j = i)) as [-> | ?]; [done |]. apply Hall. lia.
    + right. exists i. split; [done |]. split; [simpl; lia |]. split; [done |].
      intros j Hj. lia.
Qed.

(** X9. [_checkCommandIndex] returns -1 exactly when every token is
    consumed, and otherwise the index of the first unconsumed token. *)
Theorem checkCommandIndex_first_unconsumed (p : ArgParser.t) :
  let consumed := ArgParser.is_consumed (ArgParser._consumed p) in
  (ArgParser._checkCommandIndex p = (-1)%Z
   /\ forall j, j < length (ArgParser._args p) -> consumed j = true)
  \/ exists k,
       ArgParser._checkCommandIndex p = Z.of_nat k
       /\ k < length (ArgParser._args p)
       /\ consumed k = false
       /\ forall j, j < k -> consumed j = true.
Proof.
  unfold ArgParser._checkCommandIndex.
  destruct (checkCommandIndex_loop_first (ArgParser._args p) 0 (ArgParser._consumed p))
    as [[Heq Hall] | (k & Heq & Hk & Hun & Hall)].
  - left. split; [done |]. intros j Hj. apply Hall. lia.
  - right. exists k. split; [done |]. split; [lia |]. split; [done |].
    intros j Hj. apply Hall. lia.
Qed.

(** ** More on the wrapped signer *)

Lemma bind_Ok {S A B : Type} (m : ST S A) (k : A -> ST S B) (s : S) (b : B) (s' : S) :
  bind m k s = (Ok b, s') -> exists a s1, m s = (Ok a, s1) /\ k a s1 = (Ok b, s').
Proof.
  unfold bind. destruct (m s) as [[a | e] s1]; [| done]. intros H. by exists a, s1.
Qed.

Lemma is_Raised_not_signing ev :
  forallb is_Raised ev = true -> forallb (fun e => negb (is_signing e)) ev = true.
Proof. apply forallb_weaken. by intros []. Qed.

Lemma not_signing_weaken ev :
  forallb not_signing ev = true -> forallb (fun e => negb (is_signing e)) ev = true.
Proof.
  apply forallb_weaken. intros e. unfold not_signing. by intros [? _]%andb_true_iff.
Qed.

Lemma filter_not_signing ev :
  forallb (fun e => negb (is_signing e)) ev = true -> List.filter is_signing ev = [].
Proof.
  induction ev as [| e ev IH]; [done |]. cbn [forallb List.filter].
  intros [He Hev]%andb_true_iff. apply negb_true_iff in He. rewrite He. by apply IH.
Qed.

Lemma no_signing_absurd ev :
  forallb (fun e => negb (is_signing e)) ev = true -> existsb is_signing ev = true -> False.
Proof.
  induction ev as [| e ev IH]; [done |]. cbn [forallb existsb].
  intros [He Hev]%andb_true_iff [H | H]%orb_true_iff.
  - by rewrite H in He.
  - by apply IH.
Qed.

Lemma same_consent_refl w : same_consent w w.
Proof. done. Qed.

Lemma same_consent_trans w1 w2 w3 :
  same_consent w1 w2 -> same_consent w2 w3 -> same_consent w1 w3.
Proof.
  intros (H1 & H2 & H3) (H1' & H2' & H3'). repeat split; congruence.
Qed.

Lemma same_consent_wgrow w co ev : same_consent w (wgrow w co ev).
Proof. done. Qed.

Lemma plugin_yes_consent this w w' :
  same_consent w w' -> plugin_yes this w' = plugin_yes this w.
Proof. intros (_ & _ & Hp). unfold plugin_yes, get_plugin. by rewrite Hp. Qed.

Section Consent.

Variable C : Collaborators.

Lemma getSigner_effect this w :
  let w' := snd (getSigner C this w) in
  same_consent w w'
  /\ (forall s, fst (getSigner C this w) = Ok s -> signers w' !! ws_id this = Some s)
  /\ exists ev, events (terminal w') = events (terminal w) ++ ev
                /\ forallb (fun e => negb (is_signing e)) ev = true.
Proof.
  destruct (signers w !! ws_id this) as [s0 |] eqn:Hs.
  - rewrite (getSigner_cached C this w s0 Hs). cbn [fst snd].
    split; [done |]. split; [by intros s [= <-] |].
    exists []. by rewrite app_nil_r.
  - destruct (getSigner_fresh C this w Hs) as (pp & ev & Hw' & Hev).
    cbn zeta. rewrite Hw'. cbn [terminal choicePrompts alwaysAllow plugins signers events].
    split; [done |]. split.
    + intros s ->. by rewrite lookup_insert_eq.
    + exists ev. split; [done |].
      destruct Hev as [(f & ev' & _ & -> & Hev' & _) | (_ & Hev' & _)].
      * cbn [forallb is_signing negb andb]. by apply is_Raised_not_signing.
      * by apply is_Raised_not_signing.
Qed.

Section Shape.

Context {X A : Type}.
Variable this : WrappedSigner.
Variable msg : string.
Variable pre : Signer -> ST World X.
Variable act : Signer -> X -> ST World A.
Hypothesis pre_quiet : forall s, quiet not_signing (pre s).
Hypothesis act_quiet : forall s x, quiet not_Materialize (act s x).

Lemma protocol_yes w :
  plugin_yes this w = true -> same_consent w (snd (protocol C this msg pre act w)).
Proof.
  intros Hyes. unfold protocol, bind.
  destruct (getSigner_effect this w) as (Hc1 & _ & _).
  destruct (getSigner C this w) as [[s | e] w1]; cbn [snd] in *; [| done].
  destruct (pre_quiet s w1) as (co & ev & Hw2 & _).
  destruct (pre s w1) as [[x | e] w2]; cbn [snd] in *; subst w2.
  2:{ eapply same_consent_trans; [exact Hc1 | apply same_consent_wgrow]. }
  assert (Hc2 : same_consent w (wgrow w1 co ev)).
  { eapply same_consent_trans; [exact Hc1 | apply same_consent_wgrow]. }
  rewrite isAllowed_yes by (by rewrite (plugin_yes_consent _ _ _ Hc2)).
  destruct (act_quiet s x (wgrow (wgrow w1 co ev) [note_yes msg] []))
    as (co' & ev' & Hw4 & _).
  destruct (act s x _) as [r w4]; cbn [snd] in *; subst w4.
  eapply same_consent_trans; [exact Hc2 |].
  eapply same_consent_trans; apply same_consent_wgrow.
Qed.

Lemma protocol_signing w ev :
  events (terminal (snd (protocol C this msg pre act w))) = events (terminal w) ++ ev ->
  existsb is_signing ev = true ->
  plugin_yes this w = true
  \/ object_get (default ∅ (alwaysAllow w !! ws_id this)) msg = true
  \/ exists a, choice_answer C (length (choicePrompts (terminal w))) = Ok a /\ a <> "n".
Proof.
  intros Hev Hsig.
  destruct (plugin_yes this w) eqn:Hyes; [by left | right].
  destruct (object_get (default ∅ (alwaysAllow w !! ws_id this)) msg) eqn:Hobj;
    [by left | right].
  destruct (choice_answer C (length (choicePrompts (terminal w)))) as [a | e0] eqn:Hans.
  { destruct (String.eqb_spec a "n") as [-> | Hne]; [| by exists a]. exfalso.
    revert Hev. unfold protocol, bind.
    destruct (getSigner_effect this w) as (Hc1 & _ & ev1 & Hev1 & Hns1).
    destruct (getSigner C this w) as [[s | e] w1]; cbn [snd] in *.
    2:{ rewrite Hev1. intros Heq%app_inv_head; subst ev. by apply (no_signing_absurd ev1). }
    destruct (pre_quiet s w1) as (co & ev2 & Hw2 & Hns2).
    apply not_signing_weaken in Hns2.
    destruct (pre s w1) as [[x | e] w2]; cbn [snd] in *; subst w2.
    2:{ cbn [wgrow set_terminal terminal tgrow events]. rewrite Hev1, <- app_assoc.
        intros Heq%app_inv_head; subst ev.
        apply (no_signing_absurd (ev1 ++ ev2)); [| done].
        rewrite forallb_app. by rewrite Hns1, Hns2. }
    assert (Hc2 : same_consent w (wgrow w1 co ev2)).
    { eapply same_consent_trans; [exact Hc1 | apply same_consent_wgrow]. }
    pose proof Hc2 as (Hcp & Haa & _).
    rewrite isAllowed_prompt.
    2:{ by rewrite (plugin_yes_consent _ _ _ Hc2). }
    2:{ by rewrite Haa. }
    rewrite Hcp, Hans. cbn [String.eqb Ascii.eqb Bool.eqb].
    cbn [snd wgrow set_terminal terminal tgrow events prompted].
    rewrite Hev1, <- !app_assoc. intros Heq%app_inv_head; subst ev.
    eapply no_signing_absurd; [| exact Hsig].
    rewrite !forallb_app, Hns1, Hns2. done. }
  exfalso. revert Hev. unfold protocol, bind.
  destruct (getSigner_effect this w) as (Hc1 & _ & ev1 & Hev1 & Hns1).
  destruct (getSigner C this w) as [[s | e] w1]; cbn [snd] in *.
  2:{ rewrite Hev1. intros Heq%app_inv_head; subst ev. by apply (no_signing_absurd ev1). }
  destruct (pre_quiet s w1) as (co & ev2 & Hw2 & Hns2).
  apply not_signing_weaken in Hns2.
  destruct (pre s w1) as [[x | e] w2]; cbn [snd] in *; subst w2.
  2:{ cbn [wgrow set_terminal terminal tgrow events]. rewrite Hev1, <- app_assoc.
      intros Heq%app_inv_head; subst ev.
      apply (no_signing_absurd (ev1 ++ ev2)); [| done].
      rewrite forallb_app. by rewrite Hns1, Hns2. }
  assert (Hc2 : same_consent w (wgrow w1 co ev2)).
  { eapply same_consent_trans; [exact Hc1 | apply same_consent_wgrow]. }
  pose proof Hc2 as (Hcp & Haa & _).
  rewrite isAllowed_prompt.
  2:{ by rewrite (plugin_yes_consent _ _ _ Hc2). }
  2:{ by rewrite Haa. }
  rewrite Hcp, Hans.
  cbn [snd wgrow set_terminal terminal tgrow events prompted].
  rewrite Hev1, <- !app_assoc. intros Heq%app_inv_head; subst ev.
  eapply no_signing_absurd; [| exact Hsig].
  rewrite !forallb_app, Hns1, Hns2. done.
Qed.

End Shape.

End Consent.

(** X10. With the plugin's [yes] set, no gated operation (sign a message,
    sign or send a transaction) shows a consent prompt or changes the
    remembered answers, whatever else it does. *)
Theorem yes_never_prompts (C : Collaborators) (this : WrappedSigner) (g : Gated)
    (w : World) :
  plugin_yes this w = true ->
  let w' := snd (perform C this g w) in
  choicePrompts (terminal w') = choicePrompts (terminal w)
  /\ alwaysAllow w' = alwaysAllow w.
Proof.
  intros Hyes.
  destruct (perform_protocol C this g) as (X & pre & act & Hpre & Hact & Heq).
  cbn zeta. rewrite Heq.
  destruct (protocol_yes C this (consent_message g) pre act Hpre Hact w Hyes)
    as (H1 & H2 & _).
  done.
Qed.

Lemma yes_never_prompts_witness :
  plugin_yes wallet_wrapper (yes_world user_no) = true
  /\ choicePrompts (terminal (snd (perform user_no wallet_wrapper
                                     (SignMessage (MessageString "hi")) (yes_world user_no))))
     = choicePrompts (terminal (yes_world user_no)).
Proof.
  split; [reflexivity |].
  apply (yes_never_prompts user_no wallet_wrapper (SignMessage (MessageString "hi"))
           (yes_world user_no)).
  reflexivity.
Defined.

(** X11. No signing without consent: if a gated operation reached a signing
    or sending method of the real signer, then [yes] was set, or the answer
    had been remembered for this wrapper and this question, or the prompt
    was answered with something other than [n]. A prompt that fails counts
    as a refusal. *)
Theorem signing_requires_consent (C : Collaborators) (this : WrappedSigner) (g : Gated)
    (w : World) (ev : list Event) :
  events (terminal (snd (perform C this g w))) = events (terminal w) ++ ev ->
  existsb is_signing ev = true ->
  plugin_yes this w = true
  \/ always_allowed this (consent_message g) w
  \/ exists a, choice_answer C (length (choicePrompts (terminal w))) = Ok a /\ a <> "n".
Proof.
  destruct (perform_protocol C this g) as (X & pre & act & Hpre & Hact & Heq).
  rewrite Heq. intros Hev Hsig.
  destruct (protocol_signing C this (consent_message g) pre act Hpre w ev Hev Hsig)
    as [H | [H | H]]; [by left | | by right; right].
  right; left. by apply always_allowed_object_get.
Qed.

Lemma signing_requires_consent_witness :
  existsb is_signing [Materialize 0; SignerCall 0 m_signMessage] = true
  /\ (plugin_yes wallet_wrapper (wallet_world user_always) = true
      \/ always_allowed wallet_wrapper "Sign Message?" (wallet_world user_always)
      \/ exists a, choice_answer user_always 0 = Ok a /\ a <> "n").
Proof.
  split; [reflexivity |].
  apply (signing_requires_consent user_always wallet_wrapper
           (SignMessage (MessageString "hi")) (wallet_world user_always)
           [Materialize 0; SignerCall 0 m_signMessage]).
  - vm_compute. reflexivity.
  - reflexivity.
Defined.

(** *** Successful operations *)

Lemma set_terminal_terminal w : set_terminal (terminal w) w = w.
Proof. by destruct w. Qed.

Lemma onTerminal_call_Ok {A} (r : Result A) w a w' :
  onTerminal (call r) w = (Ok a, w') -> r = Ok a /\ w' = w.
Proof.
  destruct r as [a0 | e]; unfold onTerminal; cbn.
  - rewrite set_terminal_terminal. by intros [= -> ->].
  - done.
Qed.

Lemma onTerminal_emit_call_Ok {A} (ev : Event) (r : Result A) w a w' :
  onTerminal (emit ev ;;; call r) w = (Ok a, w') -> r = Ok a /\ w' = wgrow w [] [ev].
Proof.
  destruct r as [a0 | e]; unfold onTerminal, bind; cbn.
  - intros [= -> <-]. split; [done |]. unfold wgrow, tgrow. by rewrite app_nil_r.
  - done.
Qed.

Lemma onTerminal_dump header info w r w' :
  onTerminal (dump header info) w = (r, w') -> exists co, w' = wgrow w co [].
Proof.
  unfold onTerminal.
  destruct (tquiet_dump (fun _ => false) header info (terminal w)) as (co & ev & Ht & Hev).
  destruct (dump header info (terminal w)) as [r0 t']. cbn [snd] in Ht. subst t'.
  intros [= _ <-]. exists co. by destruct ev.
Qed.

Lemma wgrow_signers w co ev : signers (wgrow w co ev) = signers w.
Proof. done. Qed.

Lemma wgrow_events w co ev : events (terminal (wgrow w co ev)) = events (terminal w) ++ ev.
Proof. done. Qed.

Section Delegation.

Variable C : Collaborators.
Variable this : WrappedSigner.

Lemma signMessage_finish_Ok signer msg w r w' :
  signMessage_finish C this signer msg w = (Ok r, w') ->
  signer_signMessage signer msg = Ok r
  /\ signers w' = signers w
  /\ events (terminal w') = events (terminal w) ++ [SignerCall (ws_id this) m_signMessage].
Proof.
  unfold signMessage_finish. intros H.
  apply bind_Ok in H as (result & w1 & H1 & H).
  apply bind_Ok in H as (signature & w2 & H2 & H).
  apply bind_Ok in H as (u & w3 & H3 & H).
  injection H as <- <-.
  apply onTerminal_emit_call_Ok in H1 as [Hr ->].
  apply onTerminal_call_Ok in H2 as [_ ->].
  apply onTerminal_dump in H3 as [co ->].
  split; [done |]. split; [done |].
  rewrite !wgrow_events. by rewrite app_nil_r.
Qed.

Lemma signTransaction_finish_Ok signer tx w r w' :
  signTransaction_finish C this signer tx w = (Ok r, w') ->
  signer_signTransaction signer tx = Ok r
  /\ signers w' = signers w
  /\ events (terminal w') = events (terminal w) ++ [SignerCall (ws_id this) m_signTransaction].
Proof.
  unfold signTransaction_finish. intros H.
  apply bind_Ok in H as (result & w1 & H1 & H).
  apply bind_Ok in H as (signature & w2 & H2 & H).
  apply bind_Ok in H as (u & w3 & H3 & H).
  injection H as <- <-.
  apply onTerminal_emit_call_Ok in H1 as [Hr ->].
  apply onTerminal_call_Ok in H2 as [_ ->].
  apply onTerminal_dump in H3 as [co ->].
  split; [done |]. split; [done |].
  rewrite !wgrow_events. by rewrite app_nil_r.
Qed.

Lemma sendTransaction_finish_Ok signer tx w r w' :
  sendTransaction_finish this signer tx w = (Ok r, w') ->
  signer_sendTransaction signer tx = Ok r
  /\ signers w' = signers w
  /\ events (terminal w') = events (terminal w) ++ [SignerCall (ws_id this) m_sendTransaction].
Proof.
  unfold sendTransaction_finish. intros H.
  apply bind_Ok in H as (result & w1 & H1 & H).
  apply bind_Ok in H as (u & w3 & H3 & H).
  injection H as <- <-.
  apply onTerminal_emit_call_Ok in H1 as [Hr ->].
  apply onTerminal_dump in H3 as [co ->].
  split; [done |]. split; [done |].
  rewrite !wgrow_events. by rewrite app_nil_r.
Qed.

Lemma sendTransaction_summary_Ok signer tx w tx1 w' :
  sendTransaction_summary C this signer tx w = (Ok tx1, w') ->
  exists tx0, signer_populateTransaction signer tx = Ok tx0
              /\ resolveProperties C tx0 = Ok tx1.
Proof.
  unfold sendTransaction_summary. intros H.
  apply bind_Ok in H as (net & w1 & H1 & H).
  apply bind_Ok in H as (tx0 & w2 & H2 & H).
  apply bind_Ok in H as (tx' & w3 & H3 & H).
  apply bind_Ok in H as (info & w4 & H4 & H).
  apply bind_Ok in H as (u & w5 & H5 & H).
  injection H as <- <-.
  apply onTerminal_emit_call_Ok in H2 as [Hr ->].
  apply onTerminal_call_Ok in H3 as [Hres ->].
  by exists tx0.
Qed.

(** What is left of a gated operation once it has gone through: the
    signer in the cache, and the events of the steps before the action. *)
Lemma approach_Ok {X} (msg : string) (pre : ST World X) w s w1 x w2 b w3 :
  quiet not_signing pre ->
  getSigner C this w = (Ok s, w1) ->
  pre w1 = (Ok x, w2) ->
  isAllowed C this msg w2 = (Ok b, w3) ->
  signers w3 !! ws_id this = Some s
  /\ exists ev, events (terminal w3) = events (terminal w) ++ ev
                /\ forallb (fun e => negb (is_signing e)) ev = true.
Proof.
  intros Hpre Hg Hp Ha.
  destruct (getSigner_effect C this w) as (_ & Hs & ev1 & Hev1 & Hns1).
  rewrite Hg in Hs, Hev1. cbn [fst snd] in Hs, Hev1.
  destruct (Hpre w1) as (co & ev2 & Hw2 & Hns2). rewrite Hp in Hw2. cbn [snd] in Hw2.
  subst w2. apply not_signing_weaken in Hns2.
  destruct (isAllowed_effect C this msg (wgrow w1 co ev2)) as (cp & co3 & ev3 & aa & Hw3 & Hr3 & _).
  rewrite Ha in Hw3. cbn [snd] in Hw3. subst w3.
  cbn [signers terminal events wgrow set_terminal tgrow].
  split; [by apply Hs |].
  exists (ev1 ++ ev2 ++ ev3). split.
  - rewrite Hev1. by rewrite <- !app_assoc.
  - rewrite !forallb_app, Hns1, Hns2. by rewrite (is_Raised_not_signing _ Hr3).
Qed.

End Delegation.

(** X12. A gated operation that succeeds returns what the real signer
    returned: the signer is the one kept for the wrapper, its signing or
    sending method was called exactly once, and for [sendTransaction] it was
    called on the transaction as populated by the signer and resolved. *)
Theorem perform_delegates (C : Collaborators) (this : WrappedSigner) (g : Gated)
    (w : World) (out : Output) (w' : World) :
  perform C this g w = (Ok out, w') ->
  exists signer ev,
    signers w' !! ws_id this = Some signer
    /\ events (terminal w') = events (terminal w) ++ ev
    /\ length (List.filter is_signing ev) = 1
    /\ match g with
       | SignMessage msg =>
           exists s, out = Signed s /\ signer_signMessage signer msg = Ok s
       | SignTransaction tx =>
           exists s, out = Signed s /\ signer_signTransaction signer tx = Ok s
       | SendTransaction tx =>
           exists tx0 tx1 r,
             out = Sent r
             /\ signer_populateTransaction signer tx = Ok tx0
             /\ resolveProperties C tx0 = Ok tx1
             /\ signer_sendTransaction signer tx1 = Ok r
       end.
Proof.
  destruct g as [msg | tx | tx]; cbn [perform]; intros H.
  - apply bind_Ok in H as (r & w4 & H & Hret). injection Hret as <- <-.
    unfold signMessage in H.
    apply bind_Ok in H as (s & w1 & Hg & H).
    apply bind_Ok in H as (u & w2 & Hp & H).
    apply bind_Ok in H as (b & w3 & Ha & Hf).
    destruct (approach_Ok C this _ _ w s w1 u w2 b w3 (quiet_signMessage_summary C msg)
                Hg Hp Ha) as (Hs & ev & Hev & Hns).
    apply signMessage_finish_Ok in Hf as (Hr & Hs4 & Hev4).
    exists s, (ev ++ [SignerCall (ws_id this) m_signMessage]).
    split; [by rewrite Hs4 |]. split; [by rewrite Hev4, Hev, <- app_assoc |].
    split; [| by exists r].
    rewrite List.filter_app, (filter_not_signing _ Hns). done.
  - apply bind_Ok in H as (r & w4 & H & Hret). injection Hret as <- <-.
    unfold signTransaction in H.
    apply bind_Ok in H as (s & w1 & Hg & H).
    apply bind_Ok in H as (u & w2 & Hp & H).
    apply bind_Ok in H as (b & w3 & Ha & Hf).
    destruct (approach_Ok C this _ _ w s w1 u w2 b w3
                (quiet_signTransaction_summary C this tx) Hg Hp Ha) as (Hs & ev & Hev & Hns).
    apply signTransaction_finish_Ok in Hf as (Hr & Hs4 & Hev4).
    exists s, (ev ++ [SignerCall (ws_id this) m_signTransaction]).
    split; [by rewrite Hs4 |]. split; [by rewrite Hev4, Hev, <- app_assoc |].
    split; [| by exists r].
    rewrite List.filter_app, (filter_not_signing _ Hns). done.
  - apply bind_Ok in H as (r & w4 & H & Hret). injection Hret as <- <-.
    unfold sendTransaction in H.
    apply bind_Ok in H as (s & w1 & Hg & H).
    apply bind_Ok in H as (tx1 & w2 & Hp & H).
    apply bind_Ok in H as (b & w3 & Ha & Hf).
    destruct (approach_Ok C this _ _ w s w1 tx1 w2 b w3
                (quiet_sendTransaction_summary C this s tx) Hg Hp Ha) as (Hs & ev & Hev & Hns).
    apply sendTransaction_summary_Ok in Hp as (tx0 & Hpop & Hres).
    apply sendTransaction_finish_Ok in Hf as (Hr & Hs4 & Hev4).
    exists s, (ev ++ [SignerCall (ws_id this) m_sendTransaction]).
    split; [by rewrite Hs4 |]. split; [by rewrite Hev4, Hev, <- app_assoc |].
    split; [| by exists tx0, tx1, r].
    rewrite List.filter_app, (filter_not_signing _ Hns). done.
Qed.

Lemma perform_delegates_witness :
  exists signer ev,
    signers (snd (perform user_always wallet_wrapper (SignMessage (MessageString "hi"))
                    (wallet_world user_always))) !! 0 = Some signer
    /\ events (terminal (snd (perform user_always wallet_wrapper
                                (SignMessage (MessageString "hi"))
                                (wallet_world user_always))))
       = events (terminal (wallet_world user_always)) ++ ev
    /\ length (List.filter is_signing ev) = 1
    /\ exists s, Signed "0xsignature" = Signed s
                 /\ signer_signMessage signer (MessageString "hi") = Ok s.
Proof.
  apply (perform_delegates user_always wallet_wrapper (SignMessage (MessageString "hi"))
           (wallet_world user_always) (Signed "0xsignature")).
  vm_compute. reflexivity.
Defined.

(** *** The consent memory *)

(** X13. The remembered consent is per wrapper and per question: a call of
    [isAllowed] changes what is remembered for no other wrapper and for no
    other question. *)
Theorem isAllowed_isolated (C : Collaborators) (this that : WrappedSigner)
    (msg msg' : string) (w : World) :
  ws_id that <> ws_id this \/ msg' <> msg ->
  always_allowed that msg' (snd (isAllowed C this msg w)) <-> always_allowed that msg' w.
Proof.
  intros Hother.
  destruct (plugin_yes this w) eqn:Hyes.
  { by rewrite isAllowed_yes. }
  destruct (object_get (default ∅ (alwaysAllow w !! ws_id this)) msg) eqn:Hobj.
  { by rewrite isAllowed_remembered. }
  rewrite isAllowed_prompt by done.
  destruct (choice_answer C (length (choicePrompts (terminal w)))) as [a | e]; [| done].
  destruct (String.eqb a "a"); [| by destruct (String.eqb a "n")].
  cbn [snd]. unfold always_allowed. cbn [alwaysAllow set_alwaysAllow prompted set_terminal].
  destruct (decide (ws_id that = ws_id this)) as [Heq | Hne].
  - destruct Hother as [? | Hmsg]; [done |].
    rewrite Heq, lookup_insert_eq.
    assert (Hset : object_set_true (default ∅ (alwaysAllow w !! ws_id this)) msg !! msg'
                   = default ∅ (alwaysAllow w !! ws_id this) !! msg').
    { unfold object_set_true. destruct (String.eqb msg "__proto__"); [done |].
      by rewrite lookup_insert_ne. }
    split.
    + intros (o & [= <-] & Ho). rewrite Hset in Ho.
      destruct (alwaysAllow w !! ws_id this) as [o0 |]; [by exists o0 | done].
    + intros (o & Ho & Hm). eexists. split; [done |]. rewrite Hset, Ho. done.
  - by rewrite lookup_insert_ne.
Qed.

Lemma isAllowed_isolated_witness :
  (0 <> 0 \/ "Sign Transaction?" <> "Sign Message?")
  /\ (always_allowed wallet_wrapper "Sign Transaction?"
        (snd (isAllowed user_always wallet_wrapper "Sign Message?" (wallet_world user_always)))
      <-> always_allowed wallet_wrapper "Sign Transaction?" (wallet_world user_always)).
Proof.
  assert (H : 0 <> 0 \/ "Sign Transaction?" <> "Sign Message?") by (by right).
  split; [exact H |].
  exact (isAllowed_isolated user_always wallet_wrapper wallet_wrapper
           "Sign Message?" "Sign Transaction?" (wallet_world user_always) H).
Defined.

(** ** Printing *)

Lemma copies_length n c : String.length (copies n c) = n.
Proof. induction n as [| n IH]; [done |]. simpl. by rewrite IH. Qed.

Lemma copies_append a b c : copies a c +:+ copies b c = copies (a + b) c.
Proof. induction a as [| a IH]; [done |]. cbn [Nat.add copies]. by rewrite <- IH. Qed.

Lemma repeat_loop_copies (c : ascii) (fuel : nat) : forall k len,
  exists k', repeat_loop fuel (copies k c) len = copies k' c.
Proof.
  induction fuel as [| fuel IH]; intros k len; cbn [repeat_loop].
  - exists k. by destruct (String.length (copies k c) <? len).
  - destruct (String.length (copies k c) <? len); [| by exists k].
    rewrite copies_append. apply IH.
Qed.

Lemma substring_copies (c : ascii) (n : nat) : forall k,
  n <= k -> substring 0 n (copies k c) = copies n c.
Proof.
  induction n as [| n IH]; intros k Hk.
  - by destruct k.
  - destruct k as [| k]; [lia |]. simpl. f_equal. apply IH. lia.
Qed.

(** X14. [repeat(chr, length)] with a one-character [chr] is that character
    [length] times (the doubling loop ends and the cut is exact). *)
Theorem repeat_copies (c : ascii) (n : nat) :
  repeat (String c EmptyString) n = copies n c.
Proof.
  unfold repeat.
  destruct (repeat_loop_copies c n 1 n) as [k Hk].
  change (String c EmptyString) with (copies 1 c). rewrite Hk.
  apply substring_copies.
  rewrite <- (copies_length k c), <- Hk.
  apply repeat_loop_long; [simpl; lia |].
  assert (n < 2 ^ n) by (apply Nat.pow_gt_lin_r; lia). simpl. lia.
Qed.

Lemma console_log_all_prints lines : forall t,
  console_log_all lines t = (Ok tt, tgrow t lines []).
Proof.
  induction lines as [| l lines IH]; intros t; cbn [console_log_all].
  - unfold ret. by rewrite tgrow_nil.
  - unfold bind, console_log. rewrite IH. unfold tgrow. cbn.
    by rewrite <- app_assoc, !app_nil_r.
Qed.

Lemma dump_entries_prints (M : nat) (info : Info) : forall t,
  exists lines,
    dump_entries M info t = (Ok tt, tgrow t lines [])
    /\ forall key s, (key, IText s) ∈ info ->
         ("  " +:+ key +:+ ":" +:+ repeat " " (M - String.length key) +:+ "  " +:+ s) ∈ lines.
Proof.
  induction info as [| [key v] info IH]; intros t; cbn [dump_entries].
  - exists []. split; [unfold ret; by rewrite tgrow_nil |]. intros key s H.
    by apply elem_of_nil in H.
  - assert (He : exists l1, dump_entry M (key, v) t = (Ok tt, tgrow t l1 [])
                   /\ forall s, v = IText s ->
                        ("  " +:+ key +:+ ":" +:+ repeat " " (M - String.length key)
                         +:+ "  " +:+ s) ∈ l1).
    { destruct v as [s | items]; cbn [dump_entry].
      - eexists [_]. split.
        + unfold console_log, tgrow. by rewrite app_nil_r.
        + intros s' [= <-]. left.
      - eexists (_ :: _). split.
        + unfold bind, console_log. rewrite console_log_all_prints. unfold tgrow. cbn.
          by rewrite <- app_assoc, !app_nil_r.
        + done. }
    destruct He as (l1 & He & Hin1).
    destruct (IH (tgrow t l1 [])) as (l2 & Hr & Hin2).
    exists (l1 ++ l2). split.
    + unfold bind. rewrite He, Hr, tgrow_tgrow. done.
    + intros key' s [[= -> <-] | H]%elem_of_cons.
      * apply elem_of_app. left. by apply Hin1.
      * apply elem_of_app. right. by apply Hin2.
Qed.

Lemma foldl_max_le (info : Info) : forall m,
  m <= foldl (fun m entry => Nat.max m (String.length (fst entry))) m info
  /\ forall key v, (key, v) ∈ info ->
       String.length key
       <= foldl (fun m entry => Nat.max m (String.length (fst entry))) m info.
Proof.
  induction info as [| [k v] info IH]; intros m; cbn [foldl].
  - split; [lia |]. intros key v H. by apply elem_of_nil in H.
  - cbn [fst]. destruct (IH (Nat.max m (String.length k))) as [Hm Hin].
    split; [lia |].
    intros key v' [[= -> ->] | H]%elem_of_cons.
    + lia.
    + by apply (Hin key v').
Qed.

(** X15. [dump] prints the header and then the entries; the values of all
    entries that are not arrays start in the same column. *)
Theorem dump_aligned (header : string) (info : Info) (t : Terminal) :
  exists (column : nat) (lines : list string),
    dump header info t = (Ok tt, tgrow t (header :: lines) [])
    /\ forall key s, (key, IText s) ∈ info ->
         exists pad,
           ("  " +:+ key +:+ ":" +:+ pad +:+ "  " +:+ s) ∈ lines
           /\ String.length ("  " +:+ key +:+ ":" +:+ pad +:+ "  ") = column.
Proof.
  set (M := foldl (fun m entry => Nat.max m (String.length (fst entry))) 0 info).
  destruct (dump_entries_prints M info (tgrow t [header] [])) as (lines & Hr & Hin).
  exists (M + 5), lines. split.
  - unfold dump, bind. fold M.
    replace (console_log header t) with (Ok tt, tgrow t [header] []).
    2:{ unfold console_log, tgrow. by rewrite app_nil_r. }
    rewrite Hr, tgrow_tgrow. done.
  - intros key s Hk. exists (repeat " " (M - String.length key)).
    split; [by apply Hin |].
    destruct (foldl_max_le info 0) as [_ Hle]. specialize (Hle key _ Hk). fold M in Hle.
    rewrite !length_append_string, repeat_length by (simpl; lia).
    simpl. lia.
Qed.

(** ** More on the accounts *)

Section AccountEffects.

Variable C : Collaborators.

Lemma asked_asked w a b : asked (asked w a) b = asked w (a ++ b).
Proof. unfold asked, set_terminal. cbn. by rewrite <- app_assoc. Qed.

Lemma getPassword_answered msg w a :
  password_answer C (length (passwordPrompts (terminal w))) = Ok a ->
  onTerminal (getPassword C msg) w = (Ok a, asked w [msg]).
Proof.
  intros Ha. unfold onTerminal, getPassword. rewrite Ha. reflexivity.
Qed.

Lemma getPassword_rejected msg w e :
  password_answer C (length (passwordPrompts (terminal w))) = Throw e ->
  onTerminal (getPassword C msg) w = (Throw e, wgrow (asked w [msg]) [] [Raised e]).
Proof.
  intros Ha. unfold onTerminal, getPassword. rewrite Ha.
  destruct w as [[cp pp co ev] sf sg aa pl no]. cbn.
  unfold wgrow, tgrow, asked, set_terminal. cbn. by rewrite app_nil_r.
Qed.

Lemma loadAccount_rounds (n : nat) : forall (rounds pid : nat) (w : World),
  (forall k, k < n ->
     password_answer C (length (passwordPrompts (terminal w)) + k) = Ok "-") ->
  n < rounds ->
  loadAccount C rounds (str "-") pid w
  = match password_answer C (length (passwordPrompts (terminal w)) + n) with
    | Ok s =>
        loadAccount C (rounds - S n) (str s) pid
          (asked w (replicate (S n) "Private Key / Mnemonic:"))
    | Throw e =>
        Some (Throw e,
              wgrow (asked w (replicate (S n) "Private Key / Mnemonic:")) [] [Raised e])
    end.
Proof.
  induction n as [| n IH]; intros rounds pid w Hdash Hlt.
  - destruct rounds as [| rounds]; [lia |].
    rewrite loadAccount_sentinel by done. rewrite Nat.add_0_r.
    destruct (password_answer C (length (passwordPrompts (terminal w)))) as [s | e] eqn:Ha.
    + rewrite (getPassword_answered _ _ _ Ha).
      by replace (S rounds - 1) with rounds by lia.
    + by rewrite (getPassword_rejected _ _ _ Ha).
  - destruct rounds as [| rounds]; [lia |].
    rewrite loadAccount_sentinel by done.
    assert (H0 : password_answer C (length (passwordPrompts (terminal w))) = Ok "-").
    { rewrite <- (Nat.add_0_r (length _)). apply Hdash. lia. }
    rewrite (getPassword_answered _ _ _ H0).
    rewrite IH; [| | lia].
    2:{ intros k Hk. cbn [asked set_terminal terminal passwordPrompts].
        rewrite length_app. cbn [length].
        replace (length (passwordPrompts (terminal w)) + 1 + k)
          with (length (passwordPrompts (terminal w)) + S k) by lia.
        apply Hdash. lia. }
    cbn [asked set_terminal terminal passwordPrompts]. rewrite length_app. cbn [length].
    replace (length (passwordPrompts (terminal w)) + 1 + n)
      with (length (passwordPrompts (terminal w)) + S n) by lia.
    replace (S rounds - S (S n)) with (rounds - S n) by lia.
    fold (asked w ["Private Key / Mnemonic:"]).
    by rewrite !asked_asked.
Qed.

End AccountEffects.

(** X16. [loadAccount] given the sentinel [-] asks [Private Key /
    Mnemonic:] again as long as the sentinel is typed; the first other
    answer is then classified as an account given directly, and a prompt
    that fails ends the loop with its error. *)
Theorem loadAccount_asks_until_answered (C : Collaborators) (n rounds pid : nat)
    (w : World) :
  (forall k, k < n ->
     password_answer C (length (passwordPrompts (terminal w)) + k) = Ok "-") ->
  n < rounds ->
  let w' := asked w (replicate (S n) "Private Key / Mnemonic:") in
  (forall s,
     password_answer C (length (passwordPrompts (terminal w)) + n) = Ok s -> s <> "-" ->
     loadAccount C rounds (str "-") pid w = Some (loadAccount_direct C (str s) pid w'))
  /\ (forall e,
        password_answer C (length (passwordPrompts (terminal w)) + n) = Throw e ->
        loadAccount C rounds (str "-") pid w = Some (Throw e, wgrow w' [] [Raised e])).
Proof.
  intros Hdash Hlt. cbn zeta. split.
  - intros s Hs Hne. rewrite (loadAccount_rounds C n) by done. rewrite Hs.
    rewrite loadAccount_not_sentinel; [done |].
    cbn [is_sentinel]. by apply String.eqb_neq.
  - intros e He. rewrite (loadAccount_rounds C n) by done. by rewrite He.
Qed.

Lemma loadAccount_asks_until_answered_witness :
  (forall k, k < 2 ->
     password_answer user_retypes (length (passwordPrompts (terminal sample_world)) + k)
     = Ok "-")
  /\ 2 < 3
  /\ loadAccount user_retypes 3 (str "-") 0 sample_world
     = Some (loadAccount_direct user_retypes (str sample_key) 0
               (asked sample_world (replicate 3 "Private Key / Mnemonic:"))).
Proof.
  assert (H : forall k, k < 2 ->
            password_answer user_retypes
              (length (passwordPrompts (terminal sample_world)) + k) = Ok "-").
  { intros [| [| k]] Hk; [reflexivity | reflexivity | lia]. }
  assert (Hlt : 2 < 3) by lia.
  split; [exact H |]. split; [exact Hlt |].
  destruct (loadAccount_asks_until_answered user_retypes 2 3 0 sample_world H Hlt)
    as [Hanswer _].
  apply Hanswer; [reflexivity | discriminate].
Defined.

Section Allocation.

Variable C : Collaborators.

Lemma allocates_registered pid w address f :
  allocates pid w
    (Ok (mkWrappedSigner (nextObject w) address (provider (get_plugin pid w)) pid))
    (registered f w).
Proof.
  unfold allocates, registered. cbn.
  split; [exists []; by rewrite tgrow_nil |]. repeat split; try done. by exists f.
Qed.

Lemma allocates_raised pid w ev e :
  forallb is_Raised ev = true -> allocates pid w (Throw e) (wgrow w [] ev).
Proof.
  intros Hev. unfold allocates. cbn. split; [by exists ev |]. done.
Qed.

Lemma jsonWallet_outcome arg pid w :
  let handle (e : Exn) :=
    if String.eqb (message e) "cancelled"
    then (Throw (Error "Cancelled."), wgrow w [] [Raised e; Raised (Error "Cancelled.")])
    else if String.eqb (message e) "wrong password"
    then (Throw (Error "Incorrect password."),
          wgrow w [] [Raised e; Raised (Error "Incorrect password.")])
    else (Throw unknown_account, wgrow w [] [Raised e; Raised unknown_account]) in
  loadAccount_jsonWallet C arg pid w
  = match readFileSync C arg with
    | Ok content =>
        match getJsonWalletAddress C content with
        | Ok address =>
            if truthy address
            then (Ok (mkWrappedSigner (nextObject w) (Ok address)
                        (provider (get_plugin pid w)) pid),
                  registered (decrypt_factory C arg content) w)
            else (Throw unknown_account, wgrow w [] [Raised unknown_account])
        | Throw e => handle e
        end
    | Throw e => handle e
    end.
Proof.
  cbn zeta.
  destruct (readFileSync C arg) as [content | e] eqn:Hread.
  - destruct (getJsonWalletAddress C content) as [address | e] eqn:Haddr.
    + destruct (truthy address) eqn:Ht.
      * by apply jsonWallet_found.
      * by apply (jsonWallet_not_a_wallet C arg pid w content address).
    + destruct w as [[cp pp co ev] sf sg aa pl no].
      unfold loadAccount_jsonWallet, bind, try_catch, onTerminal. rewrite Hread. simpl.
      rewrite Haddr. simpl.
      destruct (String.eqb (message e) "cancelled"); simpl.
      { unfold wgrow, tgrow, set_terminal. simpl. by rewrite app_nil_r, <- app_assoc. }
      destruct (String.eqb (message e) "wrong password"); simpl.
      { unfold wgrow, tgrow, set_terminal. simpl. by rewrite app_nil_r, <- app_assoc. }
      unfold wgrow, tgrow, set_terminal. simpl. by rewrite app_nil_r, <- app_assoc.
  - destruct w as [[cp pp co ev] sf sg aa pl no].
    unfold loadAccount_jsonWallet, bind, try_catch, onTerminal. rewrite Hread. simpl.
    destruct (String.eqb (message e) "cancelled"); simpl.
    { unfold wgrow, tgrow, set_terminal. simpl. by rewrite app_nil_r, <- app_assoc. }
    destruct (String.eqb (message e) "wrong password"); simpl.
    { unfold wgrow, tgrow, set_terminal. simpl. by rewrite app_nil_r, <- app_assoc. }
    unfold wgrow, tgrow, set_terminal. simpl. by rewrite app_nil_r, <- app_assoc.
Qed.

Lemma allocates_loadAccount_direct arg pid w :
  allocates pid w (fst (loadAccount_direct C arg pid w)) (snd (loadAccount_direct C arg pid w)).
Proof.
  unfold loadAccount_direct.
  destruct (isHexString C arg 32).
  { rewrite rawKey_outcome. destruct (Wallet_new C arg _) as [signer | e]; cbn [fst snd].
    - apply allocates_registered.
    - by apply allocates_raised. }
  destruct (isValidMnemonic C arg).
  { rewrite mnemonic_outcome.
    destruct (Wallet_fromMnemonic C arg _) as [signer | e]; cbn [fst snd].
    - apply allocates_registered.
    - by apply allocates_raised. }
  rewrite jsonWallet_outcome. cbn zeta.
  destruct (readFileSync C arg) as [content | e].
  - destruct (getJsonWalletAddress C content) as [address | e].
    + destruct (truthy address); cbn [fst snd].
      * apply allocates_registered.
      * by apply allocates_raised.
    + destruct (String.eqb (message e) "cancelled"); [by apply allocates_raised |].
      destruct (String.eqb (message e) "wrong password"); by apply allocates_raised.
  - destruct (String.eqb (message e) "cancelled"); [by apply allocates_raised |].
    destruct (String.eqb (message e) "wrong password"); by apply allocates_raised.
Qed.

End Allocation.

(** X17. Classifying an account other than the sentinel asks nothing, prints
    nothing and materializes no signer: on success exactly one factory is
    registered, under a fresh identity, for a wrapper that carries the
    plugin and its provider; on failure nothing is registered. *)
Theorem loadAccount_only_registers (C : Collaborators) (rounds : nat) (arg : JsValue)
    (pid : nat) (w : World) :
  is_sentinel arg = false ->
  exists r w',
    loadAccount C rounds arg pid w = Some (r, w') /\ allocates pid w r w'.
Proof.
  intros Hs. rewrite loadAccount_not_sentinel by done.
  exists (fst (loadAccount_direct C arg pid w)), (snd (loadAccount_direct C arg pid w)).
  split; [unfold lift; by destruct (loadAccount_direct C arg pid w) |].
  apply allocates_loadAccount_direct.
Qed.

Lemma loadAccount_only_registers_witness :
  is_sentinel (str "wallet.json") = false
  /\ exists r w',
       loadAccount user_always 0 (str "wallet.json") 0 sample_world = Some (r, w')
       /\ allocates 0 sample_world r w'.
Proof.
  split; [reflexivity |].
  apply (loadAccount_only_registers user_always 0 (str "wallet.json") 0 sample_world).
  reflexivity.
Defined.



(** ** More on the option pipeline *)




Section Accounts.

Variable C : Collaborators.
Variable pid : nat.

(** X19. Every failure of an [--account-rpc] option is a usage error: the
    fixed one when there is not exactly one JSON-RPC provider, and otherwise
    [invalid --account-rpc - ] followed by the value, whatever failed
    underneath. *)
Theorem account_rpc_errors_are_usage_errors (rpc : list Provider) (v : JsValue)
    (accs : list WrappedSigner) (w : World) (e : Exn) :
  fst (prepareAccount_rpc C pid rpc v accs w) = Throw e ->
  (length rpc <> 1
   /\ e = UsageError "--account-rpc requires exactly one JSON-RPC provider")
  \/ (length rpc = 1 /\ e = UsageError ("invalid --account-rpc - " +:+ toString v)).
Proof.
  unfold prepareAccount_rpc.
  destruct rpc as [| rpc0 [| rpc1 rpc]].
  - intros [= <-]. by left.
  - unfold try_catch.
    match goal with |- context [bind ?m ?k w] => destruct (bind m k w) as [[a | e0] w1] end.
    + done.
    + intros [= <-]. by right.
  - intros [= <-]. by left.
Qed.






End Accounts.

Lemma account_rpc_errors_are_usage_errors_witness :
  fst (prepareAccount_rpc user_always 0 [] (str "0") [] sample_world)
  = Throw (UsageError "--account-rpc requires exactly one JSON-RPC provider")
  /\ ((length (@nil Provider) <> 1
       /\ UsageError "--account-rpc requires exactly one JSON-RPC provider"
          = UsageError "--account-rpc requires exactly one JSON-RPC provider")
      \/ (length (@nil Provider) = 1
          /\ UsageError "--account-rpc requires exactly one JSON-RPC provider"
             = UsageError ("invalid --account-rpc - " +:+ toString (str "0")))).
Proof.
  split; [reflexivity |].
  apply (account_rpc_errors_are_usage_errors user_always 0 [] (str "0") [] sample_world).
  reflexivity.
Defined.



(** ** Plugin.getAddress *)

Section GetAddressFacts.

Variable C : Collaborators.
Variable AddressZero : string.
Variable pid : nat.

Lemma Plugin_getAddress_literal s message allowZero w a :
  getAddress C s = Ok a ->
  Plugin_getAddress C AddressZero pid s message allowZero w = (Ok a, w).
Proof.
  intros Ha. destruct w as [[cp pp co ev] sf sg aa pl no].
  unfold Plugin_getAddress, bind, try_catch, onTerminal. rewrite Ha. reflexivity.
Qed.

Lemma Plugin_getAddress_result s message allowZero w :
  fst (Plugin_getAddress C AddressZero pid s message allowZero w)
  = match getAddress C s with
    | Ok a => Ok a
    | Throw _ =>
        match provider (get_plugin pid w) with
        | Some p =>
            match provider_resolveName p (str s) with
            | Ok (str a) =>
                if String.eqb a AddressZero && negb allowZero
                then Throw (Error (error_message message))
                else Ok a
            | Ok _ => Throw (Error ("ENS name not configured - " +:+ s))
            | Throw e => Throw e
            end
        | None => Throw (Error "Cannot read property 'resolveName' of undefined")
        end
    end.
Proof.
  destruct (getAddress C s) as [a | e0] eqn:Ha.
  { by rewrite (Plugin_getAddress_literal _ _ _ _ a). }
  destruct w as [[cp pp co ev] sf sg aa pl no].
  unfold Plugin_getAddress, bind, try_catch, onTerminal, plugin_provider. rewrite Ha.
  cbn [call raise emit throw bind ret fst snd terminal set_terminal].
  destruct (provider (get_plugin pid _)) as [p |]; [| reflexivity].
  destruct (provider_resolveName p (str s)) as [[| | a] | e]; try reflexivity.
  cbn [call raise emit throw bind ret fst snd terminal set_terminal].
  destruct (String.eqb a AddressZero && negb allowZero); reflexivity.
Qed.

End GetAddressFacts.

(** X21. [Plugin.getAddress]: a valid address is returned as it is, without
    provider and without the zero-address check, which applies to resolved
    names only; otherwise the result is the resolved name, and the failures
    are those of the lookup, [ENS name not configured - ] followed by the
    name for an unknown name, and the caller's message for a zero address
    that is not allowed. *)
Theorem getAddress_outcomes (C : Collaborators) (AddressZero : string) (pid : nat)
    (s : string) (message : JsValue) (allowZero : bool) (w : World) :
  let r := fst (Plugin_getAddress C AddressZero pid s message allowZero w) in
  (forall a, getAddress C s = Ok a ->
     Plugin_getAddress C AddressZero pid s message allowZero w = (Ok a, w))
  /\ (forall a, r = Ok a ->
        getAddress C s = Ok a
        \/ exists p,
             provider (get_plugin pid w) = Some p
             /\ provider_resolveName p (str s) = Ok (str a)
             /\ (a = AddressZero -> allowZero = true))
  /\ (forall e, r = Throw e ->
        (exists e0, getAddress C s = Throw e0)
        /\ ((provider (get_plugin pid w) = None
             /\ e = Error "Cannot read property 'resolveName' of undefined")
            \/ exists p,
                 provider (get_plugin pid w) = Some p
                 /\ (provider_resolveName p (str s) = Throw e
                     \/ ((provider_resolveName p (str s) = Ok undefined
                          \/ provider_resolveName p (str s) = Ok null)
                         /\ e = Error ("ENS name not configured - " +:+ s))
                     \/ (provider_resolveName p (str s) = Ok (str AddressZero)
                         /\ allowZero = false
                         /\ e = Error (error_message message))))).
Proof.
  cbn zeta. split; [intros a; apply Plugin_getAddress_literal |].
  rewrite Plugin_getAddress_result.
  destruct (getAddress C s) as [a0 | e0].
  { split; [intros a [= <-]; by left | done]. }
  destruct (provider (get_plugin pid w)) as [p |] eqn:Hp.
  2:{ split; [done |]. intros e [= <-]. split; [by exists e0 | by left]. }
  destruct (provider_resolveName p (str s)) as [[| | a0] | e1] eqn:Hr.
  - split; [done |]. intros e [= <-]. split; [by exists e0 |].
    right. exists p. split; [done |]. right; left. split; [by left | done].
  - split; [done |]. intros e [= <-]. split; [by exists e0 |].
    right. exists p. split; [done |]. right; left. split; [by right | done].
  - destruct (String.eqb_spec a0 AddressZero) as [-> | Hne]; cbn [andb].
    + destruct allowZero; cbn [negb].
      * split; [| done]. intros a [= <-]. right. by exists p.
      * split; [done |]. intros e [= <-]. split; [by exists e0 |].
        right. exists p. split; [done |]. right; right. done.
    + split; [| done]. intros a [= <-]. right. exists p. split; [done |]. split; [done |].
      done.
  - split; [done |]. intros e [= <-]. split; [by exists e0 |].
    right. exists p. split; [done |]. by left.
Qed.

Lemma getAddress_outcomes_witness :
  getAddress user_always "0x0000000000000000000000000000000000000000"
  = Ok "0x0000000000000000000000000000000000000000"
  /\ Plugin_getAddress user_always "0x0000000000000000000000000000000000000000" 0
       "0x0000000000000000000000000000000000000000" (str "no zero address") false
       sample_world
     = (Ok "0x0000000000000000000000000000000000000000", sample_world).
Proof.
  split; [reflexivity |].
  destruct (getAddress_outcomes user_always "0x0000000000000000000000000000000000000000" 0
              "0x0000000000000000000000000000000000000000" (str "no zero address") false
              sample_world) as [Hliteral _].
  apply Hliteral. reflexivity.
Defined.

(** ** The command line runner *)

Lemma showUsage_prints cli message status w :
  showUsage cli message status w
  = (Exited (default 0%Z status), wgrow w (usage cli message) []).
Proof.
  unfold showUsage, onTerminal. by rewrite console_log_all_prints.
Qed.

Lemma reject_effect e w : reject e w = (Rejected e, wgrow w [] [Raised e]).
Proof.
  unfold reject, onTerminal, emit, wgrow, tgrow. cbn. by rewrite app_nil_r.
Qed.

Lemma consumeFlag_by_occurrences nm p :
  fst (ArgParser.consumeFlag nm p)
  = if 1 <? occurrences nm (ArgParser._args p)
    then Throw (UsageError ArgParser.consumeFlag_message)
    else Ok (occurrences nm (ArgParser._args p) =? 1).
Proof. rewrite ArgParserFacts.consumeFlag_result. cbn zeta. by rewrite hits_occurrences. Qed.

Lemma consumeFlag_usage nm p e :
  fst (ArgParser.consumeFlag nm p) = Throw e -> isUsageError e = true.
Proof.
  rewrite consumeFlag_by_occurrences. destruct (1 <? _); [| done]. by intros [= <-].
Qed.

Lemma consumeOption_usage nm p e :
  fst (ArgParser.consumeOption nm p) = Throw e -> isUsageError e = true.
Proof.
  rewrite consumeOption_result, consumeOptions_result.
  destruct (ArgParserFacts.consumeMultiOptions_never_throws [nm] p) as [os ->].
  destruct (1 <? _); [| done]. by intros [= <-].
Qed.

(** A loop of parser queries whose answers depend on the tokens only. *)
Section Queries.

Context {B : Type}.
Variable f : string -> ST ArgParser.t B.
Hypothesis f_args : forall nm p, ArgParser._args (snd (f nm p)) = ArgParser._args p.
Hypothesis f_indep : forall nm p p',
  ArgParser._args p' = ArgParser._args p -> fst (f nm p') = fst (f nm p).

Lemma forEach_args l : forall p,
  ArgParser._args (snd (forEach f l p)) = ArgParser._args p.
Proof.
  induction l as [| nm l IH]; intros p; cbn [forEach]; [done |].
  unfold bind. pose proof (f_args nm p) as Hf.
  destruct (f nm p) as [[b | e] p1]; cbn [snd] in *; [| done].
  by rewrite IH.
Qed.

Lemma forEach_Throw l : forall p e,
  fst (forEach f l p) = Throw e ->
  exists nm, nm ∈ l /\ fst (f nm (ArgParser.new (ArgParser._args p))) = Throw e.
Proof.
  induction l as [| nm l IH]; intros p e; cbn [forEach]; [done |].
  unfold bind. pose proof (f_args nm p) as Hf.
  pose proof (f_indep nm p (ArgParser.new (ArgParser._args p)) eq_refl) as Hi.
  destruct (f nm p) as [[b | e1] p1]; cbn [fst snd] in *.
  - intros H. destruct (IH p1 e H) as (nm' & Hin & Hnm'). exists nm'.
    split; [by right |]. by rewrite <- Hf.
  - intros [= <-]. exists nm. split; [left | done].
Qed.

Lemma forEach_Ok l : forall p,
  (forall nm, nm ∈ l -> exists b, fst (f nm (ArgParser.new (ArgParser._args p))) = Ok b) ->
  fst (forEach f l p) = Ok tt.
Proof.
  induction l as [| nm l IH]; intros p Hall; cbn [forEach]; [done |].
  unfold bind. pose proof (f_args nm p) as Hf.
  pose proof (f_indep nm p (ArgParser.new (ArgParser._args p)) eq_refl) as Hi.
  destruct (Hall nm) as [b Hb]; [left |].
  destruct (f nm p) as [[b1 | e1] p1]; cbn [fst snd] in *; [| congruence].
  apply IH. intros nm' Hin. rewrite Hf. apply Hall. by right.
Qed.

Lemma forEach_fails l nm e0 : forall p,
  nm ∈ l -> fst (f nm (ArgParser.new (ArgParser._args p))) = Throw e0 ->
  exists e, fst (forEach f l p) = Throw e.
Proof.
  induction l as [| nm' l IH]; intros p Hin Hnm; [by apply elem_of_nil in Hin |].
  cbn [forEach]. unfold bind. pose proof (f_args nm' p) as Hf.
  pose proof (f_indep nm' p (ArgParser.new (ArgParser._args p)) eq_refl) as Hi.
  destruct (f nm' p) as [[b1 | e1] p1]; cbn [fst snd] in *; [| by exists e1].
  apply elem_of_cons in Hin as [-> | Hin]; [congruence |].
  apply IH; [done |]. by rewrite Hf.
Qed.

(** Marks that every query leaves alone are left alone by the loop. *)
Lemma forEach_keeps (Q : ArgParser.t -> Prop) l :
  (forall nm p, nm ∈ l -> Q p -> Q (snd (f nm p))) ->
  forall p, Q p -> Q (snd (forEach f l p)).
Proof.
  induction l as [| nm l IH]; intros Hstep p Hp; cbn [forEach]; [done |].
  unfold bind. pose proof (Hstep nm p (list_elem_of_here _ _) Hp) as Hq.
  destruct (f nm p) as [[b1 | e1] p1]; cbn [snd] in *; [| done].
  apply IH; [| done]. intros nm' p' Hin. apply Hstep. by right.
Qed.

End Queries.

Lemma consumeOption_args nm p :
  ArgParser._args (snd (ArgParser.consumeOption nm p)) = ArgParser._args p.
Proof. rewrite consumeOption_state. apply consumeMultiOptions_args. Qed.

(** The temporary parser of [run], as one loop over the flags followed by
    one over the options. *)
Lemma find_command_scan cli args :
  find_command cli args
  = match (forEach ArgParser.consumeFlag standard_flags ;;;
           forEach ArgParser.consumeOption standard_options) (ArgParser.new args) with
    | (Throw e, _) => Throw e
    | (Ok _, argParser) =>
        let commandIndex := ArgParser._checkCommandIndex argParser in
        if (commandIndex =? -1)%Z then Ok (defaultCommand cli, args)
        else Ok (array_get args (Z.to_nat commandIndex),
                 delete (Z.to_nat commandIndex) args)
    end.
Proof.
  unfold find_command, standard_flags. cbn [forEach app]. unfold bind, ret.
  repeat match goal with
         | |- context [ArgParser.consumeFlag ?nm ?p] =>
             destruct (ArgParser.consumeFlag nm p) as [[? | ?] ?]; [| reflexivity]
         end.
  reflexivity.
Qed.

Lemma scan_Throw args e p :
  (forEach ArgParser.consumeFlag standard_flags ;;;
   forEach ArgParser.consumeOption standard_options) (ArgParser.new args) = (Throw e, p) ->
  isUsageError e = true.
Proof.
  unfold bind.
  destruct (forEach ArgParser.consumeFlag standard_flags (ArgParser.new args))
    as [[u | e1] p1] eqn:Hflags.
  - intros H.
    destruct (forEach_Throw ArgParser.consumeOption consumeOption_args
                consumeOption_marks_indep standard_options p1 e) as (nm & _ & Hnm).
    { by rewrite H. }
    by apply consumeOption_usage in Hnm.
  - intros [= <- <-].
    destruct (forEach_Throw ArgParser.consumeFlag ArgParserFacts.consumeFlag_args
                consumeFlag_marks_indep standard_flags (ArgParser.new args) e1)
      as (nm & _ & Hnm).
    { by rewrite Hflags. }
    by apply consumeFlag_usage in Hnm.
Qed.

Lemma find_command_usage cli args e :
  find_command cli args = Throw e -> isUsageError e = true.
Proof.
  rewrite find_command_scan.
  destruct ((forEach ArgParser.consumeFlag standard_flags ;;;
             forEach ArgParser.consumeOption standard_options) (ArgParser.new args))
    as [[u | e1] p] eqn:Hscan.
  - cbn zeta. by destruct (_ =? _)%Z.
  - intros [= <-]. by apply scan_Throw in Hscan.
Qed.

Section RunnerFacts.

Variable inspect : Exn -> string.
Variable cli : CLI.

(** X22. With [--help] given once among the arguments left once the command
    is taken out, [CLI.run] prints the usage, without a message, and exits
    with status 0; no plugin is constructed. *)
Theorem run_help (args : list string) (command : JsValue) (args' : list string)
    (w : World) :
  find_command cli args = Ok (command, args') ->
  occurrences "help" args' = 1 ->
  CLI_run inspect cli args w = Some (Exited 0, wgrow w (usage cli undefined) []).
Proof.
  intros Hfind Hhelp. unfold CLI_run. rewrite Hfind.
  pose proof (consumeFlag_by_occurrences "help" (ArgParser.new args')) as Hr.
  cbn [ArgParser.new ArgParser._args] in Hr. rewrite Hhelp in Hr. cbn in Hr.
  destruct (ArgParser.consumeFlag "help" (ArgParser.new args')) as [r p].
  cbn [fst] in Hr. subst r. by rewrite showUsage_prints.
Qed.

Lemma run_dispatch (args : list string) (command : JsValue) (args' : list string)
    (w : World) :
  find_command cli args = Ok (command, args') ->
  occurrences "help" args' = 0 ->
  occurrences "debug" args' <= 1 ->
  exists argParser,
    ArgParser._args argParser = args'
    /\ CLI_run inspect cli args w
       = match new_plugin cli command w with
         | (Throw _, w1) =>
             Some (if truthy command
                   then showUsage cli (str ("unknown command - " +:+ toString command))
                          None w1
                   else showUsage cli (str "no command provided") (Some 1%Z) w1)
         | (Ok plugin, w1) =>
             match plugin_steps plugin (argParser, w1) with
             | None => None
             | Some (Ok _, (_, w2)) => Some (Resolved, w2)
             | Some (Throw error, (_, w2)) =>
                 Some (report inspect cli (occurrences "debug" args' =? 1) error w2)
             end
         end.
Proof.
  intros Hfind Hhelp Hdebug. unfold CLI_run. rewrite Hfind.
  pose proof (consumeFlag_by_occurrences "help" (ArgParser.new args')) as Hr.
  pose proof (ArgParserFacts.consumeFlag_args "help" (ArgParser.new args')) as Ha.
  cbn [ArgParser.new ArgParser._args] in Hr, Ha. rewrite Hhelp in Hr. cbn in Hr.
  destruct (ArgParser.consumeFlag "help" (ArgParser.new args')) as [r p].
  cbn [fst snd] in Hr, Ha. subst r.
  pose proof (consumeFlag_by_occurrences "debug" p) as Hr.
  pose proof (ArgParserFacts.consumeFlag_args "debug" p) as Ha'.
  rewrite Ha in Hr.
  destruct (Nat.ltb_spec 1 (occurrences "debug" args')) as [? | _]; [lia |].
  destruct (ArgParser.consumeFlag "debug" p) as [r p'].
  cbn [fst snd] in Hr, Ha'. subst r.
  exists p'. split; [congruence | done].
Qed.

(** X23. A command that is not registered makes [CLI.run] print the usage
    followed by [unknown command - ] and the command, and exit with status
    0; with no command at all the message is [no command provided] and the
    status 1. *)
Theorem run_unknown_command (args : list string) (command : JsValue)
    (args' : list string) (w : World) :
  find_command cli args = Ok (command, args') ->
  occurrences "help" args' = 0 ->
  occurrences "debug" args' <= 1 ->
  own_property (cli_plugins cli) (toString command) = None ->
  toString command <> "constructor" ->
  let w' message :=
    wgrow (wgrow w [] [Raised (Error "this.plugins[command] is not a constructor")])
      (usage cli (str message)) [] in
  CLI_run inspect cli args w
  = Some (if truthy command
          then (Exited 0, w' ("unknown command - " +:+ toString command))
          else (Exited 1, w' "no command provided")).
Proof.
  intros Hfind Hhelp Hdebug Hown Hctor. cbn zeta.
  destruct (run_dispatch args command args' w Hfind Hhelp Hdebug) as (p & _ & ->).
  unfold new_plugin, plugins_get. rewrite Hown.
  destruct (String.eqb_spec (toString command) "constructor") as [? | _]; [done |].
  replace (onTerminal (raise (Error "this.plugins[command] is not a constructor")) w)
    with (@Throw Constructed (Error "this.plugins[command] is not a constructor"),
          wgrow w [] [Raised (Error "this.plugins[command] is not a constructor")]).
  2:{ unfold onTerminal, raise, bind, emit, throw, wgrow, tgrow. cbn. by rewrite app_nil_r. }
  rewrite !showUsage_prints. by destruct (truthy command).
Qed.

(** X24. The command [constructor], when not registered, is found in
    [Object.prototype]: [new] succeeds, the object has no [prepareOptions],
    and [CLI.run] prints an error and exits with status 2, without usage. *)
Theorem run_constructor_command (args : list string) (args' : list string) (w : World) :
  find_command cli args = Ok (str "constructor", args') ->
  occurrences "help" args' = 0 ->
  occurrences "debug" args' = 0 ->
  own_property (cli_plugins cli) "constructor" = None ->
  CLI_run inspect cli args w
  = Some (Exited 2,
          wgrow w [ "Error: plugin.prepareOptions is not a function" ]
            [ Raised (Error "plugin.prepareOptions is not a function") ]).
Proof.
  intros Hfind Hhelp Hdebug Hown.
  destruct (run_dispatch args (str "constructor") args' w Hfind Hhelp) as (p & _ & ->);
    [lia |].
  unfold new_plugin, plugins_get. cbn [toString]. rewrite Hown, Hdebug.
  destruct w as [[cp pp co ev] sf sg aa pl no]. cbn. unfold wgrow, tgrow, set_terminal. cbn.
  reflexivity.
Qed.


End RunnerFacts.

Lemma scan_fails args nm :
  (nm ∈ standard_flags /\ 2 <= occurrences nm args)
  \/ (nm ∈ standard_options
      /\ exists e0, fst (ArgParser.consumeOption nm (ArgParser.new args)) = Throw e0) ->
  exists e,
    fst ((forEach ArgParser.consumeFlag standard_flags ;;;
          forEach ArgParser.consumeOption standard_options) (ArgParser.new args))
    = Throw e.
Proof.
  intros Hrep. unfold bind.
  pose proof (forEach_args ArgParser.consumeFlag ArgParserFacts.consumeFlag_args
                standard_flags (ArgParser.new args)) as Hargs.
  destruct (forEach ArgParser.consumeFlag standard_flags (ArgParser.new args))
    as [[u | e1] p1] eqn:Hflags; [| by exists e1].
  cbn [snd] in Hargs.
  destruct Hrep as [[Hin Hocc] | [Hin [e0 He0]]].
  - exfalso.
    destruct (forEach_fails ArgParser.consumeFlag ArgParserFacts.consumeFlag_args
                consumeFlag_marks_indep standard_flags nm
                (UsageError ArgParser.consumeFlag_message) (ArgParser.new args) Hin)
      as [e He].
    { rewrite consumeFlag_by_occurrences. cbn [ArgParser.new ArgParser._args].
      by destruct (Nat.ltb_spec 1 (occurrences nm args)); [| lia]. }
    rewrite Hflags in He. done.
  - destruct (forEach_fails ArgParser.consumeOption consumeOption_args
                consumeOption_marks_indep standard_options nm e0 p1 Hin) as [e He].
    { rewrite Hargs. exact He0. }
    exists e. by destruct (forEach ArgParser.consumeOption standard_options p1) as [[] ?].
Qed.

(** *** The first token *)

Lemma consumeMultiOptions_loop_below names len rest : forall i c r j,
  j < i ->
  ArgParser.is_consumed (snd (ArgParser.consumeMultiOptions_loop names len rest i c r)) j
  = ArgParser.is_consumed c j.
Proof.
  revert rest.
  apply (consumeMultiOptions_loop_ind names len
           (fun rest i c r out =>
              forall j, j < i ->
                ArgParser.is_consumed (snd out) j = ArgParser.is_consumed c j)).
  - done.
  - done.
  - intros arg rest i c r _ _ IH j Hj. apply IH. lia.
  - done.
  - intros arg i c r _ _ _ _ j Hj. cbn [snd]. rewrite !is_consumed_mark.
    destruct (Nat.eqb_spec j (S i)); [lia |]. by destruct (Nat.eqb_spec j i); [lia |].
  - intros arg v rest i c r _ _ _ _ IH j Hj. rewrite IH by lia. rewrite !is_consumed_mark.
    destruct (Nat.eqb_spec j (S i)); [lia |]. by destruct (Nat.eqb_spec j i); [lia |].
Qed.

Section Head.

Variable t : string.
Variable rest : list string.

Lemma consumeFlag_keeps_head nm p :
  t <> "--" +:+ nm -> head_kept t rest p -> head_kept t rest (snd (ArgParser.consumeFlag nm p)).
Proof.
  intros Hne [Hargs Hc]. split; [by rewrite ArgParserFacts.consumeFlag_args |].
  rewrite ArgParserFacts.consumeFlag_consumed, is_consumed_foldl_mark, Hc, orb_false_r.
  apply bool_decide_eq_false_2. rewrite Hargs. cbn [ArgParser.hits].
  destruct (String.eqb t "--"); [apply not_elem_of_nil |].
  destruct (String.eqb_spec t ("--" +:+ nm)); [done |].
  intros Hin. apply ArgParserFacts.hits_bound in Hin. lia.
Qed.

Lemma consumeOption_keeps_head nm p :
  t <> "--" +:+ nm -> head_kept t rest p -> head_kept t rest (snd (ArgParser.consumeOption nm p)).
Proof.
  intros Hne [Hargs Hc]. rewrite consumeOption_state.
  split; [by rewrite consumeMultiOptions_args |].
  rewrite consumeMultiOptions_consumed, Hargs.
  destruct (String.eqb_spec t "--") as [-> | Hsep]; [done |].
  rewrite consumeMultiOptions_loop_eq_skip; [| done |].
  - by rewrite consumeMultiOptions_loop_below by lia.
  - destruct (option_like t) eqn:Hopt; [right | by left].
    intros Hin%list_elem_of_singleton. apply Hne.
    rewrite <- Hin. by apply option_like_split.
Qed.

End Head.

Lemma scan_keeps_head t rest :
  t ∉ map (fun nm => "--" +:+ nm) (standard_flags ++ standard_options) ->
  head_kept t rest
    (snd ((forEach ArgParser.consumeFlag standard_flags ;;;
           forEach ArgParser.consumeOption standard_options) (ArgParser.new (t :: rest)))).
Proof.
  intros Hnot.
  assert (Hne : forall nm, nm ∈ standard_flags ++ standard_options -> t <> "--" +:+ nm).
  { intros nm Hin ->. apply Hnot. apply list_elem_of_fmap. by exists nm. }
  assert (H0 : head_kept t rest (ArgParser.new (t :: rest))).
  { split; [done | apply is_consumed_new]. }
  unfold bind.
  pose proof (forEach_keeps ArgParser.consumeFlag (head_kept t rest) standard_flags) as Hf.
  specialize (Hf (fun nm p Hin => consumeFlag_keeps_head t rest nm p
                                    (Hne nm (proj2 (elem_of_app _ _ _) (or_introl Hin))))).
  specialize (Hf _ H0).
  destruct (forEach ArgParser.consumeFlag standard_flags (ArgParser.new (t :: rest)))
    as [[u | e] p1]; cbn [snd] in Hf; [| done].
  apply (forEach_keeps ArgParser.consumeOption (head_kept t rest) standard_options);
    [| done].
  intros nm p Hin. apply consumeOption_keeps_head, Hne. apply elem_of_app. by right.
Qed.

Section RunnerRejects.

Variable inspect : Exn -> string.
Variable cli : CLI.

(** X26. A standard flag given twice, or a standard option given twice (such
    as two [--account]), makes [CLI.run] reject with a usage error before
    anything is printed or constructed. *)
Theorem run_rejects_repeats (args : list string) (w : World) (nm : string) :
  (nm ∈ standard_flags /\ 2 <= occurrences nm args)
  \/ (nm ∈ standard_options
      /\ exists e0, fst (ArgParser.consumeOption nm (ArgParser.new args)) = Throw e0) ->
  exists e,
    CLI_run inspect cli args w = Some (Rejected e, wgrow w [] [Raised e])
    /\ isUsageError e = true.
Proof.
  intros Hrep. destruct (scan_fails args nm Hrep) as [e He].
  assert (Hfind : find_command cli args = Throw e).
  { rewrite find_command_scan.
    destruct ((forEach ArgParser.consumeFlag standard_flags ;;;
               forEach ArgParser.consumeOption standard_options) (ArgParser.new args))
      as [r p]. cbn [fst] in He. by subst r. }
  exists e. split; [| by apply (find_command_usage cli args)].
  unfold CLI_run. by rewrite Hfind, reject_effect.
Qed.

(** X27. A first token that is not a standard flag or option is the command
    and is removed from the arguments (unless a repeated flag or option
    makes the search fail); [value] is not among the standard options, so
    [--value] given first is taken as the command. *)
Theorem leading_token_is_command (t : string) (rest : list string) :
  t ∉ map (fun nm => "--" +:+ nm) (standard_flags ++ standard_options) ->
  find_command cli (t :: rest) = Ok (str t, rest)
  \/ exists e, find_command cli (t :: rest) = Throw e /\ isUsageError e = true.
Proof.
  intros Hnot. pose proof (scan_keeps_head t rest Hnot) as Hkept.
  destruct (find_command cli (t :: rest)) as [r | e] eqn:Hfind.
  2:{ right. exists e. split; [done |]. by apply (find_command_usage cli (t :: rest)). }
  left. rewrite find_command_scan in Hfind.
  destruct ((forEach ArgParser.consumeFlag standard_flags ;;;
             forEach ArgParser.consumeOption standard_options) (ArgParser.new (t :: rest)))
    as [[u | e] p]; [| done].
  destruct Hkept as [Hargs Hc]. cbn [snd] in Hargs, Hc.
  unfold ArgParser._checkCommandIndex in Hfind. rewrite Hargs in Hfind.
  cbn [ArgParser._checkCommandIndex_loop] in Hfind. rewrite Hc in Hfind.
  change (Ok (str t, rest) = Ok r) in Hfind. congruence.
Qed.

End RunnerRejects.

Lemma run_help_witness :
  find_command sample_cli ["noop"; "--help"] = Ok (str "noop", ["--help"])
  /\ occurrences "help" ["--help"] = 1
  /\ CLI_run (fun _ => "error") sample_cli ["noop"; "--help"] sample_world
     = Some (Exited 0, wgrow sample_world (usage sample_cli undefined) []).
Proof.
  assert (H1 : find_command sample_cli ["noop"; "--help"] = Ok (str "noop", ["--help"]))
    by (vm_compute; reflexivity).
  assert (H2 : occurrences "help" ["--help"] = 1) by reflexivity.
  split; [exact H1 |]. split; [exact H2 |].
  exact (run_help (fun _ => "error") sample_cli ["noop"; "--help"] (str "noop")
           ["--help"] sample_world H1 H2).
Defined.

Lemma run_unknown_command_witness :
  CLI_run (fun _ => "error") sample_cli ["sned"; "--yes"] sample_world
  = Some (Exited 0,
          wgrow (wgrow sample_world []
                   [Raised (Error "this.plugins[command] is not a constructor")])
            (usage sample_cli (str "unknown command - sned")) []).
Proof.
  apply (run_unknown_command (fun _ => "error") sample_cli ["sned"; "--yes"] (str "sned")
           ["--yes"] sample_world).
  - vm_compute. reflexivity.
  - reflexivity.
  - vm_compute. lia.
  - reflexivity.
  - discriminate.
Defined.

Lemma run_constructor_command_witness :
  CLI_run (fun _ => "error") sample_cli ["constructor"] sample_world
  = Some (Exited 2,
          wgrow sample_world [ "Error: plugin.prepareOptions is not a function" ]
            [ Raised (Error "plugin.prepareOptions is not a function") ]).
Proof.
  apply (run_constructor_command (fun _ => "error") sample_cli ["constructor"] []
           sample_world).
  - vm_compute. reflexivity.
  - reflexivity.
  - reflexivity.
  - reflexivity.
Defined.


Lemma run_rejects_repeats_witness :
  "account" ∈ standard_options
  /\ fst (ArgParser.consumeOption "account"
            (ArgParser.new ["noop"; "--account"; "a.json"; "--account"; "b.json"]))
     = Throw (UsageError "expected at most one --account")
  /\ exists e,
       CLI_run (fun _ => "error") sample_cli
         ["noop"; "--account"; "a.json"; "--account"; "b.json"] sample_world
       = Some (Rejected e, wgrow sample_world [] [Raised e])
       /\ isUsageError e = true.
Proof.
  assert (H1 : "account" ∈ standard_options).
  { unfold standard_options. do 2 right. left. }
  assert (H2 : fst (ArgParser.consumeOption "account"
                      (ArgParser.new ["noop"; "--account"; "a.json"; "--account"; "b.json"]))
               = Throw (UsageError "expected at most one --account")) by reflexivity.
  split; [exact H1 |]. split; [exact H2 |].
  apply (run_rejects_repeats (fun _ => "error") sample_cli
           ["noop"; "--account"; "a.json"; "--account"; "b.json"] sample_world "account").
  right. split; [exact H1 |]. eexists. exact H2.
Defined.

Lemma leading_token_is_command_witness :
  ("--value" ∉ map (fun nm => "--" +:+ nm) (standard_flags ++ standard_options))
  /\ (find_command sample_cli ["--value"; "1.5"; "noop"] = Ok (str "--value", ["1.5"; "noop"])
      \/ exists e, find_command sample_cli ["--value"; "1.5"; "noop"] = Throw e
                   /\ isUsageError e = true).
Proof.
  assert (H : "--value" ∉ map (fun nm => "--" +:+ nm) (standard_flags ++ standard_options)).
  { intros Hin. apply list_elem_of_In in Hin. vm_compute in Hin.
    repeat (destruct Hin as [Hin | Hin]; [discriminate Hin |]). exact Hin. }
  split; [exact H |].
  exact (leading_token_is_command sample_cli "--value" ["1.5"; "noop"] H).
Defined.

(** ** A trailing option *)

Lemma consumeOption_trailing (nm : string) (pre : list string) (consumed : list bool) :
  nm <> EmptyString -> "--" ∉ pre -> "--" +:+ nm ∉ pre ->
  ArgParser.consumeOption nm (ArgParser.mk (pre ++ ["--" +:+ nm]) consumed)
  = (Ok undefined,
     ArgParser.mk (pre ++ ["--" +:+ nm])
       (ArgParser.mark (ArgParser.mark consumed (length pre)) (S (length pre)))).
Proof.
  intros Hnm Hsep Hpre.
  unfold ArgParser.consumeOption, ArgParser.consumeOptions, ArgParser.consumeMultiOptions.
  cbn [ArgParser._args ArgParser._consumed].
  rewrite consumeMultiOptions_loop_skip by done.
  rewrite consumeMultiOptions_loop_eq_match.
  - destruct (Nat.eqb_spec (length (pre ++ ["--" +:+ nm])) (0 + length pre)) as [Heq | _].
    { rewrite length_app in Heq. simpl in Heq. lia. }
    destruct nm; [done |]. reflexivity.
  - intros H. apply (f_equal String.length) in H. rewrite length_append_string in H.
    destruct nm; [done | simpl in H; lia].
  - apply option_like_prefix.
  - destruct nm; [done |]. apply list_elem_of_singleton. reflexivity.
Qed.

(** X28. A transaction option given last without a value is ignored in
    silence: no error, no conversion, no change to the plugin; the option is
    consumed, with a mark written one past the end of [_consumed]. *)
Theorem trailing_option_is_ignored {A : Type} (pid : nat) (nm : string)
    (convert : string -> Result A) (set : A -> Plugin -> Plugin)
    (pre : list string) (consumed : list bool) (w : World) :
  nm <> EmptyString -> "--" ∉ pre -> "--" +:+ nm ∉ pre ->
  transactionOption pid nm convert set (ArgParser.mk (pre ++ ["--" +:+ nm]) consumed, w)
  = (Ok tt,
     (ArgParser.mk (pre ++ ["--" +:+ nm])
        (ArgParser.mark (ArgParser.mark consumed (length pre)) (S (length pre))),
      w)).
Proof.
  intros Hnm Hsep Hpre.
  apply (transactionOption_absent pid nm convert set _ _ w undefined); [| done].
  by apply consumeOption_trailing.
Qed.

Lemma trailing_option_is_ignored_witness :
  transactionOption 0 "nonce" (BigNumber_from user_always) set_nonce
    (ArgParser.new (["send"] ++ ["--nonce"]), sample_world)
  = (Ok tt, (ArgParser.mk ["send"; "--nonce"] [false; true; true], sample_world)).
Proof.
  apply (trailing_option_is_ignored 0 "nonce" (BigNumber_from user_always) set_nonce
           ["send"] [false; false] sample_world).
  - discriminate.
  - intros Hin. apply list_elem_of_In in Hin. vm_compute in Hin.
    repeat (destruct Hin as [Hin | Hin]; [discriminate Hin |]). exact Hin.
  - intros Hin. apply list_elem_of_In in Hin. vm_compute in Hin.
    repeat (destruct Hin as [Hin | Hin]; [discriminate Hin |]). exact Hin.
Defined.

(** ** The usage text *)

Lemma append_assoc_string (a b c : string) : (a +:+ b) +:+ c = a +:+ (b +:+ c).
Proof.
  induction a as [| x a IH]; [done |].
  change (String x ((a +:+ b) +:+ c) = String x (a +:+ (b +:+ c))). by rewrite IH.
Qed.

(** X29. In the usage text the help of a command starts in column 30 of its
    line (on a line of its own when the name is long), and the help of an
    option whose name has at most 27 characters starts in column 33. *)
Theorem help_text_columns (plugin : PluginType) (help : Help) :
  getHelp plugin = Some (Some help) ->
  (exists prefix,
     prefix +:+ help_help help ∈ help_lines plugin /\ String.length prefix = 30)
  /\ (forall optionHelp h,
        getOptionHelp plugin = Some optionHelp -> h ∈ optionHelp ->
        String.length (help_name h) <= 27 ->
        exists prefix,
          prefix +:+ help_help h ∈ help_lines plugin /\ String.length prefix = 33).
Proof.
  intros Hhelp. unfold help_lines. rewrite Hhelp. split.
  - destruct (Nat.ltb_spec 28 (String.length ("   " +:+ help_name help))) as [Hlong | Hshort].
    + exists (repeat " " 30). split; [| by apply repeat_length; simpl; lia].
      apply elem_of_app. left. right. left.
    + exists (("   " +:+ help_name help)
              +:+ repeat " " (30 - String.length ("   " +:+ help_name help))).
      split.
      * apply elem_of_app. left. rewrite append_assoc_string. left.
      * rewrite length_append_string, repeat_length by (simpl; lia). lia.
  - intros optionHelp h -> Hin Hlen.
    exists (("      " +:+ help_name h) +:+ repeat " " (27 - String.length (help_name h))).
    split.
    + apply elem_of_app. right. apply list_elem_of_fmap. exists h. split; [| done].
      by rewrite append_assoc_string.
    + rewrite !length_append_string, repeat_length by (simpl; lia). simpl. lia.
Qed.

Lemma help_text_columns_witness :
  getHelp quiet_command = Some (Some (mkHelp "noop" "Do nothing"))
  /\ exists prefix,
       prefix +:+ "Do nothing" ∈ help_lines quiet_command /\ String.length prefix = 30.
Proof.
  split; [reflexivity |].
  destruct (help_text_columns quiet_command (mkHelp "noop" "Do nothing") eq_refl)
    as [Hcolumn _].
  exact Hcolumn.
Defined.

(** ** The class Plugin as a command *)



Section Tokens.

Variable C : Collaborators.
Variable pid : nat.















End Tokens.


